(* ===================================================================== *)
(* PairCFM (pair_gran_cfm.cpp): cohesive frictional granular contact.     *)
(*                                                                        *)
(* A shallow embedding of PairCFM::settings and PairCFM::compute, and of  *)
(* allocate, coeff, init_style, init_one, the restart functions and the   *)
(* forward communication of mass_rigid.                                   *)
(* C++ double is IEEE binary64, modelled by Rocq's primitive floats, so   *)
(* every definition below runs (vm_compute) on concrete inputs.  The      *)
(* arithmetic is written in the source's evaluation order; fused          *)
(* multiply-add contraction is not modelled.                              *)
(*                                                                        *)
(* Arrays are lists read with a default (an out-of-range read or write    *)
(* is undefined behaviour in the source; here the read yields the         *)
(* default and the write does nothing).  The dense tables is_cohesive,    *)
(* _Dinitial and _Dtensile are finite maps keyed by the index pair.       *)
(* ===================================================================== *)

From Stdlib Require Import ZArith Bool Lia Floats.
From stdpp Require Import base option list strings gmap.

Local Open Scope float_scope.

(* --------------------------------------------------------------------- *)
(* Numbers                                                                *)
(* --------------------------------------------------------------------- *)

#[global] Instance float_inhabited : Inhabited float := populate 0.

(* math.h: M_PI, the double nearest to pi. *)
Definition M_PI : float := 0x1.921fb54442d18p+1.

(* math.h: fabs, sqrt. *)
Definition fabs (a : float) : float := PrimFloat.abs a.
Definition sqrt (a : float) : float := PrimFloat.sqrt a.

(* math.h: fmin returns the other argument when one is a NaN. *)
Definition fmin (a b : float) : float :=
  if is_nan a then b
  else if is_nan b then a
  else if b <? a then b else a.

(* A divisor that is +0 or -0. *)
Definition is_zero (d : float) : bool := d =? 0.

(* fabs(x) < INFINITY: x is a number other than an infinity. *)
Definition finite (x : float) : bool := fabs x <? infinity.

(* --------------------------------------------------------------------- *)
(* Data                                                                   *)
(* --------------------------------------------------------------------- *)

(* One row x[i], v[i], f[i], omega[i] or torque[i]. *)
Record vec3 : Set := V3 { c0 : float; c1 : float; c2 : float }.

#[global] Instance vec3_inhabited : Inhabited vec3 := populate (V3 0 0 0).

(* The members of PairCFM that settings and init_style fix for a run. *)
Record PairCFM : Set := mkPairCFM {
  kn : float;
  kt : float;
  gamman : float;
  gammat : float;
  xmu : float;
  dampflag : Z;
  _t : float;
  _c : float;
  _enlargeFactor : float;
  dt : float;
  freeze_group_bit : Z;
  fix_rigid : bool;            (* fix_rigid != NULL *)
  mass_rigid : list float
}.

(* The per-atom arrays compute only reads, with nlocal, newton_pair and
   the NEIGHMASK of lmptype.h. *)
Record Atom : Set := mkAtom {
  atom_x : list vec3;
  atom_v : list vec3;
  atom_omega : list vec3;
  atom_radius : list float;
  atom_rmass : list float;
  atom_mask : list Z;
  atom_tag : list Z;
  nlocal : Z;
  newton_pair : Z;
  NEIGHMASK : Z
}.

(* What one pass over a neighbour of atom i reads and writes:
   the three bond tables, touch = firsttouch[i], allshear = firstshear[i],
   the force and torque accumulators and the members _D, _maxShearForce. *)
Record Contact : Type := mkContact {
  is_cohesive : gmap (Z * Z) bool;
  _Dinitial : gmap (Z * Z) float;
  _Dtensile : gmap (Z * Z) float;
  touch : list Z;
  allshear : list float;
  atom_f : list vec3;
  atom_torque : list vec3;
  _D : float;
  _maxShearForce : float
}.

(* table[a][b], false or 0.0 where nothing was stored *)
Definition tbl_get {V : Type} (d : V) (t : gmap (Z * Z) V) (a b : Z) : V :=
  default d (t !! (a, b)).

Definition tbl_set {V : Type} (t : gmap (Z * Z) V) (a b : Z) (v : V)
  : gmap (Z * Z) V := <[(a, b) := v]> t.

Definition cohesive (c : Contact) (ID1 ID2 : Z) : bool :=
  tbl_get false (is_cohesive c) (ID1 - 1) (ID2 - 1).

Definition Dinitial_at (c : Contact) (ID1 ID2 : Z) : float :=
  tbl_get 0 (_Dinitial c) (ID1 - 1) (ID2 - 1).

Definition Dtensile_at (c : Contact) (ID1 ID2 : Z) : float :=
  tbl_get 0 (_Dtensile c) (ID1 - 1) (ID2 - 1).

(* _history = &allshear[3*jj]; _history[k] *)
Definition hist_ix (jj k : nat) : nat := (3 * jj + k)%nat.

Definition history (c : Contact) (jj k : nat) : float :=
  allshear c !!! hist_ix jj k.

Definition set_tables (c : Contact) (co : gmap (Z * Z) bool)
    (di dt' : gmap (Z * Z) float) : Contact :=
  mkContact co di dt' (touch c) (allshear c) (atom_f c) (atom_torque c)
            (_D c) (_maxShearForce c).

Definition set_cohesive (c : Contact) (co : gmap (Z * Z) bool) : Contact :=
  set_tables c co (_Dinitial c) (_Dtensile c).

Definition set_touch (c : Contact) (jj : nat) (v : Z) : Contact :=
  mkContact (is_cohesive c) (_Dinitial c) (_Dtensile c)
            (<[jj := v]> (touch c)) (allshear c) (atom_f c) (atom_torque c)
            (_D c) (_maxShearForce c).

Definition set_history (c : Contact) (jj k : nat) (v : float) : Contact :=
  mkContact (is_cohesive c) (_Dinitial c) (_Dtensile c)
            (touch c) (<[hist_ix jj k := v]> (allshear c))
            (atom_f c) (atom_torque c) (_D c) (_maxShearForce c).

Definition set_f (c : Contact) (fv : list vec3) : Contact :=
  mkContact (is_cohesive c) (_Dinitial c) (_Dtensile c)
            (touch c) (allshear c) fv (atom_torque c)
            (_D c) (_maxShearForce c).

Definition set_torque (c : Contact) (tv : list vec3) : Contact :=
  mkContact (is_cohesive c) (_Dinitial c) (_Dtensile c)
            (touch c) (allshear c) (atom_f c) tv
            (_D c) (_maxShearForce c).

Definition set_D (c : Contact) (d : float) : Contact :=
  mkContact (is_cohesive c) (_Dinitial c) (_Dtensile c)
            (touch c) (allshear c) (atom_f c) (atom_torque c)
            d (_maxShearForce c).

Definition set_maxShearForce (c : Contact) (m : float) : Contact :=
  mkContact (is_cohesive c) (_Dinitial c) (_Dtensile c)
            (touch c) (allshear c) (atom_f c) (atom_torque c)
            (_D c) m.

(* _history[0] = _history[1] = _history[2] = 0.0 *)
Definition zero_shear (c : Contact) (jj : nat) : Contact :=
  set_history (set_history (set_history c jj 0 0) jj 1 0) jj 2 0.

(* Both directions of is_cohesive, as the source writes them. *)
Definition set_bond (c : Contact) (ID1 ID2 : Z) (b : bool) : Contact :=
  set_cohesive c
    (tbl_set (tbl_set (is_cohesive c) (ID1 - 1) (ID2 - 1) b)
             (ID2 - 1) (ID1 - 1) b).

(* --------------------------------------------------------------------- *)
(* compute, lines 181-195: the geometry of the pair (i, j)                *)
(* --------------------------------------------------------------------- *)

Record Geom : Set := mkGeom {
  delx : float; dely : float; delz : float;
  rsq : float;
  radi : float; radj : float;
  radsum : float;
  r : float;
  radmin : float
}.

Definition geometry (A : Atom) (i j : nat) : Geom :=
  let xtmp := c0 (atom_x A !!! i) in
  let ytmp := c1 (atom_x A !!! i) in
  let ztmp := c2 (atom_x A !!! i) in
  let radi := atom_radius A !!! i in
  let delx := xtmp - c0 (atom_x A !!! j) in
  let dely := ytmp - c1 (atom_x A !!! j) in
  let delz := ztmp - c2 (atom_x A !!! j) in
  let rsq := delx * delx + dely * dely + delz * delz in
  let radj := atom_radius A !!! j in
  let radsum := radi + radj in
  let r := sqrt rsq in
  let radmin := fmin radj radi in
  mkGeom delx dely delz rsq radi radj radsum r radmin.

(* --------------------------------------------------------------------- *)
(* compute, lines 199-218: bond formation while ntimestep < 1             *)
(* --------------------------------------------------------------------- *)

(* r <= radsum + (_enlargeFactor-1)*radmin *)
Definition bond_threshold (P : PairCFM) (g : Geom) : float :=
  radsum g + ((_enlargeFactor P - 1) * radmin g).

Definition in_bond_range (P : PairCFM) (g : Geom) : bool :=
  r g <=? bond_threshold P g.

Definition form_bond (P : PairCFM) (ntimestep : Z) (ID1 ID2 : Z) (jj : nat)
    (g : Geom) (c : Contact) (_ignore : Z) : Contact * Z :=
  if (ntimestep <? 1)%Z then
    if in_bond_range P g then
      let co := tbl_set (tbl_set (is_cohesive c) (ID1 - 1) (ID2 - 1) true)
                        (ID2 - 1) (ID1 - 1) true in
      let di := tbl_set (tbl_set (_Dinitial c) (ID1 - 1) (ID2 - 1)
                                 (radsum g - r g))
                        (ID2 - 1) (ID1 - 1) (radsum g - r g) in
      let dte := tbl_set (tbl_set (_Dtensile c) (ID2 - 1) (ID1 - 1)
                                  ((M_PI * radmin g * _t P) / kn P))
                         (ID1 - 1) (ID2 - 1)
                         ((M_PI * radmin g * _t P) / kn P) in
      (set_tables c co di dte, _ignore)
    else
      let ca := set_touch c jj 0 in
      let co := tbl_set (tbl_set (is_cohesive ca) (ID1 - 1) (ID2 - 1) false)
                        (ID2 - 1) (ID1 - 1) false in
      let di := tbl_set (tbl_set (_Dinitial ca) (ID1 - 1) (ID2 - 1) 0)
                        (ID2 - 1) (ID1 - 1) 0 in
      let dte := tbl_set (tbl_set (_Dtensile ca) (ID2 - 1) (ID1 - 1) 0)
                         (ID1 - 1) (ID2 - 1) 0 in
      (set_tables ca co di dte, (-1)%Z)
  else (c, _ignore).

(* --------------------------------------------------------------------- *)
(* compute, lines 220-230: unset non-touching neighbours                  *)
(* --------------------------------------------------------------------- *)

Definition unset_contact (c : Contact) (jj : nat) : Contact :=
  zero_shear (set_touch c jj 0) jj.

Definition unset_nontouching (ID1 ID2 : Z) (jj : nat) (g : Geom)
    (c : Contact) (_ignore : Z) : Contact * Z :=
  if negb (cohesive c ID1 ID2) && (radsum g <? r g)
  then (unset_contact c jj, (-1)%Z)
  else (c, _ignore).

(* --------------------------------------------------------------------- *)
(* compute, lines 232-255: stretch and tensile failure                    *)
(* --------------------------------------------------------------------- *)

(* _D = (radsum - r) - _Dinitial[ID1-1][ID2-1] *)
Definition stretch (ID1 ID2 : Z) (g : Geom) (c : Contact) : float :=
  (radsum g - r g) - Dinitial_at c ID1 ID2.

(* fabs(_D) >= _Dtensile[ID1-1][ID2-1] *)
Definition beyond_tensile (ID1 ID2 : Z) (c : Contact) (D : float) : bool :=
  Dtensile_at c ID1 ID2 <=? fabs D.

(* lines 246-253 *)
Definition tensile_failure (ID1 ID2 : Z) (jj : nat) (c : Contact) : Contact :=
  let ca := unset_contact c jj in
  let cb := set_history ca jj 5 (history ca jj 5 + 1) in
  set_bond cb ID1 ID2 false.

Definition stretch_check (ID1 ID2 : Z) (jj : nat) (g : Geom)
    (c : Contact) (_ignore : Z) : Contact * Z :=
  let ca := set_D c (stretch ID1 ID2 g c) in
  if _D ca <? 0 then
    let '(cb, ig) :=
      if negb (cohesive ca ID1 ID2)
      then (unset_contact ca jj, (-1)%Z)
      else (ca, _ignore) in
    if beyond_tensile ID1 ID2 cb (_D cb) && cohesive cb ID1 ID2
    then (tensile_failure ID1 ID2 jj cb, (-1)%Z)
    else (cb, ig)
  else (ca, _ignore).

(* --------------------------------------------------------------------- *)
(* compute, lines 258-312: velocities, effective mass, normal force       *)
(* --------------------------------------------------------------------- *)

(* lines 290-299 *)
Definition pair_mi (P : PairCFM) (A : Atom) (i : nat) : float :=
  if fix_rigid P && (0 <? mass_rigid P !!! i)
  then mass_rigid P !!! i else atom_rmass A !!! i.

Definition frozen (P : PairCFM) (A : Atom) (i : nat) : bool :=
  negb (Z.land (atom_mask A !!! i) (freeze_group_bit P) =? 0)%Z.

Definition effective_mass (P : PairCFM) (A : Atom) (i j : nat) : float :=
  let mi := pair_mi P A i in
  let mj := pair_mi P A j in
  let meff := mi * mj / (mi + mj) in
  let meff := if frozen P A i then mj else meff in
  if frozen P A j then mi else meff.

Record Kin : Set := mkKin {
  rinv : float; rsqinv : float;
  vnnr : float;
  meff : float;
  ccel : float;
  vtr1 : float; vtr2 : float; vtr3 : float
}.

Definition kinematics (P : PairCFM) (A : Atom) (i j : nat) (g : Geom)
    (D : float) : Kin :=
  let rinv := 1 / r g in
  let rsqinv := 1 / rsq g in
  let vr1 := c0 (atom_v A !!! i) - c0 (atom_v A !!! j) in
  let vr2 := c1 (atom_v A !!! i) - c1 (atom_v A !!! j) in
  let vr3 := c2 (atom_v A !!! i) - c2 (atom_v A !!! j) in
  let vnnr := vr1 * delx g + vr2 * dely g + vr3 * delz g in
  let vn1 := delx g * vnnr * rsqinv in
  let vn2 := dely g * vnnr * rsqinv in
  let vn3 := delz g * vnnr * rsqinv in
  let vt1 := vr1 - vn1 in
  let vt2 := vr2 - vn2 in
  let vt3 := vr3 - vn3 in
  let wr1 := (radi g * c0 (atom_omega A !!! i)
              + radj g * c0 (atom_omega A !!! j)) * rinv in
  let wr2 := (radi g * c1 (atom_omega A !!! i)
              + radj g * c1 (atom_omega A !!! j)) * rinv in
  let wr3 := (radi g * c2 (atom_omega A !!! i)
              + radj g * c2 (atom_omega A !!! j)) * rinv in
  let meff := effective_mass P A i j in
  let damp := meff * gamman P * vnnr * rsqinv in
  let ccel := kn P * D * rinv - damp in
  let vtr1 := vt1 - (delz g * wr2 - dely g * wr3) in
  let vtr2 := vt2 - (delx g * wr3 - delz g * wr1) in
  let vtr3 := vt3 - (dely g * wr1 - delx g * wr2) in
  mkKin rinv rsqinv vnnr meff ccel vtr1 vtr2 vtr3.

(* --------------------------------------------------------------------- *)
(* compute, lines 316-332: shear history                                  *)
(* --------------------------------------------------------------------- *)

(* lines 316-320 *)
Definition integrate_shear (P : PairCFM) (jj : nat) (k : Kin) (c : Contact)
  : Contact :=
  let ca := set_touch c jj 1 in
  let ca := set_history ca jj 0 (history ca jj 0 + vtr1 k * dt P) in
  let ca := set_history ca jj 1 (history ca jj 1 + vtr2 k * dt P) in
  set_history ca jj 2 (history ca jj 2 + vtr3 k * dt P).

(* lines 322-323, read after integrate_shear *)
Definition shear_magnitude (jj : nat) (c : Contact) : float :=
  sqrt (history c jj 0 * history c jj 0 + history c jj 1 * history c jj 1
        + history c jj 2 * history c jj 2).

(* lines 327-332 *)
Definition rotate_shear (jj : nat) (g : Geom) (k : Kin) (c : Contact)
  : Contact :=
  let rsht := history c jj 0 * delx g + history c jj 1 * dely g
              + history c jj 2 * delz g in
  let rsht := rsht * rsqinv k in
  let ca := set_history c jj 0 (history c jj 0 - rsht * delx g) in
  let ca := set_history ca jj 1 (history ca jj 1 - rsht * dely g) in
  set_history ca jj 2 (history ca jj 2 - rsht * delz g).

(* --------------------------------------------------------------------- *)
(* compute, lines 336-351: tangential force and its limit                 *)
(* --------------------------------------------------------------------- *)

Definition shear_force (P : PairCFM) (jj : nat) (k : Kin) (c : Contact)
  : vec3 :=
  V3 (- (kt P * history c jj 0 + meff k * gammat P * vtr1 k))
     (- (kt P * history c jj 1 + meff k * gammat P * vtr2 k))
     (- (kt P * history c jj 2 + meff k * gammat P * vtr3 k)).

(* lines 342-349: the limit fn, with _maxShearForce stored when bonded *)
Definition force_limit (P : PairCFM) (ID1 ID2 : Z) (g : Geom) (k : Kin)
    (c : Contact) : Contact * float :=
  if cohesive c ID1 ID2 then
    let ca := set_maxShearForce c (M_PI * radmin g * _c P) in
    (ca, xmu P * fabs (ccel k * r g) + _maxShearForce ca)
  else (c, xmu P * fabs (ccel k * r g)).

Definition norm3 (u : vec3) : float :=
  sqrt (c0 u * c0 u + c1 u * c1 u + c2 u * c2 u).

(* --------------------------------------------------------------------- *)
(* compute, lines 353-380: rescaling and shear failure                    *)
(* --------------------------------------------------------------------- *)

(* lines 355-363 *)
Definition scale_shear (P : PairCFM) (jj : nat) (k : Kin) (fn fs : float)
    (c : Contact) (fsv : vec3) : Contact * vec3 :=
  let ca := set_history c jj 0
      ((fn / fs) * (history c jj 0 + meff k * gammat P * vtr1 k / kt P)
       - meff k * gammat P * vtr1 k / kt P) in
  let ca := set_history ca jj 1
      ((fn / fs) * (history ca jj 1 + meff k * gammat P * vtr2 k / kt P)
       - meff k * gammat P * vtr2 k / kt P) in
  let ca := set_history ca jj 2
      ((fn / fs) * (history ca jj 2 + meff k * gammat P * vtr3 k / kt P)
       - meff k * gammat P * vtr3 k / kt P) in
  (ca, V3 (c0 fsv * (fn / fs)) (c1 fsv * (fn / fs)) (c2 fsv * (fn / fs))).

(* lines 366-379 *)
Definition shear_failure (ID1 ID2 : Z) (jj : nat) (g : Geom)
    (c : Contact) (fsv : vec3) : Contact * vec3 :=
  if cohesive c ID1 ID2 then
    let ca := set_history c jj 6 (history c jj 6 + 1) in
    let ca := set_bond ca ID1 ID2 false in
    if radsum g * radsum g <? rsq g
    then (unset_contact ca jj, V3 0 0 0)
    else (ca, fsv)
  else (c, fsv).

(* lines 353-380 *)
Definition rescale (P : PairCFM) (ID1 ID2 : Z) (jj : nat) (g : Geom)
    (k : Kin) (shrmag fn fs : float) (c : Contact) (fsv : vec3)
  : Contact * vec3 :=
  if fn <=? fs then
    let '(ca, fsa) :=
      if negb (shrmag =? 0) then scale_shear P jj k fn fs c fsv
      else (c, V3 0 0 0) in
    shear_failure ID1 ID2 jj g ca fsa
  else (c, fsv).

(* --------------------------------------------------------------------- *)
(* compute, lines 384-405: forces and torques                             *)
(* --------------------------------------------------------------------- *)

Definition vadd (a : vec3) (x y z : float) : vec3 :=
  V3 (c0 a + x) (c1 a + y) (c2 a + z).

Definition vsub (a : vec3) (x y z : float) : vec3 :=
  V3 (c0 a - x) (c1 a - y) (c2 a - z).

(* fx, fy, fz of lines 384-386 *)
Definition pair_force (g : Geom) (k : Kin) (fsv : vec3) : vec3 :=
  V3 (delx g * ccel k + c0 fsv) (dely g * ccel k + c1 fsv)
     (delz g * ccel k + c2 fsv).

(* tor1, tor2, tor3 of lines 391-393 *)
Definition pair_tor (g : Geom) (k : Kin) (fsv : vec3) : vec3 :=
  V3 (rinv k * (dely g * c2 fsv - delz g * c1 fsv))
     (rinv k * (delz g * c0 fsv - delx g * c2 fsv))
     (rinv k * (delx g * c1 fsv - dely g * c0 fsv)).

(* newton_pair || j < nlocal *)
Definition owns_j (A : Atom) (j : nat) : bool :=
  negb (newton_pair A =? 0)%Z || (Z.of_nat j <? nlocal A)%Z.

Definition apply_forces (A : Atom) (i j : nat) (g : Geom) (k : Kin)
    (fsv : vec3) (c : Contact) : Contact :=
  let F := pair_force g k fsv in
  let T := pair_tor g k fsv in
  let ca := set_f c (<[i := vadd (atom_f c !!! i) (c0 F) (c1 F) (c2 F)]>
                      (atom_f c)) in
  let ca := set_torque ca
      (<[i := vsub (atom_torque ca !!! i)
                   (radi g * c0 T) (radi g * c1 T) (radi g * c2 T)]>
         (atom_torque ca)) in
  if owns_j A j then
    let cb := set_f ca (<[j := vsub (atom_f ca !!! j) (c0 F) (c1 F) (c2 F)]>
                         (atom_f ca)) in
    set_torque cb
      (<[j := vsub (atom_torque cb !!! j)
                   (radj g * c0 T) (radj g * c1 T) (radj g * c2 T)]>
         (atom_torque cb))
  else ca.

(* --------------------------------------------------------------------- *)
(* compute, lines 257-409: the force evaluation of one pair               *)
(* --------------------------------------------------------------------- *)

(* The state and tangential force after line 380, with the kinematics. *)
Definition contact_law (P : PairCFM) (A : Atom) (i j : nat) (ID1 ID2 : Z)
    (jj : nat) (g : Geom) (c : Contact) : Contact * vec3 :=
  let k := kinematics P A i j g (_D c) in
  let ca := integrate_shear P jj k c in
  let shrmag := shear_magnitude jj ca in
  let ca := rotate_shear jj g k ca in
  let fsv := shear_force P jj k ca in
  let '(ca, fn) := force_limit P ID1 ID2 g k ca in
  let fs := norm3 fsv in
  rescale P ID1 ID2 jj g k shrmag fn fs ca fsv.

(* The virial tally of line 407 goes to accumulators that are not part of
   this model. *)
Definition force_eval (P : PairCFM) (A : Atom) (i j : nat) (ID1 ID2 : Z)
    (jj : nat) (g : Geom) (c : Contact) : Contact :=
  let k := kinematics P A i j g (_D c) in
  let '(ca, fsv) := contact_law P A i j ID1 ID2 jj g c in
  apply_forces A i j g k fsv ca.

(* --------------------------------------------------------------------- *)
(* compute, lines 176-411: the body of the loop over neighbours           *)
(* --------------------------------------------------------------------- *)

(* The three gates before the force evaluation; _ignore starts at 1. *)
Definition pair_gates (P : PairCFM) (ntimestep : Z) (ID1 ID2 : Z) (jj : nat)
    (g : Geom) (c : Contact) : Contact * Z :=
  let '(ca, ig) := form_bond P ntimestep ID1 ID2 jj g c 1%Z in
  let '(ca, ig) := unset_nontouching ID1 ID2 jj g ca ig in
  stretch_check ID1 ID2 jj g ca ig.

(* Line 410, "_history[4] == 1.0;", compares and drops the result: it
   writes nothing. *)
Definition pair_eval (P : PairCFM) (A : Atom) (ntimestep : Z) (i j : nat)
    (jj : nat) (c : Contact) : Contact :=
  let ID1 := atom_tag A !!! i in
  let ID2 := atom_tag A !!! j in
  let g := geometry A i j in
  let '(ca, ig) := pair_gates P ntimestep ID1 ID2 jj g c in
  if negb (ig =? -1)%Z then force_eval P A i j ID1 ID2 jj g ca else ca.

(* j = jlist[jj]; j &= NEIGHMASK *)
Definition neighbor_index (A : Atom) (jlist : list Z) (jj : nat) : nat :=
  Z.to_nat (Z.land (jlist !!! jj) (NEIGHMASK A)).

Definition pair_body (P : PairCFM) (A : Atom) (ntimestep : Z) (i : nat)
    (jlist : list Z) (c : Contact) (jj : nat) : Contact :=
  pair_eval P A ntimestep i (neighbor_index A jlist jj) jj c.

(* --------------------------------------------------------------------- *)
(* compute, lines 137-175 and 412: the loops and the first-step tables    *)
(* --------------------------------------------------------------------- *)

(* list->inum, ilist, numneigh, firstneigh *)
Record NeighList : Set := mkNeighList {
  inum : nat;
  ilist : list nat;
  numneigh : list nat;
  firstneigh : list (list Z)
}.

(* fix_history->firstflag and fix_history->firstvalue *)
Record History : Set := mkHistory {
  firsttouch : list (list Z);
  firstshear : list (list float)
}.

(* memory->create(t,inum,inum) followed by t[i][j] = v for all i, j *)
Definition fill_row {V : Type} (n : nat) (v : V) (t : gmap (Z * Z) V)
    (i : nat) : gmap (Z * Z) V :=
  fold_left (fun m j => tbl_set m (Z.of_nat i) (Z.of_nat j) v) (seq 0 n) t.

Definition fill_table {V : Type} (n : nat) (v : V) : gmap (Z * Z) V :=
  fold_left (fill_row n v) (seq 0 n) ∅.

(* lines 144-160 *)
Definition create_tables (ntimestep : Z) (NL : NeighList) (c : Contact)
  : Contact :=
  if (ntimestep =? 0)%Z
  then set_tables c (fill_table (inum NL) false) (fill_table (inum NL) 0)
                  (fill_table (inum NL) 0)
  else c.

(* touch = firsttouch[i]; allshear = firstshear[i] *)
Definition load_history (h : History) (i : nat) (c : Contact) : Contact :=
  mkContact (is_cohesive c) (_Dinitial c) (_Dtensile c)
            (firsttouch h !!! i) (firstshear h !!! i)
            (atom_f c) (atom_torque c) (_D c) (_maxShearForce c).

(* touch and allshear point into the store: what was written through them
   is what firsttouch[i] and firstshear[i] hold afterwards *)
Definition store_history (h : History) (i : nat) (c : Contact) : History :=
  mkHistory (<[i := touch c]> (firsttouch h))
            (<[i := allshear c]> (firstshear h)).

(* lines 176-411 *)
Definition neighbor_loop (P : PairCFM) (A : Atom) (ntimestep : Z)
    (NL : NeighList) (i : nat) (c : Contact) : Contact :=
  fold_left (pair_body P A ntimestep i (firstneigh NL !!! i))
            (seq 0 (numneigh NL !!! i)) c.

(* lines 164-412 *)
Definition atom_body (P : PairCFM) (A : Atom) (ntimestep : Z)
    (NL : NeighList) (s : Contact * History) (ii : nat)
  : Contact * History :=
  let i := ilist NL !!! ii in
  let c := neighbor_loop P A ntimestep NL i (load_history s.2 i s.1) in
  (c, store_history s.2 i c).

(* PairCFM::compute.  The refresh of mass_rigid from fix rigid (lines
   109-123) and the virial tallies belong to collaborators: mass_rigid is
   read as it stands. *)
Definition compute (P : PairCFM) (A : Atom) (ntimestep : Z)
    (NL : NeighList) (s : Contact * History) : Contact * History :=
  fold_left (atom_body P A ntimestep NL) (seq 0 (inum NL))
            (create_tables ntimestep NL s.1, s.2).

(* --------------------------------------------------------------------- *)
(* PairCFM::settings, lines 443-466                                       *)
(* --------------------------------------------------------------------- *)

Section Settings.

(* force->numeric and force->inumeric (force.cpp): the value of a word,
   or None where the helper itself stops the run. *)
Variable numeric : string -> option float.
Variable inumeric : string -> option Z.

(* The nine members settings assigns. *)
Record Style : Set := mkStyle {
  s_kn : float; s_kt : float; s_gamman : float; s_gammat : float;
  s_xmu : float; s_dampflag : Z;
  s_t : float; s_c : float; s_enlargeFactor : float
}.

(* the test of lines 463-464 *)
Definition illegal (s : Style) : bool :=
  (s_kn s <? 0) || (s_kt s <? 0) || (s_gamman s <? 0) || (s_gammat s <? 0)
  || (s_xmu s <? 0) || (10000 <? s_xmu s) || (s_dampflag s <? 0)%Z
  || (s_c s <? 0) || (s_t s <? 0) || (s_enlargeFactor s <? 0)
  || (1 <? s_dampflag s)%Z.

(* lines 447-461: the members as assigned, None where numeric or inumeric
   stops the run *)
Definition assign_style (arg : list string) : option Style :=
  kn ← numeric (arg !!! 0%nat);
  kt ← (if String.eqb (arg !!! 1%nat) "NULL" then Some (kn * 2 / 7)
        else numeric (arg !!! 1%nat));
  gamman ← numeric (arg !!! 2%nat);
  gammat ← (if String.eqb (arg !!! 3%nat) "NULL" then Some (0.5 * gamman)
            else numeric (arg !!! 3%nat));
  xmu ← numeric (arg !!! 4%nat);
  dampflag ← inumeric (arg !!! 5%nat);
  let gammat := if (dampflag =? 0)%Z then 0 else gammat in
  t ← numeric (arg !!! 6%nat);
  c ← numeric (arg !!! 7%nat);
  enlargeFactor ← numeric (arg !!! 8%nat);
  Some (mkStyle kn kt gamman gammat xmu dampflag t c enlargeFactor).

(* None is error->all *)
Definition settings (narg : Z) (arg : list string) : option Style :=
  if negb (narg =? 9)%Z then None else
  s ← assign_style arg;
  if illegal s then None else Some s.

End Settings.

(* The members of PairCFM after settings; the rest is init_style's. *)
Definition configure (s : Style) (dt0 : float) (freeze : Z) (rigid : bool)
    (mr : list float) : PairCFM :=
  mkPairCFM (s_kn s) (s_kt s) (s_gamman s) (s_gammat s) (s_xmu s)
            (s_dampflag s) (s_t s) (s_c s) (s_enlargeFactor s)
            dt0 freeze rigid mr.

(* --------------------------------------------------------------------- *)
(* The divisions of the force evaluation                                  *)
(* --------------------------------------------------------------------- *)

(* The divisors of the divisions the force evaluation executes, in order:
   r (line 258), rsq (line 259), mi+mj (line 297) and, inside
   "if (fs >= fn) if (shrmag != 0.0)", fs and kt (lines 355-363). *)
Definition force_divisors (P : PairCFM) (A : Atom) (i j : nat)
    (ID1 ID2 : Z) (jj : nat) (g : Geom) (c : Contact) : list float :=
  let k := kinematics P A i j g (_D c) in
  let ci := integrate_shear P jj k c in
  let shrmag := shear_magnitude jj ci in
  let cr := rotate_shear jj g k ci in
  let fsv := shear_force P jj k cr in
  let fn := (force_limit P ID1 ID2 g k cr).2 in
  let fs := norm3 fsv in
  [r g; rsq g; pair_mi P A i + pair_mi P A j]
  ++ (if (fn <=? fs) && negb (shrmag =? 0) then [fs; kt P] else []).

(* ===================================================================== *)
(* Vocabulary of the statements                                           *)
(* ===================================================================== *)

(* t[a][b] = v; t[b][a] = v *)
Definition set_both (t : gmap (Z * Z) bool) (a b : Z) (v : bool)
  : gmap (Z * Z) bool := tbl_set (tbl_set t a b v) b a v.

(* Every write to is_cohesive stores one value in both directions, and
   true is stored only while ntimestep < 1. *)
Inductive bond_writes (ntimestep : Z)
  : gmap (Z * Z) bool -> gmap (Z * Z) bool -> Prop :=
| bw_refl t : bond_writes ntimestep t t
| bw_clear t t' a b :
    bond_writes ntimestep t t' ->
    bond_writes ntimestep t (set_both t' a b false)
| bw_form t t' a b :
    (ntimestep < 1)%Z ->
    bond_writes ntimestep t t' ->
    bond_writes ntimestep t (set_both t' a b true).

(* is_cohesive[a][b] == is_cohesive[b][a] for all a, b *)
Definition symmetric (t : gmap (Z * Z) bool) : Prop :=
  forall a b : Z, tbl_get false t a b = tbl_get false t b a.

(* What follows a state: further pair evaluations and calls of compute
   once the first step is over (1 <= ntimestep), and whatever else leaves
   is_cohesive alone (the integrator, the neighbour list, the loading of
   another atom's history). *)
Inductive later (c : Contact) : Contact -> Prop :=
| later_now : later c c
| later_pair c' P A nt i j jj :
    later c c' -> (1 <= nt)%Z -> later c (pair_eval P A nt i j jj c')
| later_compute c' h P A nt NL :
    later c c' -> (1 <= nt)%Z -> later c (compute P A nt NL (c', h)).1
| later_other c' c'' :
    later c c' -> is_cohesive c'' = is_cohesive c' -> later c c''.

Definition same_forces (c c' : Contact) : Prop :=
  atom_f c' = atom_f c /\ atom_torque c' = atom_torque c.

(* ===================================================================== *)
(* Scenarios: two atoms on the x axis, used to run the model              *)
(* ===================================================================== *)

(* kn 1000, kt 250, no damping, xmu 0.5, tensile strength 1, cohesive
   shear strength 1, enlarge factor 1.25, dt 2^-10 *)
Definition cfm_style : PairCFM :=
  mkPairCFM 1000 250 0 0 0.5 0 1 1 1.25 0x1p-10 0 false [].

(* radii 1, masses 1, tags 1 and 2, atom 0 at the origin moving with
   velocity (0, vy, 0), atom 1 at (d, 0, 0) at rest, no spin *)
Definition two_atoms (d vy : float) : Atom :=
  mkAtom [V3 0 0 0; V3 d 0 0] [V3 0 vy 0; V3 0 0 0] [V3 0 0 0; V3 0 0 0]
         [1; 1] [1; 1] [1%Z; 1%Z] [1%Z; 2%Z] 2 1 0x3FFFFFFF.

(* atom 0 with one neighbour slot of 7 scalars, nothing stored yet *)
Definition fresh_contact : Contact :=
  mkContact ∅ ∅ ∅ [0%Z] (replicate 7 0) [V3 0 0 0; V3 0 0 0]
            [V3 0 0 0; V3 0 0 0] 0 0.

(* The state after the formation step of a pair 1.5 apart: bonded, with
   _Dinitial 0.5. *)
Definition bonded_contact : Contact :=
  pair_eval cfm_style (two_atoms 1.5 0) 0 0 1 0 fresh_contact.

(* Atom 0 with two neighbour slots of 7 scalars each (init_style asks the
   history fix for 7 per neighbour), bonded to its first neighbour as in
   bonded_contact. *)
Definition two_slot_contact : Contact :=
  mkContact (is_cohesive bonded_contact) (_Dinitial bonded_contact)
            (_Dtensile bonded_contact) [1%Z; 1%Z] (replicate 14 0)
            [V3 0 0 0; V3 0 0 0] [V3 0 0 0; V3 0 0 0] 0 0.

(* Three atoms of radius 1 at rest in the plane z = 0: atom 0 at the
   origin, atom 1 at (d, 0, 0), atom 2 at (0, 1.5, 0); tags 1, 2, 3. *)
Definition three_atoms (d : float) : Atom :=
  mkAtom [V3 0 0 0; V3 d 0 0; V3 0 1.5 0]
         [V3 0 0 0; V3 0 0 0; V3 0 0 0] [V3 0 0 0; V3 0 0 0; V3 0 0 0]
         [1; 1; 1] [1; 1; 1] [1%Z; 1%Z; 1%Z] [1%Z; 2%Z; 3%Z]
         3 1 0x3FFFFFFF.

(* Atom 0 lists atoms 1 and 2 in its slots 0 and 1. *)
Definition star_list : NeighList :=
  mkNeighList 3 [0; 1; 2]%nat [2; 0; 0]%nat [[1%Z; 2%Z]; []; []].

(* Nothing computed yet; the history fix holds 7 scalars for each of the
   two neighbours of atom 0. *)
Definition star_start : Contact * History :=
  (mkContact ∅ ∅ ∅ [] [] [V3 0 0 0; V3 0 0 0; V3 0 0 0]
             [V3 0 0 0; V3 0 0 0; V3 0 0 0] 0 0,
   mkHistory [[0%Z; 0%Z]; []; []] [replicate 14 0; []; []]).

(* The first call of compute, with atom 1 at distance 1.5: both pairs
   bond.  The second, at ntimestep 1, with atom 1 pulled to 1.75. *)
Definition star_step0 : Contact * History :=
  compute cfm_style (three_atoms 1.5) 0 star_list star_start.

Definition star_step1 : Contact * History :=
  compute cfm_style (three_atoms 1.75) 1 star_list star_step0.

(* Two atoms 2 apart, hence just touching, unbonded and at rest, with a
   shear history (1, 0, 0) left along the line of centres. *)
Definition normal_shear_contact : Contact :=
  mkContact ∅ ∅ ∅ [1%Z] [1; 0; 0; 0; 0; 0; 0] [V3 0 0 0; V3 0 0 0]
            [V3 0 0 0; V3 0 0 0] 0 0.

(* That pair at ntimestep 1: the state and _ignore after the gates, the
   kinematics of the force evaluation, and the state after the shear has
   been integrated and rotated. *)
Definition zero_limit_gated : Contact * Z :=
  pair_gates cfm_style 1 1 2 0 (geometry (two_atoms 2 0) 0 1)
             normal_shear_contact.

Definition zero_limit_kin : Kin :=
  kinematics cfm_style (two_atoms 2 0) 0 1 (geometry (two_atoms 2 0) 0 1)
             (_D zero_limit_gated.1).

Definition zero_limit_integrated : Contact :=
  integrate_shear cfm_style 0 zero_limit_kin zero_limit_gated.1.

Definition zero_limit_rotated : Contact :=
  rotate_shear 0 (geometry (two_atoms 2 0) 0 1) zero_limit_kin
               zero_limit_integrated.

(* What force->numeric and force->inumeric give the words used below. *)
Definition word_value (w : string) : option float :=
  if String.eqb w "1000" then Some 1000
  else if String.eqb w "250" then Some 250
  else if String.eqb w "0" then Some 0
  else if String.eqb w "0.5" then Some 0.5
  else if String.eqb w "1" then Some 1
  else if String.eqb w "1.25" then Some 1.25
  else if String.eqb w "-1" then Some (-1)
  else None.

Definition word_int (w : string) : option Z :=
  if String.eqb w "0" then Some 0%Z
  else if String.eqb w "1" then Some 1%Z
  else None.

(* --------------------------------------------------------------------- *)
(* What one pair evaluation may write                                     *)
(* --------------------------------------------------------------------- *)

(* l' has the length of l and differs from it at most at the indices of S *)
Definition agree_outside {A : Type} (S : nat -> Prop) (l l' : list A)
  : Prop :=
  length l' = length l /\ forall n : nat, ~ S n -> l' !! n = l !! n.

(* _history[0], [1], [2], [5] and [6] of slot jj, as compute addresses
   them: the cells 3*jj, 3*jj+1, 3*jj+2, 3*jj+5 and 3*jj+6 of allshear *)
Definition slot_cells (jj n : nat) : Prop :=
  n = hist_ix jj 0 \/ n = hist_ix jj 1 \/ n = hist_ix jj 2
  \/ n = hist_ix jj 5 \/ n = hist_ix jj 6.

(* c' differs from c at most in the cells of slot jj of allshear, in
   touch[jj] and in the rows of f and torque selected by Sf (the tables
   and the members _D and _maxShearForce are not constrained) *)
Definition footprint (Sf : nat -> Prop) (jj : nat) (c c' : Contact) : Prop :=
  agree_outside (slot_cells jj) (allshear c) (allshear c')
  /\ agree_outside (fun n => n = jj) (touch c) (touch c')
  /\ agree_outside Sf (atom_f c) (atom_f c')
  /\ agree_outside Sf (atom_torque c) (atom_torque c').

(* The atoms a call of compute visits: the atoms i = ilist[ii], ii < inum,
   and their neighbours jlist[jj] & NEIGHMASK, jj < numneigh[i]. *)
Definition listed (NL : NeighList) (n : nat) : Prop :=
  exists ii : nat, (ii < inum NL)%nat /\ n = ilist NL !!! ii.

Definition visited (A : Atom) (NL : NeighList) (n : nat) : Prop :=
  exists ii : nat,
    (ii < inum NL)%nat
    /\ (n = ilist NL !!! ii
        \/ exists jj : nat,
             (jj < numneigh NL !!! (ilist NL !!! ii))%nat
             /\ n = neighbor_index A (firstneigh NL !!! (ilist NL !!! ii)) jj).

(* s' differs from s at most in the history rows of listed atoms, whose
   lengths it keeps, and in the rows of f and torque of visited atoms *)
Definition compute_footprint (A : Atom) (NL : NeighList)
    (s s' : Contact * History) : Prop :=
  agree_outside (listed NL) (firsttouch s.2) (firsttouch s'.2)
  /\ agree_outside (listed NL) (firstshear s.2) (firstshear s'.2)
  /\ (forall k : nat,
        length (firsttouch s'.2 !!! k) = length (firsttouch s.2 !!! k)
        /\ length (firstshear s'.2 !!! k) = length (firstshear s.2 !!! k))
  /\ agree_outside (visited A NL) (atom_f s.1) (atom_f s'.1)
  /\ agree_outside (visited A NL) (atom_torque s.1) (atom_torque s'.1).

(* c' has the bond geometry of c *)
Definition same_geometry (c c' : Contact) : Prop :=
  _Dinitial c' = _Dinitial c /\ _Dtensile c' = _Dtensile c.

(* --------------------------------------------------------------------- *)
(* compute, lines 109-123: the masses of rigid bodies                     *)
(* --------------------------------------------------------------------- *)

Definition set_mass_rigid (P : PairCFM) (mr : list float) : PairCFM :=
  mkPairCFM (kn P) (kt P) (gamman P) (gammat P) (xmu P) (dampflag P)
            (_t P) (_c P) (_enlargeFactor P) (dt P) (freeze_group_bit P)
            (fix_rigid P) mr.

(* lines 119-121: body[i] >= 0 ? mass_body[body[i]] : 0.0 *)
Definition body_mass (body : list Z) (mass_body : list float) (i : nat)
  : float :=
  if (0 <=? body !!! i)%Z then mass_body !!! Z.to_nat (body !!! i) else 0.

(* lines 118-121 *)
Definition refresh_mass_rigid (body : list Z) (mass_body : list float)
    (nlocal : Z) (mr : list float) : list float :=
  fold_left (fun mr i => <[i := body_mass body mass_body i]> mr)
            (seq 0 (Z.to_nat nlocal)) mr.

(* lines 109-121.  body and mass_body are what fix_rigid->extract gives;
   fresh is the array memory->create returns when atom->nmax has grown
   (its contents are not set); the forward communication of line 122 is
   pack_forward_comm and unpack_forward_comm below, run by comm.
   The result is the new nmax and the new mass_rigid. *)
Definition update_mass_rigid (P : PairCFM) (ago : Z) (body : list Z)
    (mass_body : list float) (atom_nmax nmax : Z) (fresh : list float)
    (nlocal : Z) : Z * PairCFM :=
  if fix_rigid P && (ago =? 0)%Z then
    let '(nmax', mr) :=
      if (nmax <? atom_nmax)%Z then (atom_nmax, fresh)
      else (nmax, mass_rigid P) in
    (nmax', set_mass_rigid P (refresh_mass_rigid body mass_body nlocal mr))
  else (nmax, P).

(* --------------------------------------------------------------------- *)
(* pack_forward_comm and unpack_forward_comm, lines 919-942               *)
(* --------------------------------------------------------------------- *)

(* m = 0; for (i = 0; i < n; i++) { j = list[i]; buf[m++] = mass_rigid[j]; }
   return m; the result is m and the buffer *)
Definition pack_forward_comm (mr : list float) (n : nat) (sendlist : list nat)
    (buf : list float) : nat * list float :=
  fold_left (fun '(m, buf) i =>
               let j := sendlist !!! i in
               (S m, <[m := mr !!! j]> buf))
            (seq 0 n) (0%nat, buf).

(* m = 0; last = first + n;
   for (i = first; i < last; i++) mass_rigid[i] = buf[m++]; *)
Definition unpack_forward_comm (mr : list float) (n first : nat)
    (buf : list float) : list float :=
  (fold_left (fun '(m, mr) i => (S m, <[i := buf !!! m]> mr))
             (seq first n) (0%nat, mr)).2.

(* --------------------------------------------------------------------- *)
(* PairCFM::allocate and PairCFM::coeff, lines 421-490                    *)
(* --------------------------------------------------------------------- *)

(* allocated and setflag.  memory->create hands out cells nobody has
   written: a cell is in the map once this file has stored a value in it. *)
Record TypeFlags : Type := mkTypeFlags {
  allocated : bool;
  setflag : gmap (Z * Z) Z
}.

(* for (j = lo; j <= hi; j++) t[i][j] = v, count++ *)
Definition flag_row (v : Z) (lo hi i : Z) (s : Z * gmap (Z * Z) Z)
  : Z * gmap (Z * Z) Z :=
  fold_left (fun '(count, t) j => ((count + 1)%Z, tbl_set t i j v))
            (seqZ lo (hi - lo + 1)) s.

(* lines 423-429; cutsq and the radii arrays are created, not written *)
Definition allocate (ntypes : Z) : TypeFlags :=
  mkTypeFlags true
    (fold_left (fun t i => (flag_row 0 i ntypes i (0%Z, t)).2)
               (seqZ 1 ntypes) ∅).

(* lines 481-487: count and setflag after the two loops *)
Definition coeff_loop (ilo ihi jlo jhi : Z) (t : gmap (Z * Z) Z)
  : Z * gmap (Z * Z) Z :=
  fold_left (fun s i => flag_row 1 (Z.max jlo i) jhi i s)
            (seqZ ilo (ihi - ilo + 1)) (0%Z, t).

Section Coeff.

(* force->bounds (force.cpp): the range a word stands for, or None where
   the helper itself stops the run. *)
Variable bounds : string -> Z -> option (Z * Z).

(* None is error->all.  The test of line 474 lets fewer than two words
   pass; arg[0] and arg[1] are read all the same. *)
Definition coeff (ntypes narg : Z) (arg : list string) (s : TypeFlags)
  : option TypeFlags :=
  if (2 <? narg)%Z then None else
  let s := if allocated s then s else allocate ntypes in
  '(ilo, ihi) ← bounds (arg !!! 0%nat) ntypes;
  '(jlo, jhi) ← bounds (arg !!! 1%nat) ntypes;
  let '(count, t) := coeff_loop ilo ihi jlo jhi (setflag s) in
  if (count =? 0)%Z then None else Some (mkTypeFlags (allocated s) t).

End Coeff.

(* What force->bounds gives the words used below. *)
Definition word_bounds (w : string) (n : Z) : option (Z * Z) :=
  if String.eqb w "*" then Some (1%Z, n)
  else if String.eqb w "2" then Some (2%Z, 2%Z)
  else if String.eqb w "3*" then Some (3%Z, n)
  else None.


(* --------------------------------------------------------------------- *)
(* The restart file, lines 621-692                                        *)
(* --------------------------------------------------------------------- *)

(* What one fwrite of a double or of an int puts in the file. *)
Inductive Item : Set :=
  | IDouble (d : float)
  | IInt (n : Z).

(* fread of a double or of an int at the head of the file into a member
   that holds old: the value of the member afterwards and the rest of the
   file.  At the end of the file fread reads nothing, the member keeps old
   and the source, which does not test the result of fread, goes on.
   None where the file holds an item of the other type there: the bytes
   of an item are not modelled, so neither is what such a read gives. *)
Definition fread_double (fp : list Item) (old : float)
  : option (float * list Item) :=
  match fp with
  | IDouble d :: rest => Some (d, rest)
  | [] => Some (old, [])
  | IInt _ :: _ => None
  end.

Definition fread_int (fp : list Item) (old : Z) : option (Z * list Item) :=
  match fp with
  | IInt n :: rest => Some (n, rest)
  | [] => Some (old, [])
  | IDouble _ :: _ => None
  end.

(* lines 655-663: the items appended to fp *)
Definition write_restart_settings (s : Style) (fp : list Item) : list Item :=
  fp ++ [IDouble (s_kn s)] ++ [IDouble (s_kt s)] ++ [IDouble (s_gamman s)]
     ++ [IDouble (s_gammat s)] ++ [IDouble (s_xmu s)]
     ++ [IInt (s_dampflag s)] ++ [IDouble (s_t s)] ++ [IDouble (s_c s)]
     ++ [IDouble (s_enlargeFactor s)].

(* lines 623-628 *)
Definition write_restart (ntypes : Z) (s : Style) (t : gmap (Z * Z) Z)
    (fp : list Item) : list Item :=
  fold_left (fun fp i =>
               fold_left (fun fp j => fp ++ [IInt (tbl_get 0%Z t i j)])
                         (seqZ i (ntypes - i + 1)) fp)
            (seqZ 1 ntypes) (write_restart_settings s fp).

(* lines 672-691: the members every process holds after the broadcasts,
   which are the ones process 0 holds after its reads; old holds the
   members of process 0 before them *)
Definition read_restart_settings (old : Style) (fp : list Item)
  : option (Style * list Item) :=
  '(kn, fp) ← fread_double fp (s_kn old);
  '(kt, fp) ← fread_double fp (s_kt old);
  '(gamman, fp) ← fread_double fp (s_gamman old);
  '(gammat, fp) ← fread_double fp (s_gammat old);
  '(xmu, fp) ← fread_double fp (s_xmu old);
  '(dampflag, fp) ← fread_int fp (s_dampflag old);
  '(t, fp) ← fread_double fp (s_t old);
  '(c, fp) ← fread_double fp (s_c old);
  '(enlargeFactor, fp) ← fread_double fp (s_enlargeFactor old);
  Some (mkStyle kn kt gamman gammat xmu dampflag t c enlargeFactor, fp).

(* lines 643-646 for one i: setflag[i][j] holds what allocate stored
   until fread overwrites it *)
Definition read_flag_row (ntypes i : Z)
    (acc : option (gmap (Z * Z) Z * list Item))
  : option (gmap (Z * Z) Z * list Item) :=
  fold_left (fun acc j =>
               '(t, fp) ← acc;
               '(v, fp) ← fread_int fp (tbl_get 0%Z t i j);
               Some (tbl_set t i j v, fp))
            (seqZ i (ntypes - i + 1)) acc.

(* lines 637-646 *)
Definition read_restart (ntypes : Z) (old : Style) (fp : list Item)
  : option (Style * TypeFlags * list Item) :=
  '(s, fp) ← read_restart_settings old fp;
  let T := allocate ntypes in
  '(t, fp) ← fold_left (fun acc i => read_flag_row ntypes i acc)
                       (seqZ 1 ntypes) (Some (setflag T, fp));
  Some (s, mkTypeFlags (allocated T) t, fp).

(* the flags of row i, columns lo..hi, in the order written *)
Definition row_items (t : gmap (Z * Z) Z) (i lo : Z) (n : nat) : list Item :=
  (fun j => IInt (tbl_get 0%Z t i j)) <$> seqZ lo (Z.of_nat n).

(* --------------------------------------------------------------------- *)
(* PairCFM::init_style and PairCFM::init_one, lines 496-615               *)
(* --------------------------------------------------------------------- *)

(* pointers.h: #define MAX(A,B) ((A) > (B) ? (A) : (B)) *)
Definition MAX (a b : float) : float := if b <? a then a else b.

(* What init_style reads of a fix: its style, groupbit and rigid_flag, and
   the double its extract("radius",itype) points to. *)
Record Fix : Set := mkFix {
  fix_style : string;
  groupbit : Z;
  rigid_flag : Z;
  extract_radius : Z -> float
}.

Definition has_style (w : string) (f : Fix) : bool :=
  String.eqb (fix_style f) w.

Definition is_rigid (f : Fix) : bool := negb (rigid_flag f =? 0)%Z.

(* onerad_dynamic, onerad_frozen, maxrad_dynamic, maxrad_frozen: arrays of
   ntypes+1 doubles that allocate creates and does not write *)
Record Radii : Set := mkRadii {
  onerad_dynamic : list float;
  onerad_frozen : list float;
  maxrad_dynamic : list float;
  maxrad_frozen : list float
}.

(* lines 547-573.  The loops of lines 548 and 553 stop at the first fix of
   style pour and deposit; ipour >= 0 and idep >= 0 say that one was
   found. *)
Definition type_radii (fixes : list Fix) (ntypes : Z)
    (R : list float * list float) : list float * list float :=
  fold_left (fun '(dyn, frz) i =>
               let frz := <[i := 0]> frz in
               let dyn := <[i := 0]> dyn in
               let dyn := match find (has_style "pour") fixes with
                          | Some f => <[i := extract_radius f (Z.of_nat i)]> dyn
                          | None => dyn
                          end in
               let dyn := match find (has_style "deposit") fixes with
                          | Some f => <[i := extract_radius f (Z.of_nat i)]> dyn
                          | None => dyn
                          end in
               (dyn, frz))
            (seq 1 (Z.to_nat ntypes)) R.

(* lines 580-584 *)
Definition atom_radii (P : PairCFM) (A : Atom) (type : list Z)
    (R : list float * list float) : list float * list float :=
  fold_left (fun '(dyn, frz) i =>
               let ty := Z.to_nat (type !!! i) in
               if frozen P A i
               then (dyn, <[ty := MAX (frz !!! ty) (atom_radius A !!! i)]> frz)
               else (<[ty := MAX (dyn !!! ty) (atom_radius A !!! i)]> dyn, frz))
            (seq 0 (Z.to_nat (nlocal A))) R.

(* lines 586-589 in a run on one process: the maximum over the processes
   of onerad[1..ntypes] is onerad[1..ntypes] *)
Definition allreduce_max (ntypes : Z) (onerad maxrad : list float)
  : list float :=
  fold_left (fun m i => <[i := onerad !!! i]> m)
            (seq 1 (Z.to_nat ntypes)) maxrad.

(* init_style, with fixes the list modify->fix as the searches of lines
   533-555 see it.  None is error->all.  The request to the neighbour
   lists and the creation and lookup of the history fix (lines 509-529 and
   593-597) belong to collaborators. *)
Definition init_style (radius_flag rmass_flag ghost_velocity : Z)
    (update_dt : float) (fixes : list Fix) (ntypes : Z) (type : list Z)
    (A : Atom) (s : Style) (mr : list float) (R : Radii)
  : option (PairCFM * Radii) :=
  if (radius_flag =? 0)%Z || (rmass_flag =? 0)%Z then None else
  if (ghost_velocity =? 0)%Z then None else
  let freeze := match find (has_style "freeze") fixes with
                | Some f => groupbit f
                | None => 0%Z
                end in
  let rigid := match find is_rigid fixes with
               | Some _ => true
               | None => false
               end in
  let P := configure s update_dt freeze rigid mr in
  let '(dyn, frz) :=
    atom_radii P A type
      (type_radii fixes ntypes (onerad_dynamic R, onerad_frozen R)) in
  Some (P, mkRadii dyn frz
                   (allreduce_max ntypes dyn (maxrad_dynamic R))
                   (allreduce_max ntypes frz (maxrad_frozen R))).

(* init_one for allocated arrays: the cutoff of the type pair i, j *)
Definition init_one (R : Radii) (i j : nat) : float :=
  let cutoff := maxrad_dynamic R !!! i + maxrad_dynamic R !!! j in
  let cutoff := MAX cutoff (maxrad_frozen R !!! i + maxrad_dynamic R !!! j) in
  let cutoff := MAX cutoff (maxrad_dynamic R !!! i + maxrad_frozen R !!! j) in
  cutoff.

(* The entries 1, 2, ... of l are no NaN. *)
Definition no_nan (l : list float) : Prop :=
  forall k : nat, (1 <= k < length l)%nat -> is_nan (l !!! k) = false.

(* l' has the length of l and its entries 1, 2, ... are not below those
   of l. *)
Definition raised (l l' : list float) : Prop :=
  length l' = length l
  /\ forall k : nat, (1 <= k < length l)%nat -> (l !!! k <=? l' !!! k) = true.

(* What lines 562-572 leave in onerad_dynamic[i]: the radius of the
   deposit fix if there is one, else that of the pour fix, else 0.0 *)
Definition type_radius (fixes : list Fix) (i : nat) : float :=
  match find (has_style "deposit") fixes with
  | Some f => extract_radius f (Z.of_nat i)
  | None => match find (has_style "pour") fixes with
            | Some f => extract_radius f (Z.of_nat i)
            | None => 0
            end
  end.

(* A frozen wall atom of radius 2 and a free atom of radius 1, both of
   type 1, with a freeze fix on group bit 2 and a deposit fix of radius
   0.5. *)
Definition wall_atoms : Atom :=
  mkAtom [V3 0 0 0; V3 3 0 0] [V3 0 0 0; V3 0 0 0] [V3 0 0 0; V3 0 0 0]
         [2; 1] [1; 1] [3%Z; 1%Z] [1%Z; 2%Z] 2 1 0x3FFFFFFF.

Definition wall_fixes : list Fix :=
  [mkFix "nve/sphere" 1 0 (fun _ => 0);
   mkFix "freeze" 2 0 (fun _ => 0);
   mkFix "deposit" 1 0 (fun _ => 0.5)].

Definition wall_style : Style := mkStyle 1000 250 0 0 0.5 0 1 1 1.25.

Definition wall_init : option (PairCFM * Radii) :=
  init_style 1 1 1 0x1p-10 wall_fixes 1 [1%Z; 1%Z] wall_atoms wall_style []
             (mkRadii [7; 7] [7; 7] [7; 7] [7; 7]).

(* --------------------------------------------------------------------- *)
(* The cells of the bond tables                                           *)
(* --------------------------------------------------------------------- *)

(* t' holds a value wherever t does, and differs from t at most in cells
   [a][b] with a and b in S *)
Definition table_writes {V : Type} (S : Z -> Prop) (t t' : gmap (Z * Z) V)
  : Prop :=
  (forall a b : Z, ~ (S a /\ S b) -> t' !! (a, b) = t !! (a, b))
  /\ forall a b : Z, is_Some (t !! (a, b)) -> is_Some (t' !! (a, b)).

Definition tables_writes (S : Z -> Prop) (c c' : Contact) : Prop :=
  table_writes S (is_cohesive c) (is_cohesive c')
  /\ table_writes S (_Dinitial c) (_Dinitial c')
  /\ table_writes S (_Dtensile c) (_Dtensile c').

(* ID1-1 and ID2-1 *)
Definition pair_rows (ID1 ID2 a : Z) : Prop := a = (ID1 - 1)%Z \/ a = (ID2 - 1)%Z.

(* tag[n]-1 for the atoms n a call of compute visits *)
Definition visited_rows (A : Atom) (NL : NeighList) (a : Z) : Prop :=
  exists n : nat, visited A NL n /\ a = (atom_tag A !!! n - 1)%Z.

(* One owned atom of tag 1 and a ghost atom of tag 2, 1.5 apart: the
   neighbour list holds the owned atom, with the ghost as its neighbour. *)
Definition ghost_atoms : Atom :=
  mkAtom [V3 0 0 0; V3 1.5 0 0] [V3 0 0 0; V3 0 0 0] [V3 0 0 0; V3 0 0 0]
         [1; 1] [1; 1] [1%Z; 1%Z] [1%Z; 2%Z] 1 1 0x3FFFFFFF.

Definition ghost_list : NeighList :=
  mkNeighList 1 [0]%nat [1]%nat [[1%Z]].

Definition ghost_start : Contact * History :=
  (fresh_contact, mkHistory [[0%Z]] [replicate 7 0]).

(* The cells [a][b] and [b][a] of the three tables hold a value. *)
Definition stored (a b : Z) (c : Contact) : Prop :=
  is_Some (is_cohesive c !! (a, b)) /\ is_Some (is_cohesive c !! (b, a))
  /\ is_Some (_Dinitial c !! (a, b)) /\ is_Some (_Dinitial c !! (b, a))
  /\ is_Some (_Dtensile c !! (a, b)) /\ is_Some (_Dtensile c !! (b, a)).

(* ===================================================================== *)
(* Facts about binary64 comparisons and subtraction                       *)
(* ===================================================================== *)

Section FloatFacts.

Lemma SFcompare_swap (a b : spec_float) :
  SFcompare b a = CompOpp <$> SFcompare a b.
Proof.
  destruct a as [sa|sa| |sa ma ea], b as [sb|sb| |sb mb eb]; simpl;
    try destruct sa; try destruct sb; try reflexivity.
  - rewrite (Z.compare_antisym ea eb).
    destruct (ea ?= eb)%Z; simpl; try reflexivity.
    rewrite (Pos.compare_cont_antisym ma mb Eq). reflexivity.
  - rewrite (Z.compare_antisym ea eb).
    destruct (ea ?= eb)%Z; simpl; try reflexivity.
    rewrite (Pos.compare_cont_antisym ma mb Eq). simpl.
    destruct (Pos.compare_cont Eq ma mb); reflexivity.
Qed.

(* a == b implies a <= b *)
Lemma float_eqb_leb (a b : float) : (a =? b) = true -> (a <=? b) = true.
Proof.
  rewrite FloatAxioms.eqb_spec, FloatAxioms.leb_spec. unfold SFeqb, SFleb.
  destruct (SFcompare _ _) as [[]|]; done.
Qed.

(* a < b implies that b <= a fails *)
Lemma float_ltb_not_geb (a b : float) : (a <? b) = true -> (b <=? a) = false.
Proof.
  rewrite FloatAxioms.ltb_spec, FloatAxioms.leb_spec. unfold SFltb, SFleb.
  rewrite (SFcompare_swap (Prim2SF a) (Prim2SF b)).
  destruct (SFcompare (Prim2SF a) (Prim2SF b)) as [[]|]; done.
Qed.

Lemma SFcompare_None (a b : spec_float) :
  SFcompare a b = None -> a = S754_nan \/ b = S754_nan.
Proof.
  destruct a as [sa|sa| |sa ma ea], b as [sb|sb| |sb mb eb]; simpl;
    try destruct sa; try destruct sb; intros; auto; discriminate.
Qed.

Lemma SFcompare_refl (a : spec_float) :
  a <> S754_nan -> SFcompare a a = Some Eq.
Proof.
  destruct a as [sa|sa| |sa ma ea]; simpl; try destruct sa; try done.
  - intros _. rewrite Z.compare_refl, Pos.compare_cont_refl. reflexivity.
  - intros _. rewrite Z.compare_refl, Pos.compare_cont_refl. reflexivity.
Qed.

Lemma is_nan_spec (a : float) : is_nan a = true <-> Prim2SF a = S754_nan.
Proof.
  unfold is_nan. rewrite FloatAxioms.eqb_spec. unfold SFeqb. split.
  - intros H. destruct (Prim2SF a) eqn:E; try reflexivity;
      rewrite SFcompare_refl in H by discriminate; discriminate.
  - intros ->. reflexivity.
Qed.

(* 0 < a <= b leaves b nonzero *)
Lemma float_pos_le_nonzero (a b : float) :
  (0 <? a) = true -> (a <=? b) = true -> (b =? 0) = false.
Proof.
  rewrite FloatAxioms.ltb_spec, FloatAxioms.leb_spec, FloatAxioms.eqb_spec. unfold SFltb, SFleb, SFeqb.
  change (Prim2SF 0) with (S754_zero false).
  destruct (Prim2SF a) as [sa|sa| |sa ma ea], (Prim2SF b) as [sb|sb| |sb mb eb];
    simpl; try destruct sa; try destruct sb; simpl; congruence.
Qed.

(* a - a is never below zero (it is +0, or a NaN) *)
Lemma float_sub_self_not_neg (a : float) : (a - a <? 0) = false.
Proof.
  rewrite FloatAxioms.ltb_spec, FloatAxioms.sub_spec.
  change (Prim2SF 0) with (S754_zero false). unfold SF64sub.
  destruct (Prim2SF a) as [sa|sa| |sa ma ea]; try destruct sa;
    try reflexivity; cbn [SFsub]; rewrite Z.sub_diag; reflexivity.
Qed.

(* a - b is a + (-b), bit for bit *)
Lemma float_sub_add_opp (a b : float) : a - b = a + - b.
Proof.
  apply Prim2SF_inj. rewrite FloatAxioms.sub_spec, FloatAxioms.add_spec, FloatAxioms.opp_spec.
  unfold SF64sub, SF64add.
  destruct (Prim2SF a) as [sa|sa| |sa ma ea], (Prim2SF b) as [sb|sb| |sb mb eb];
    simpl; try destruct sa; try destruct sb; try reflexivity.
Qed.

(* "a < b" fails exactly when b <= a or one of the two is a NaN *)
Lemma float_not_ltb (a b : float) :
  (a <? b) = false <-> (b <=? a) = true \/ is_nan a = true \/ is_nan b = true.
Proof.
  rewrite !is_nan_spec, FloatAxioms.ltb_spec, FloatAxioms.leb_spec.
  unfold SFltb, SFleb.
  rewrite (SFcompare_swap (Prim2SF a) (Prim2SF b)).
  destruct (SFcompare (Prim2SF a) (Prim2SF b)) as [[]|] eqn:E; simpl.
  - split; auto.
  - split; [done|]. intros [?|[H|H]]; [done| |]; rewrite H in E;
      [|destruct (Prim2SF a)]; discriminate.
  - split; auto.
  - split; [|done]. intros _. right. by apply SFcompare_None.
Qed.

End FloatFacts.

(* ===================================================================== *)
(* Tables, history slots and the fields each setter leaves alone          *)
(* ===================================================================== *)

Section Frames.

Context {V : Type}.
Implicit Types (t : gmap (Z * Z) V) (d v : V) (a b : Z).

Lemma tbl_get_set_eq t d a b v : tbl_get d (tbl_set t a b v) a b = v.
Proof. unfold tbl_get, tbl_set. by rewrite lookup_insert_eq. Qed.

Lemma tbl_get_set_ne t d a b a' b' v :
  (a, b) ≠ (a', b') -> tbl_get d (tbl_set t a b v) a' b' = tbl_get d t a' b'.
Proof. intros H. unfold tbl_get, tbl_set. by rewrite lookup_insert_ne. Qed.

Lemma tbl_get_set t d a b a' b' v :
  tbl_get d (tbl_set t a b v) a' b'
  = if decide ((a, b) = (a', b')) then v else tbl_get d t a' b'.
Proof.
  case_decide as H.
  - injection H as <- <-. apply tbl_get_set_eq.
  - by apply tbl_get_set_ne.
Qed.

(* Writing v at [a][b] and at [b][a], in either order, reads v at both. *)
Lemma tbl_get_set2_l t d a b v :
  tbl_get d (tbl_set (tbl_set t a b v) b a v) a b = v.
Proof. rewrite tbl_get_set. case_decide; [done|apply tbl_get_set_eq]. Qed.

Lemma tbl_get_set2_r t d a b v :
  tbl_get d (tbl_set (tbl_set t a b v) b a v) b a = v.
Proof. apply tbl_get_set_eq. Qed.

End Frames.

#[global] Arguments tbl_get : simpl never.
#[global] Arguments tbl_set : simpl never.

(* ===================================================================== *)
(* History slots                                                          *)
(* ===================================================================== *)

Lemma history_set_eq c jj k v :
  (hist_ix jj k < length (allshear c))%nat ->
  history (set_history c jj k v) jj k = v.
Proof. intros H. unfold history. simpl. by apply list_lookup_total_insert_eq. Qed.

Lemma history_set_ne c jj k jj' k' v :
  hist_ix jj k <> hist_ix jj' k' ->
  history (set_history c jj k v) jj' k' = history c jj' k'.
Proof. intros H. unfold history. simpl. by apply list_lookup_total_insert_ne. Qed.

Lemma allshear_set_history_length c jj k v :
  length (allshear (set_history c jj k v)) = length (allshear c).
Proof. simpl. apply length_insert. Qed.

Lemma history_set_touch c jj v jj' k :
  history (set_touch c jj v) jj' k = history c jj' k.
Proof. reflexivity. Qed.

Lemma zero_shear_length c jj :
  length (allshear (zero_shear c jj)) = length (allshear c).
Proof. unfold zero_shear. by rewrite !allshear_set_history_length. Qed.

Lemma zero_shear_zero c jj k :
  (k < 3)%nat -> (hist_ix jj 2 < length (allshear c))%nat ->
  history (zero_shear c jj) jj k = 0.
Proof.
  intros Hk Hlen. unfold zero_shear.
  assert (Hix : forall n, (n <= 2)%nat ->
            (hist_ix jj n < length (allshear c))%nat)
    by (unfold hist_ix in *; lia).
  destruct k as [|[|[|k]]]; [| | |lia].
  - rewrite !history_set_ne by (unfold hist_ix; lia).
    apply history_set_eq. apply Hix. lia.
  - rewrite history_set_ne by (unfold hist_ix; lia).
    apply history_set_eq. rewrite allshear_set_history_length. apply Hix. lia.
  - apply history_set_eq. rewrite !allshear_set_history_length. by apply Hix.
Qed.

Lemma zero_shear_other c jj jj' k :
  (forall n, (n < 3)%nat -> hist_ix jj n <> hist_ix jj' k) ->
  history (zero_shear c jj) jj' k = history c jj' k.
Proof.
  intros H. unfold zero_shear. rewrite !history_set_ne; [done|apply H; lia..].
Qed.

(* ===================================================================== *)
(* How compute writes is_cohesive                                         *)
(* ===================================================================== *)

Lemma bond_writes_trans nt t1 t2 t3 :
  bond_writes nt t1 t2 -> bond_writes nt t2 t3 -> bond_writes nt t1 t3.
Proof.
  intros H12 H23. induction H23 as [|t t' a b _ IH|t t' a b Hnt _ IH].
  - exact H12.
  - apply bw_clear. by apply IH.
  - apply bw_form; [done|]. by apply IH.
Qed.

Lemma bw_clear1 nt t a b : bond_writes nt t (set_both t a b false).
Proof. apply bw_clear, bw_refl. Qed.

Lemma form_bond_writes P nt ID1 ID2 jj g c ig :
  bond_writes nt (is_cohesive c)
              (is_cohesive (form_bond P nt ID1 ID2 jj g c ig).1).
Proof.
  unfold form_bond. destruct (nt <? 1)%Z eqn:Hnt; [|apply bw_refl].
  apply Z.ltb_lt in Hnt. destruct (in_bond_range P g); simpl.
  - apply (bw_form nt _ _ (ID1 - 1)%Z (ID2 - 1)%Z Hnt), bw_refl.
  - apply (bw_clear nt _ _ (ID1 - 1)%Z (ID2 - 1)%Z), bw_refl.
Qed.

Lemma unset_nontouching_tables ID1 ID2 jj g c ig :
  is_cohesive (unset_nontouching ID1 ID2 jj g c ig).1 = is_cohesive c.
Proof. unfold unset_nontouching. by destruct (_ && _). Qed.

Lemma stretch_check_writes nt ID1 ID2 jj g c ig :
  bond_writes nt (is_cohesive c)
              (is_cohesive (stretch_check ID1 ID2 jj g c ig).1).
Proof.
  unfold stretch_check.
  destruct (_D _ <? 0); [|apply bw_refl].
  destruct (negb _); simpl; (destruct (_ && _); simpl;
    [apply (bw_clear1 nt _ (ID1 - 1)%Z (ID2 - 1)%Z) | apply bw_refl]).
Qed.

Lemma shear_failure_writes nt ID1 ID2 jj g c fsv :
  bond_writes nt (is_cohesive c)
              (is_cohesive (shear_failure ID1 ID2 jj g c fsv).1).
Proof.
  unfold shear_failure. destruct (cohesive c ID1 ID2); [|apply bw_refl].
  destruct (_ <? _); simpl; apply (bw_clear1 nt _ (ID1 - 1)%Z (ID2 - 1)%Z).
Qed.

Lemma scale_shear_tables P jj k fn fs c fsv :
  is_cohesive (scale_shear P jj k fn fs c fsv).1 = is_cohesive c.
Proof. reflexivity. Qed.

Lemma rescale_writes nt P ID1 ID2 jj g k shrmag fn fs c fsv :
  bond_writes nt (is_cohesive c)
    (is_cohesive (rescale P ID1 ID2 jj g k shrmag fn fs c fsv).1).
Proof.
  unfold rescale. destruct (fn <=? fs); [|apply bw_refl].
  destruct (negb _).
  - pose proof (scale_shear_tables P jj k fn fs c fsv) as Ht.
    destruct (scale_shear P jj k fn fs c fsv) as [ca fsa].
    simpl in Ht. rewrite <- Ht. apply shear_failure_writes.
  - apply shear_failure_writes.
Qed.

Lemma force_limit_tables P ID1 ID2 g k c :
  is_cohesive (force_limit P ID1 ID2 g k c).1 = is_cohesive c.
Proof. unfold force_limit. by destruct (cohesive c ID1 ID2). Qed.

Lemma contact_law_writes nt P A i j ID1 ID2 jj g c :
  bond_writes nt (is_cohesive c)
              (is_cohesive (contact_law P A i j ID1 ID2 jj g c).1).
Proof.
  unfold contact_law.
  destruct (force_limit _ _ _ _ _ _) as [ca fn] eqn:E.
  pose proof (force_limit_tables P ID1 ID2 g (kinematics P A i j g (_D c))
    (rotate_shear jj g (kinematics P A i j g (_D c))
       (integrate_shear P jj (kinematics P A i j g (_D c)) c))) as Ht.
  rewrite E in Ht. cbn [fst] in Ht.
  change (is_cohesive c) with
    (is_cohesive (rotate_shear jj g (kinematics P A i j g (_D c))
       (integrate_shear P jj (kinematics P A i j g (_D c)) c))).
  rewrite <- Ht. apply rescale_writes.
Qed.

Lemma apply_forces_tables A i j g k fsv c :
  is_cohesive (apply_forces A i j g k fsv c) = is_cohesive c.
Proof. unfold apply_forces. by destruct (owns_j A j). Qed.

Lemma force_eval_writes nt P A i j ID1 ID2 jj g c :
  bond_writes nt (is_cohesive c)
              (is_cohesive (force_eval P A i j ID1 ID2 jj g c)).
Proof.
  unfold force_eval.
  pose proof (contact_law_writes nt P A i j ID1 ID2 jj g c) as H.
  destruct (contact_law _ _ _ _ _ _ _ _ _) as [ca fsv].
  by rewrite apply_forces_tables.
Qed.

Lemma pair_gates_writes nt P ID1 ID2 jj g c :
  bond_writes nt (is_cohesive c)
              (is_cohesive (pair_gates P nt ID1 ID2 jj g c).1).
Proof.
  unfold pair_gates.
  pose proof (form_bond_writes P nt ID1 ID2 jj g c 1) as H1.
  destruct (form_bond _ _ _ _ _ _ _ _) as [c1 ig1].
  pose proof (unset_nontouching_tables ID1 ID2 jj g c1 ig1) as H2.
  destruct (unset_nontouching _ _ _ _ _ _) as [c2 ig2].
  simpl in *. rewrite <- H2 in H1.
  eapply bond_writes_trans; [exact H1|apply stretch_check_writes].
Qed.

Lemma pair_eval_writes nt P A i j jj c :
  bond_writes nt (is_cohesive c) (is_cohesive (pair_eval P A nt i j jj c)).
Proof.
  unfold pair_eval.
  pose proof (pair_gates_writes nt P (atom_tag A !!! i) (atom_tag A !!! j)
                jj (geometry A i j) c) as H.
  destruct (pair_gates _ _ _ _ _ _ _) as [ca ig]. simpl in H.
  destruct (negb _); [|done].
  eapply bond_writes_trans; [exact H|apply force_eval_writes].
Qed.

Lemma neighbor_loop_writes nt P A NL i c :
  bond_writes nt (is_cohesive c)
              (is_cohesive (neighbor_loop P A nt NL i c)).
Proof.
  unfold neighbor_loop. generalize (seq 0 (numneigh NL !!! i)) as js.
  intros js. revert c. induction js as [|jj js IH]; intros c; simpl.
  - apply bw_refl.
  - eapply bond_writes_trans; [|apply IH]. apply pair_eval_writes.
Qed.

Lemma atom_body_writes nt P A NL s ii :
  bond_writes nt (is_cohesive s.1)
              (is_cohesive (atom_body P A nt NL s ii).1).
Proof.
  unfold atom_body. simpl.
  apply (neighbor_loop_writes nt P A NL (ilist NL !!! ii)
           (load_history s.2 (ilist NL !!! ii) s.1)).
Qed.

Lemma atom_loop_writes nt P A NL iis s :
  bond_writes nt (is_cohesive s.1)
              (is_cohesive (fold_left (atom_body P A nt NL) iis s).1).
Proof.
  revert s. induction iis as [|ii iis IH]; intros s; simpl.
  - apply bw_refl.
  - eapply bond_writes_trans; [|apply IH]. apply atom_body_writes.
Qed.

(* After the first step compute only clears entries, in both directions. *)
Lemma compute_writes nt P A NL s :
  bond_writes nt (is_cohesive (create_tables nt NL s.1))
              (is_cohesive (compute P A nt NL s).1).
Proof.
  unfold compute.
  apply (atom_loop_writes nt P A NL (seq 0 (inum NL))
           (create_tables nt NL s.1, s.2)).
Qed.

Lemma set_both_symmetric t a b v : symmetric t -> symmetric (set_both t a b v).
Proof.
  intros Ht x y. unfold set_both. rewrite !tbl_get_set.
  repeat case_decide; simplify_eq; auto.
Qed.

Lemma bond_writes_symmetric nt t t' :
  bond_writes nt t t' -> symmetric t -> symmetric t'.
Proof.
  induction 1 as [|t t' a b _ IH|t t' a b _ _ IH]; intros Ht; auto;
    by apply set_both_symmetric, IH.
Qed.

(* A freshly created table holds nothing but the fill value. *)
Lemma fill_table_values {V : Type} (n : nat) (v : V) (k : Z * Z) (x : V) :
  fill_table n v !! k = Some x -> x = v.
Proof.
  unfold fill_table.
  assert (Hrow : forall (js : list nat) (i : nat) (m : gmap (Z * Z) V),
    (forall k x, m !! k = Some x -> x = v) ->
    forall k x, fold_left (fun m j => tbl_set m (Z.of_nat i) (Z.of_nat j) v)
                          js m !! k = Some x -> x = v).
  { induction js as [|j js IH]; intros i m Hm k' x'; simpl; [apply Hm|].
    apply IH. intros k'' x''. unfold tbl_set. rewrite lookup_insert.
    case_decide; [congruence|apply Hm]. }
  assert (Hall : forall (rows : list nat) (m : gmap (Z * Z) V),
    (forall k x, m !! k = Some x -> x = v) ->
    forall k x, fold_left (fill_row n v) rows m !! k = Some x -> x = v).
  { induction rows as [|i rows IH]; intros m Hm k' x'; simpl; [apply Hm|].
    apply IH. unfold fill_row. by apply Hrow. }
  apply Hall. intros k' x'. by rewrite lookup_empty.
Qed.

Lemma fill_table_false_get (n : nat) (a b : Z) :
  tbl_get false (fill_table n false) a b = false.
Proof.
  unfold tbl_get. destruct (fill_table n false !! (a, b)) as [x|] eqn:E;
    [|done]. simpl. by apply fill_table_values in E.
Qed.

Lemma create_tables_symmetric (NL : NeighList) (c : Contact) :
  symmetric (is_cohesive (create_tables 0 NL c)).
Proof. intros a b. simpl. by rewrite !fill_table_false_get. Qed.

Lemma symmetric_empty : symmetric ∅.
Proof. intros a b. unfold tbl_get. by rewrite !lookup_empty. Qed.

Lemma bond_writes_cleared nt t t' a b :
  (1 <= nt)%Z -> bond_writes nt t t' ->
  tbl_get false t a b = false -> tbl_get false t' a b = false.
Proof.
  intros Hnt H. induction H as [|t t' x y _ IH|t t' x y Hlt _ _];
    intros Ht; [done| |lia].
  unfold set_both. rewrite !tbl_get_set. repeat case_decide; auto.
Qed.

Lemma later_cleared c c' a b :
  later c c' ->
  tbl_get false (is_cohesive c) a b = false ->
  tbl_get false (is_cohesive c') a b = false.
Proof.
  induction 1 as [|c' P A nt i j jj _ IH Hnt|c' h P A nt NL _ IH Hnt
                 |c' c'' _ IH Heq]; intros Hc.
  - done.
  - eapply (bond_writes_cleared nt); [done|apply pair_eval_writes|auto].
  - eapply (bond_writes_cleared nt); [done|apply compute_writes|].
    unfold create_tables. cbn [fst].
    destruct (nt =? 0)%Z eqn:E; [apply Z.eqb_eq in E; lia|auto].
  - rewrite Heq. auto.
Qed.

(* ===================================================================== *)
(* Forces and torques: what the steps before line 384 leave alone         *)
(* ===================================================================== *)

Lemma form_bond_allshear P nt ID1 ID2 jj g c ig :
  allshear (form_bond P nt ID1 ID2 jj g c ig).1 = allshear c
  /\ atom_f (form_bond P nt ID1 ID2 jj g c ig).1 = atom_f c
  /\ atom_torque (form_bond P nt ID1 ID2 jj g c ig).1 = atom_torque c
  /\ length (touch (form_bond P nt ID1 ID2 jj g c ig).1) = length (touch c).
Proof.
  unfold form_bond. destruct (nt <? 1)%Z; [|done].
  destruct (in_bond_range P g); simpl; by rewrite ?length_insert.
Qed.

Lemma same_forces_trans c1 c2 c3 :
  same_forces c1 c2 -> same_forces c2 c3 -> same_forces c1 c3.
Proof. intros [? ?] [? ?]. split; congruence. Qed.

Lemma unset_nontouching_forces ID1 ID2 jj g c ig :
  same_forces c (unset_nontouching ID1 ID2 jj g c ig).1.
Proof. unfold unset_nontouching. by destruct (_ && _). Qed.

Lemma stretch_check_forces ID1 ID2 jj g c ig :
  same_forces c (stretch_check ID1 ID2 jj g c ig).1.
Proof.
  unfold stretch_check. destruct (_D _ <? 0); [|done].
  destruct (negb _); simpl; by destruct (_ && _).
Qed.

Lemma pair_gates_forces P nt ID1 ID2 jj g c :
  same_forces c (pair_gates P nt ID1 ID2 jj g c).1.
Proof.
  unfold pair_gates.
  destruct (form_bond_allshear P nt ID1 ID2 jj g c 1) as (_ & Hf & Ht & _).
  destruct (form_bond _ _ _ _ _ _ _ _) as [c1 ig1].
  pose proof (unset_nontouching_forces ID1 ID2 jj g c1 ig1) as H2.
  destruct (unset_nontouching _ _ _ _ _ _) as [c2 ig2].
  eapply same_forces_trans; [|apply stretch_check_forces].
  eapply same_forces_trans; [|exact H2]. by split.
Qed.

Lemma shear_failure_forces ID1 ID2 jj g c fsv :
  same_forces c (shear_failure ID1 ID2 jj g c fsv).1.
Proof.
  unfold shear_failure. destruct (cohesive c ID1 ID2); [|done].
  by destruct (_ <? _).
Qed.

Lemma rescale_forces P ID1 ID2 jj g k shrmag fn fs c fsv :
  same_forces c (rescale P ID1 ID2 jj g k shrmag fn fs c fsv).1.
Proof.
  unfold rescale. destruct (fn <=? fs); [|done].
  destruct (negb _).
  - assert (Hs : same_forces c (scale_shear P jj k fn fs c fsv).1) by done.
    destruct (scale_shear P jj k fn fs c fsv) as [ca fsa].
    eapply same_forces_trans; [exact Hs|apply shear_failure_forces].
  - apply shear_failure_forces.
Qed.

Lemma force_limit_forces P ID1 ID2 g k c :
  same_forces c (force_limit P ID1 ID2 g k c).1.
Proof. unfold force_limit. by destruct (cohesive c ID1 ID2). Qed.

Lemma contact_law_forces P A i j ID1 ID2 jj g c :
  same_forces c (contact_law P A i j ID1 ID2 jj g c).1.
Proof.
  unfold contact_law.
  pose proof (force_limit_forces P ID1 ID2 g (kinematics P A i j g (_D c))
    (rotate_shear jj g (kinematics P A i j g (_D c))
       (integrate_shear P jj (kinematics P A i j g (_D c)) c))) as Hl.
  destruct (force_limit _ _ _ _ _ _) as [ca fn].
  eapply same_forces_trans; [|apply rescale_forces].
  eapply same_forces_trans; [|exact Hl]. done.
Qed.

(* Reads of an array after writes at known indices. *)
Ltac list_simp :=
  repeat first
    [ rewrite list_lookup_total_insert_eq by (rewrite ?length_insert; lia)
    | rewrite list_lookup_total_insert_ne by lia ].

(* lines 387-405 on two different atoms *)
Lemma apply_forces_lookup A i j g k fsv c :
  i <> j ->
  (i < length (atom_f c))%nat -> (j < length (atom_f c))%nat ->
  (i < length (atom_torque c))%nat -> (j < length (atom_torque c))%nat ->
  let F := pair_force g k fsv in
  let T := pair_tor g k fsv in
  let c' := apply_forces A i j g k fsv c in
  atom_f c' !!! i = vadd (atom_f c !!! i) (c0 F) (c1 F) (c2 F)
  /\ atom_torque c' !!! i
     = vsub (atom_torque c !!! i) (radi g * c0 T) (radi g * c1 T)
            (radi g * c2 T)
  /\ (owns_j A j = true ->
      atom_f c' !!! j = vsub (atom_f c !!! j) (c0 F) (c1 F) (c2 F)
      /\ atom_torque c' !!! j
         = vsub (atom_torque c !!! j) (radj g * c0 T) (radj g * c1 T)
                (radj g * c2 T))
  /\ (owns_j A j = false ->
      atom_f c' !!! j = atom_f c !!! j
      /\ atom_torque c' !!! j = atom_torque c !!! j).
Proof.
  intros Hij Hi Hj Hti Htj F T c'. subst c'. unfold apply_forces.
  fold F T. destruct (owns_j A j); cbn [atom_f atom_torque set_f set_torque];
    list_simp; repeat split; done.
Qed.

(* ===================================================================== *)
(* The contact law, step by step                                          *)
(* ===================================================================== *)

(* The limit fn of lines 342-349. *)
Lemma force_limit_value P ID1 ID2 g k c :
  (force_limit P ID1 ID2 g k c).2
  = if cohesive c ID1 ID2
    then xmu P * fabs (ccel k * r g) + M_PI * radmin g * _c P
    else xmu P * fabs (ccel k * r g).
Proof. unfold force_limit. by destruct (cohesive c ID1 ID2). Qed.

Lemma force_limit_allshear P ID1 ID2 g k c :
  allshear (force_limit P ID1 ID2 g k c).1 = allshear c
  /\ touch (force_limit P ID1 ID2 g k c).1 = touch c.
Proof. unfold force_limit. by destruct (cohesive c ID1 ID2). Qed.

Lemma scale_shear_history P jj k fn fs c fsv :
  (hist_ix jj 2 < length (allshear c))%nat ->
  let ca := (scale_shear P jj k fn fs c fsv).1 in
  history ca jj 0
  = (fn / fs) * (history c jj 0 + meff k * gammat P * vtr1 k / kt P)
    - meff k * gammat P * vtr1 k / kt P
  /\ history ca jj 1
     = (fn / fs) * (history c jj 1 + meff k * gammat P * vtr2 k / kt P)
       - meff k * gammat P * vtr2 k / kt P
  /\ history ca jj 2
     = (fn / fs) * (history c jj 2 + meff k * gammat P * vtr3 k / kt P)
       - meff k * gammat P * vtr3 k / kt P.
Proof.
  intros Hlen ca. subst ca. unfold scale_shear. cbn [fst].
  assert (Hix : forall n, (n <= 2)%nat ->
            (hist_ix jj n < length (allshear c))%nat)
    by (unfold hist_ix in *; lia).
  repeat split.
  - rewrite !history_set_ne by (unfold hist_ix; lia).
    rewrite history_set_eq by (apply Hix; lia). done.
  - rewrite history_set_ne by (unfold hist_ix; lia).
    rewrite history_set_eq
      by (rewrite allshear_set_history_length; apply Hix; lia).
    rewrite history_set_ne by (unfold hist_ix; lia). done.
  - rewrite history_set_eq
      by (rewrite !allshear_set_history_length; apply Hix; lia).
    rewrite !history_set_ne by (unfold hist_ix; lia). done.
Qed.

Lemma force_limit_unbonded P ID1 ID2 g k c :
  cohesive c ID1 ID2 = false ->
  force_limit P ID1 ID2 g k c = (c, xmu P * fabs (ccel k * r g)).
Proof. intros H. unfold force_limit. by rewrite H. Qed.

Lemma shear_failure_unbonded ID1 ID2 jj g c fsv :
  cohesive c ID1 ID2 = false -> shear_failure ID1 ID2 jj g c fsv = (c, fsv).
Proof. intros H. unfold shear_failure. by rewrite H. Qed.

(* The contact law of a pair that is not bonded. *)
Lemma contact_law_unbonded P A i j ID1 ID2 jj g c :
  cohesive c ID1 ID2 = false ->
  let k := kinematics P A i j g (_D c) in
  let ci := integrate_shear P jj k c in
  let shrmag := shear_magnitude jj ci in
  let cr := rotate_shear jj g k ci in
  let fsv := shear_force P jj k cr in
  let fn := xmu P * fabs (ccel k * r g) in
  let fs := norm3 fsv in
  contact_law P A i j ID1 ID2 jj g c
  = if fn <=? fs
    then if negb (shrmag =? 0) then scale_shear P jj k fn fs cr fsv
         else (cr, V3 0 0 0)
    else (cr, fsv).
Proof.
  intros Hco k ci shrmag cr fsv fn fs. unfold contact_law.
  fold k ci shrmag cr fsv fs.
  rewrite (force_limit_unbonded P ID1 ID2 g k cr Hco). fold fn.
  unfold rescale. destruct (fn <=? fs); [|done].
  destruct (negb (shrmag =? 0)).
  - destruct (scale_shear P jj k fn fs cr fsv) as [ca fsa] eqn:E.
    apply shear_failure_unbonded.
    change (cohesive ca ID1 ID2)
      with (cohesive (ca, fsa).1 ID1 ID2). by rewrite <- E.
  - by apply shear_failure_unbonded.
Qed.

(* Lines 316-380 write _history[0..2] only. *)
Lemma contact_law_counters P A i j ID1 ID2 jj g c (n : nat) :
  cohesive c ID1 ID2 = false -> (3 <= n)%nat ->
  history (contact_law P A i j ID1 ID2 jj g c).1 jj n = history c jj n.
Proof.
  intros Hco Hn. rewrite (contact_law_unbonded P A i j ID1 ID2 jj g c Hco).
  cbv zeta. destruct (_ <=? _); [destruct (negb _)|];
    unfold scale_shear, rotate_shear, integrate_shear; cbn [fst];
    rewrite !history_set_ne by (unfold hist_ix; lia); done.
Qed.

Lemma apply_forces_history A i j g k fsv c :
  allshear (apply_forces A i j g k fsv c) = allshear c
  /\ touch (apply_forces A i j g k fsv c) = touch c.
Proof. unfold apply_forces. by destruct (owns_j A j). Qed.

Lemma shear_failure_zero_force ID1 ID2 jj g c :
  (shear_failure ID1 ID2 jj g c (V3 0 0 0)).2 = V3 0 0 0.
Proof.
  unfold shear_failure. destruct (cohesive c ID1 ID2); [|done].
  by destruct (_ <? _).
Qed.

Lemma contact_law_rescale P A i j ID1 ID2 jj g c :
  let k := kinematics P A i j g (_D c) in
  let ci := integrate_shear P jj k c in
  let cr := rotate_shear jj g k ci in
  let fsv := shear_force P jj k cr in
  contact_law P A i j ID1 ID2 jj g c
  = rescale P ID1 ID2 jj g k (shear_magnitude jj ci)
            (force_limit P ID1 ID2 g k cr).2 (norm3 fsv)
            (force_limit P ID1 ID2 g k cr).1 fsv.
Proof.
  intros k ci cr fsv. unfold contact_law. fold k ci cr fsv.
  by destruct (force_limit P ID1 ID2 g k cr).
Qed.

Lemma tensile_failure_cleared ID1 ID2 jj c :
  cohesive (tensile_failure ID1 ID2 jj c) ID1 ID2 = false
  /\ cohesive (tensile_failure ID1 ID2 jj c) ID2 ID1 = false.
Proof.
  unfold tensile_failure, cohesive, set_bond, set_cohesive, set_tables.
  cbn [is_cohesive]. by rewrite tbl_get_set2_l, tbl_get_set2_r.
Qed.

(* The gate of lines 244-254 fires on a bonded pair stretched beyond its
   tensile tolerance. *)
Lemma stretch_check_tensile ID1 ID2 jj g c ig :
  cohesive c ID1 ID2 = true ->
  (stretch ID1 ID2 g c <? 0) = true ->
  (Dtensile_at c ID1 ID2 <=? fabs (stretch ID1 ID2 g c)) = true ->
  stretch_check ID1 ID2 jj g c ig
  = (tensile_failure ID1 ID2 jj (set_D c (stretch ID1 ID2 g c)), (-1)%Z).
Proof.
  intros Hco Hneg Hbeyond. unfold stretch_check.
  cbn [_D set_D]. rewrite Hneg.
  change (cohesive (set_D c (stretch ID1 ID2 g c)) ID1 ID2)
    with (cohesive c ID1 ID2).
  rewrite Hco. cbn [negb]. unfold beyond_tensile.
  change (Dtensile_at (set_D c (stretch ID1 ID2 g c)) ID1 ID2)
    with (Dtensile_at c ID1 ID2).
  cbn [_D set_D]. rewrite Hbeyond.
  change (cohesive (set_D c (stretch ID1 ID2 g c)) ID1 ID2)
    with (cohesive c ID1 ID2).
  by rewrite Hco.
Qed.

Lemma pair_gates_tensile P nt ID1 ID2 jj g c :
  let cf := (form_bond P nt ID1 ID2 jj g c 1).1 in
  cohesive cf ID1 ID2 = true ->
  (stretch ID1 ID2 g cf <? 0) = true ->
  (Dtensile_at cf ID1 ID2 <=? fabs (stretch ID1 ID2 g cf)) = true ->
  pair_gates P nt ID1 ID2 jj g c
  = (tensile_failure ID1 ID2 jj (set_D cf (stretch ID1 ID2 g cf)), (-1)%Z).
Proof.
  intros cf Hco Hneg Hbeyond. unfold pair_gates.
  destruct (form_bond P nt ID1 ID2 jj g c 1) as [ca ig] eqn:E.
  subst cf. cbn [fst] in *.
  unfold unset_nontouching. rewrite Hco. cbn [negb andb].
  by apply stretch_check_tensile.
Qed.

(* ===================================================================== *)
(* settings                                                               *)
(* ===================================================================== *)

Lemma illegal_false (s : Style) :
  illegal s = false <->
  (s_kn s <? 0) = false /\ (s_kt s <? 0) = false
  /\ (s_gamman s <? 0) = false /\ (s_gammat s <? 0) = false
  /\ (s_xmu s <? 0) = false /\ (10000 <? s_xmu s) = false
  /\ (s_dampflag s = 0 \/ s_dampflag s = 1)%Z
  /\ (s_c s <? 0) = false /\ (s_t s <? 0) = false
  /\ (s_enlargeFactor s <? 0) = false.
Proof.
  unfold illegal. rewrite !orb_false_iff, !Z.ltb_ge. split.
  - intros ((((((((((H1 & H2) & H3) & H4) & H5) & H6) & H7) & H8) & H9)
             & H10) & H11).
    repeat split; try done. lia.
  - intros (H1 & H2 & H3 & H4 & H5 & H6 & H7 & H8 & H9 & H10).
    repeat split; try done; lia.
Qed.

Lemma assign_style_fields numeric inumeric arg s :
  assign_style numeric inumeric arg = Some s ->
  numeric (arg !!! 0%nat) = Some (s_kn s)
  /\ (arg !!! 1%nat = "NULL" -> s_kt s = s_kn s * 2 / 7)
  /\ (arg !!! 1%nat <> "NULL" -> numeric (arg !!! 1%nat) = Some (s_kt s))
  /\ numeric (arg !!! 2%nat) = Some (s_gamman s)
  /\ (s_dampflag s = 0%Z -> s_gammat s = 0)
  /\ (s_dampflag s <> 0%Z -> arg !!! 3%nat = "NULL" ->
      s_gammat s = 0.5 * s_gamman s)
  /\ (s_dampflag s <> 0%Z -> arg !!! 3%nat <> "NULL" ->
      numeric (arg !!! 3%nat) = Some (s_gammat s))
  /\ numeric (arg !!! 4%nat) = Some (s_xmu s)
  /\ inumeric (arg !!! 5%nat) = Some (s_dampflag s)
  /\ numeric (arg !!! 6%nat) = Some (s_t s)
  /\ numeric (arg !!! 7%nat) = Some (s_c s)
  /\ numeric (arg !!! 8%nat) = Some (s_enlargeFactor s).
Proof.
  unfold assign_style. intros H.
  destruct (numeric (arg !!! 0%nat)) as [kn0|] eqn:E0; [|done].
  cbn [mbind option_bind] in H.
  destruct (String.eqb_spec (arg !!! 1%nat) "NULL") as [N1|N1];
    [|destruct (numeric (arg !!! 1%nat)) as [kt0|] eqn:E1; [|done]];
    cbn [mbind option_bind] in H;
    (destruct (numeric (arg !!! 2%nat)) as [gn0|] eqn:E2; [|done]);
    cbn [mbind option_bind] in H;
    (destruct (String.eqb_spec (arg !!! 3%nat) "NULL") as [N3|N3];
     [|destruct (numeric (arg !!! 3%nat)) as [gt0|] eqn:E3; [|done]]);
    cbn [mbind option_bind] in H;
    (destruct (numeric (arg !!! 4%nat)) as [xmu0|] eqn:E4; [|done]);
    cbn [mbind option_bind] in H;
    (destruct (inumeric (arg !!! 5%nat)) as [df0|] eqn:E5; [|done]);
    cbn [mbind option_bind] in H;
    (destruct (numeric (arg !!! 6%nat)) as [t0|] eqn:E6; [|done]);
    cbn [mbind option_bind] in H;
    (destruct (numeric (arg !!! 7%nat)) as [cc0|] eqn:E7; [|done]);
    cbn [mbind option_bind] in H;
    (destruct (numeric (arg !!! 8%nat)) as [ef0|] eqn:E8; [|done]);
    cbn [mbind option_bind] in H;
    injection H as <-; cbn [s_kn s_kt s_gamman s_gammat s_xmu s_dampflag
                            s_t s_c s_enlargeFactor];
    (repeat split; try done;
     try (intros ->; reflexivity);
     try (intros Hd; apply Z.eqb_neq in Hd; rewrite Hd; done)).
Qed.

(* assign_style gives the members exactly when numeric and inumeric give a
   value for every word they are asked: the words 0, 2, 4, 6, 7 and 8,
   the word 5, and the words 1 and 3 unless they are NULL. *)
Lemma assign_style_iff numeric inumeric arg s :
  assign_style numeric inumeric arg = Some s <->
  exists (kn kt gamman gammat xmu : float) (dampflag : Z)
         (t c enlargeFactor : float),
    numeric (arg !!! 0%nat) = Some kn
    /\ (arg !!! 1%nat = "NULL" /\ kt = kn * 2 / 7
        \/ arg !!! 1%nat <> "NULL" /\ numeric (arg !!! 1%nat) = Some kt)
    /\ numeric (arg !!! 2%nat) = Some gamman
    /\ (arg !!! 3%nat = "NULL" /\ gammat = 0.5 * gamman
        \/ arg !!! 3%nat <> "NULL" /\ numeric (arg !!! 3%nat) = Some gammat)
    /\ numeric (arg !!! 4%nat) = Some xmu
    /\ inumeric (arg !!! 5%nat) = Some dampflag
    /\ numeric (arg !!! 6%nat) = Some t
    /\ numeric (arg !!! 7%nat) = Some c
    /\ numeric (arg !!! 8%nat) = Some enlargeFactor
    /\ s = mkStyle kn kt gamman (if (dampflag =? 0)%Z then 0 else gammat)
                   xmu dampflag t c enlargeFactor.
Proof.
  unfold assign_style. split.
  - intros H.
    destruct (numeric (arg !!! 0%nat)) as [kn0|] eqn:E0; [|done].
    cbn [mbind option_bind] in H.
    destruct (String.eqb_spec (arg !!! 1%nat) "NULL") as [N1|N1];
      [|destruct (numeric (arg !!! 1%nat)) as [kt0|] eqn:E1; [|done]];
      cbn [mbind option_bind] in H;
      (destruct (numeric (arg !!! 2%nat)) as [gn0|] eqn:E2; [|done]);
      cbn [mbind option_bind] in H;
      (destruct (String.eqb_spec (arg !!! 3%nat) "NULL") as [N3|N3];
       [|destruct (numeric (arg !!! 3%nat)) as [gt0|] eqn:E3; [|done]]);
      cbn [mbind option_bind] in H;
      (destruct (numeric (arg !!! 4%nat)) as [xmu0|] eqn:E4; [|done]);
      cbn [mbind option_bind] in H;
      (destruct (inumeric (arg !!! 5%nat)) as [df0|] eqn:E5; [|done]);
      cbn [mbind option_bind] in H;
      (destruct (numeric (arg !!! 6%nat)) as [t0|] eqn:E6; [|done]);
      cbn [mbind option_bind] in H;
      (destruct (numeric (arg !!! 7%nat)) as [c0'|] eqn:E7; [|done]);
      cbn [mbind option_bind] in H;
      (destruct (numeric (arg !!! 8%nat)) as [ef0|] eqn:E8; [|done]);
      cbn [mbind option_bind] in H;
      injection H as <-;
      eexists _, _, _, _, _, _, _, _, _;
      (split; [reflexivity|]);
      (split; [first [left; split; [done|reflexivity]
                     |right; split; [done|reflexivity]]|]);
      (split; [reflexivity|]);
      (split; [first [left; split; [done|reflexivity]
                     |right; split; [done|reflexivity]]|]);
      repeat (split; [reflexivity|]); reflexivity.
  - intros (kn0 & kt0 & gn0 & gt0 & xmu0 & df0 & t0 & c0' & ef0
            & E0 & H1 & E2 & H3 & E4 & E5 & E6 & E7 & E8 & ->).
    rewrite E0. cbn [mbind option_bind].
    assert (K1 : (if String.eqb (arg !!! 1%nat) "NULL"
                  then Some (kn0 * 2 / 7)
                  else numeric (arg !!! 1%nat)) = Some kt0).
    { destruct H1 as [[N ->]|[N E]].
      - by rewrite N.
      - apply String.eqb_neq in N. by rewrite N. }
    rewrite K1, E2. cbn [mbind option_bind].
    assert (K3 : (if String.eqb (arg !!! 3%nat) "NULL"
                  then Some (0.5 * gn0)
                  else numeric (arg !!! 3%nat)) = Some gt0).
    { destruct H3 as [[N ->]|[N E]].
      - by rewrite N.
      - apply String.eqb_neq in N. by rewrite N. }
    rewrite K3, E4. cbn [mbind option_bind].
    rewrite E5. cbn [mbind option_bind].
    rewrite E6. cbn [mbind option_bind].
    rewrite E7. cbn [mbind option_bind].
    rewrite E8. reflexivity.
Qed.

(* lines 234-255 on a pair that is not bonded *)
Lemma stretch_check_unbonded ID1 ID2 jj g c ig :
  cohesive c ID1 ID2 = false ->
  stretch_check ID1 ID2 jj g c ig
  = if stretch ID1 ID2 g c <? 0
    then (unset_contact (set_D c (stretch ID1 ID2 g c)) jj, (-1)%Z)
    else (set_D c (stretch ID1 ID2 g c), ig).
Proof.
  intros Hco. unfold stretch_check. cbn [_D set_D].
  destruct (stretch ID1 ID2 g c <? 0); [|done].
  change (cohesive (set_D c (stretch ID1 ID2 g c)) ID1 ID2)
    with (cohesive c ID1 ID2).
  rewrite Hco. cbn [negb].
  change (cohesive (unset_contact (set_D c (stretch ID1 ID2 g c)) jj) ID1 ID2)
    with (cohesive c ID1 ID2).
  by rewrite Hco, andb_false_r.
Qed.

(* ===================================================================== *)
(* The gates on the first step                                            *)
(* ===================================================================== *)

(* While ntimestep < 1 the two gates after the formation block change
   neither the tables nor, for a pair that bonds, _ignore: the stretch of
   a bond just formed is (radsum - r) - (radsum - r). *)
Lemma pair_gates_first_step P nt ID1 ID2 jj g c :
  (nt < 1)%Z ->
  is_cohesive (pair_gates P nt ID1 ID2 jj g c).1
  = is_cohesive (form_bond P nt ID1 ID2 jj g c 1).1
  /\ (pair_gates P nt ID1 ID2 jj g c).2
     = if in_bond_range P g then 1%Z else (-1)%Z.
Proof.
  intros Hnt. apply Z.ltb_lt in Hnt. unfold pair_gates, form_bond.
  rewrite Hnt. destruct (in_bond_range P g).
  - set (cf := set_tables c _ _ _).
    assert (Hco : cohesive cf ID1 ID2 = true).
    { unfold cohesive, cf. cbn [is_cohesive set_tables].
      apply tbl_get_set2_l. }
    assert (HD : Dinitial_at cf ID1 ID2 = radsum g - r g).
    { unfold Dinitial_at, cf. cbn [_Dinitial set_tables].
      apply tbl_get_set2_l. }
    unfold unset_nontouching. rewrite Hco. cbn [negb andb].
    unfold stretch_check, stretch. cbn [_D set_D]. rewrite HD.
    rewrite float_sub_self_not_neg. done.
  - set (cf := set_tables _ _ _ _).
    assert (Hco : cohesive cf ID1 ID2 = false).
    { unfold cohesive, cf. cbn [is_cohesive set_tables].
      apply tbl_get_set2_l. }
    unfold unset_nontouching. rewrite Hco. cbn [negb andb].
    destruct (radsum g <? r g);
      rewrite stretch_check_unbonded by exact Hco;
      by destruct (_ <? 0).
Qed.

(* ===================================================================== *)
(* C1: bond formation                                                     *)
(* ===================================================================== *)

(** C1. While ntimestep < 1, the formation block of compute marks the pair
    (i, j) bonded exactly when r <= radsum + (_enlargeFactor - 1) * radmin,
    where radsum = radius[i] + radius[j], r = sqrt(rsq) and
    radmin = fmin(radius[j], radius[i]); r equal to the threshold bonds.
    A bonding pair gets _Dinitial = radsum - r and
    _Dtensile = (M_PI * radmin * _t) / kn in both directions; any other
    pair gets false, 0 and 0 in both directions and touch[jj] = 0.  The
    two gates that follow leave the flag as the block set it, so that the
    force evaluation starts with a bonded pair exactly when the pair is
    in range, and is skipped (_ignore = -1) for a pair out of range. *)
Theorem C1_bond_formation (P : PairCFM) (A : Atom) (ntimestep : Z)
    (i j jj : nat) (c : Contact) (_ignore : Z) :
  (ntimestep < 1)%Z ->
  let ID1 := atom_tag A !!! i in
  let ID2 := atom_tag A !!! j in
  let g := geometry A i j in
  let radsum := atom_radius A !!! i + atom_radius A !!! j in
  let radmin := fmin (atom_radius A !!! j) (atom_radius A !!! i) in
  let threshold := radsum + (_enlargeFactor P - 1) * radmin in
  let c' := (form_bond P ntimestep ID1 ID2 jj g c _ignore).1 in
  let gated := pair_gates P ntimestep ID1 ID2 jj g c in
  (cohesive c' ID1 ID2 = true <-> (r g <=? threshold) = true)
  /\ ((r g =? threshold) = true -> cohesive c' ID1 ID2 = true)
  /\ ((r g <=? threshold) = true ->
      cohesive c' ID1 ID2 = true /\ cohesive c' ID2 ID1 = true
      /\ Dinitial_at c' ID1 ID2 = radsum - r g
      /\ Dinitial_at c' ID2 ID1 = radsum - r g
      /\ Dtensile_at c' ID1 ID2 = M_PI * radmin * _t P / kn P
      /\ Dtensile_at c' ID2 ID1 = M_PI * radmin * _t P / kn P)
  /\ ((r g <=? threshold) = false ->
      cohesive c' ID1 ID2 = false /\ cohesive c' ID2 ID1 = false
      /\ Dinitial_at c' ID1 ID2 = 0 /\ Dinitial_at c' ID2 ID1 = 0
      /\ Dtensile_at c' ID1 ID2 = 0 /\ Dtensile_at c' ID2 ID1 = 0
      /\ touch c' = <[jj := 0%Z]> (touch c))
  /\ (cohesive gated.1 ID1 ID2 = true <-> (r g <=? threshold) = true)
  /\ gated.2 = (if r g <=? threshold then 1%Z else (-1)%Z).
Proof.
  intros Hstep ID1 ID2 g rs rm thr c' gated.
  assert (Hthr : in_bond_range P g = (r g <=? thr)) by reflexivity.
  assert (Hlt : (ntimestep <? 1)%Z = true) by (apply Z.ltb_lt; lia).
  assert (Hyes : (r g <=? thr) = true ->
      cohesive c' ID1 ID2 = true /\ cohesive c' ID2 ID1 = true
      /\ Dinitial_at c' ID1 ID2 = rs - r g
      /\ Dinitial_at c' ID2 ID1 = rs - r g
      /\ Dtensile_at c' ID1 ID2 = M_PI * rm * _t P / kn P
      /\ Dtensile_at c' ID2 ID1 = M_PI * rm * _t P / kn P).
  { intros E. subst c'. unfold form_bond. rewrite Hlt, Hthr, E.
    unfold cohesive, Dinitial_at, Dtensile_at.
    cbn [fst set_tables is_cohesive _Dinitial _Dtensile].
    rewrite !tbl_get_set2_l, !tbl_get_set2_r. done. }
  assert (Hno : (r g <=? thr) = false ->
      cohesive c' ID1 ID2 = false /\ cohesive c' ID2 ID1 = false
      /\ Dinitial_at c' ID1 ID2 = 0 /\ Dinitial_at c' ID2 ID1 = 0
      /\ Dtensile_at c' ID1 ID2 = 0 /\ Dtensile_at c' ID2 ID1 = 0
      /\ touch c' = <[jj := 0%Z]> (touch c)).
  { intros E. subst c'. unfold form_bond. rewrite Hlt, Hthr, E.
    unfold cohesive, Dinitial_at, Dtensile_at.
    cbn [fst set_tables set_touch is_cohesive _Dinitial _Dtensile touch].
    rewrite !tbl_get_set2_l, !tbl_get_set2_r. done. }
  assert (Hiff : cohesive c' ID1 ID2 = true <-> (r g <=? thr) = true).
  { split; [|by intros E; apply Hyes].
    intros Hco. destruct (r g <=? thr) eqn:E; [done|].
    destruct (Hno eq_refl) as [Hf _]. congruence. }
  destruct (pair_gates_first_step P ntimestep ID1 ID2 jj g c Hstep)
    as [Htab Hig].
  fold gated in Htab, Hig. rewrite Hthr in Hig.
  assert (Hsame : cohesive gated.1 ID1 ID2 = cohesive c' ID1 ID2).
  { unfold cohesive. rewrite Htab. subst c'. unfold form_bond.
    rewrite Hlt. by destruct (in_bond_range P g). }
  split; [exact Hiff|]. split; [by intros E; apply Hyes, float_eqb_leb|].
  split; [exact Hyes|]. split; [exact Hno|].
  split; [by rewrite Hsame|exact Hig].
Qed.

(* Centres 1.5 apart with radii 1 and enlarge factor 1.25: the threshold
   is 2.25, the pair bonds with initial gap 0.5. *)
Lemma C1_bond_formation_witness :
  cohesive
    (form_bond cfm_style 0 1 2 0 (geometry (two_atoms 1.5 0) 0 1)
               fresh_contact 1).1 1 2 = true
  /\ Dinitial_at
       (form_bond cfm_style 0 1 2 0 (geometry (two_atoms 1.5 0) 0 1)
                  fresh_contact 1).1 1 2 = 0.5.
Proof.
  pose proof (C1_bond_formation cfm_style (two_atoms 1.5 0) 0 0 1 0
                fresh_contact 1 ltac:(lia)) as H.
  cbv zeta in H. destruct H as (_ & _ & Hyes & _).
  destruct (Hyes ltac:(vm_compute; reflexivity)) as (H1 & _ & H2 & _).
  split; [exact H1|].
  etransitivity; [exact H2|]. vm_compute. reflexivity.
Defined.

(* ===================================================================== *)
(* C2: tensile failure                                                    *)
(* ===================================================================== *)

(** C2. A bonded pair whose stretch _D = (radsum - r) - _Dinitial is
    negative with fabs(_D) >= _Dtensile fails in tension: after the
    evaluation of the pair is_cohesive is false in both directions,
    _history[5] is one more than before, touch[jj] is 0 and
    _history[0..2] are 0, _ignore is -1 and f and torque are as before
    (no force is evaluated); and the pair is bonded in no later state,
    since bonds are formed only while ntimestep < 1. *)
Theorem C2_tensile_failure (P : PairCFM) (A : Atom) (ntimestep : Z)
    (i j jj : nat) (c : Contact) :
  let ID1 := atom_tag A !!! i in
  let ID2 := atom_tag A !!! j in
  let g := geometry A i j in
  let cf := (form_bond P ntimestep ID1 ID2 jj g c 1).1 in
  let D := (radsum g - r g) - Dinitial_at cf ID1 ID2 in
  let c' := pair_eval P A ntimestep i j jj c in
  cohesive cf ID1 ID2 = true ->
  (D <? 0) = true ->
  (Dtensile_at cf ID1 ID2 <=? fabs D) = true ->
  (hist_ix jj 5 < length (allshear c))%nat ->
  (jj < length (touch c))%nat ->
  cohesive c' ID1 ID2 = false /\ cohesive c' ID2 ID1 = false
  /\ history c' jj 5 = history c jj 5 + 1
  /\ touch c' !!! jj = 0%Z
  /\ history c' jj 0 = 0 /\ history c' jj 1 = 0 /\ history c' jj 2 = 0
  /\ (pair_gates P ntimestep ID1 ID2 jj g c).2 = (-1)%Z
  /\ atom_f c' = atom_f c /\ atom_torque c' = atom_torque c
  /\ (forall c'' : Contact, later c' c'' ->
        cohesive c'' ID1 ID2 = false /\ cohesive c'' ID2 ID1 = false).
Proof.
  intros ID1 ID2 g cf D c' Hco Hneg Hbeyond Hlen Htouch.
  pose proof (pair_gates_tensile P ntimestep ID1 ID2 jj g c Hco Hneg Hbeyond)
    as Hg.
  fold cf in Hg. change (stretch ID1 ID2 g cf) with D in Hg.
  assert (Hc' : c' = tensile_failure ID1 ID2 jj (set_D cf D)).
  { subst c'. unfold pair_eval. fold ID1 ID2 g. by rewrite Hg. }
  destruct (form_bond_allshear P ntimestep ID1 ID2 jj g c 1)
    as (Hsh & Hf & Htq & Htl).
  fold cf in Hsh, Hf, Htq, Htl.
  destruct (tensile_failure_cleared ID1 ID2 jj (set_D cf D)) as [Hc1 Hc2].
  rewrite <- Hc' in Hc1, Hc2.
  assert (Hix : forall n, (n <= 5)%nat ->
            (hist_ix jj n < length (allshear cf))%nat)
    by (rewrite Hsh; unfold hist_ix in *; lia).
  assert (Hh : forall k, history cf jj k = history c jj k)
    by (intros k; unfold history; by rewrite Hsh).
  assert (Hz : forall k, (k < 3)%nat -> history c' jj k = 0).
  { intros k Hk. rewrite Hc'. unfold tensile_failure, set_bond, set_cohesive.
    change (history (set_tables ?x _ _ _) jj k) with (history x jj k).
    rewrite history_set_ne by (unfold hist_ix; lia).
    unfold unset_contact. apply zero_shear_zero; [done|].
    apply (Hix 2%nat). lia. }
  repeat split; try done.
  - rewrite Hc'. unfold tensile_failure, set_bond, set_cohesive.
    change (history (set_tables ?x _ _ _) jj 5) with (history x jj 5).
    rewrite history_set_eq.
    + unfold unset_contact. rewrite zero_shear_other
        by (intros n Hn; unfold hist_ix; lia).
      rewrite history_set_touch. by rewrite <- Hh.
    + unfold unset_contact. rewrite zero_shear_length. by apply Hix.
  - rewrite Hc'. unfold tensile_failure. simpl.
    apply list_lookup_total_insert_eq. by rewrite Htl.
  - apply Hz. lia.
  - apply Hz. lia.
  - apply Hz. lia.
  - by rewrite Hg.
  - by rewrite Hc'.
  - by rewrite Hc'.
  - by apply (later_cleared c' c'').
  - by apply (later_cleared c' c'').
Qed.

(* The bonded pair pulled to a distance of 1.75: the stretch is -0.25,
   beyond the tolerance of about 0.00314. *)
Lemma C2_tensile_failure_witness :
  cohesive (pair_eval cfm_style (two_atoms 1.75 0) 1 0 1 0 bonded_contact)
           1 2 = false
  /\ history (pair_eval cfm_style (two_atoms 1.75 0) 1 0 1 0 bonded_contact)
             0 5 = 1.
Proof.
  pose proof (C2_tensile_failure cfm_style (two_atoms 1.75 0) 1 0 1 0
                bonded_contact) as H.
  cbv zeta in H.
  destruct H as (H1 & _ & H2 & _);
    [vm_compute; reflexivity | vm_compute; reflexivity
    | vm_compute; reflexivity | vm_compute; lia | vm_compute; lia | ].
  split; [exact H1|]. etransitivity; [exact H2|vm_compute; reflexivity].
Defined.

(* ===================================================================== *)
(* C3: the divisions of the force evaluation                              *)
(* ===================================================================== *)

(** C3 (as the code has it). In the force evaluation of a pair the
    divisions 1.0/r and 1.0/rsq are executed with no guard on r: they
    divide by zero whenever r or rsq is zero.  The rescaling divisions by
    fs and kt are executed only under "fs >= fn" and "shrmag != 0.0";
    there fs is nonzero whenever fn > 0; under "fs >= fn" with
    shrmag == 0.0 nothing is divided by fs or kt and the tangential force
    is zero.  Hence no divisor is zero when r, rsq, mi+mj and kt are
    nonzero and fn > 0. *)
Theorem C3_division_guards (P : PairCFM) (A : Atom) (i j : nat)
    (ID1 ID2 : Z) (jj : nat) (g : Geom) (c : Contact) :
  let k := kinematics P A i j g (_D c) in
  let ci := integrate_shear P jj k c in
  let shrmag := shear_magnitude jj ci in
  let cr := rotate_shear jj g k ci in
  let fsv := shear_force P jj k cr in
  let fn := (force_limit P ID1 ID2 g k cr).2 in
  let fs := norm3 fsv in
  let msum := pair_mi P A i + pair_mi P A j in
  let ds := force_divisors P A i j ID1 ID2 jj g c in
  (is_zero (r g) = true \/ is_zero (rsq g) = true ->
   Exists (fun d => is_zero d = true) ds)
  /\ ((fn <=? fs) = true -> (shrmag =? 0) = true ->
      ds = [r g; rsq g; msum]
      /\ (contact_law P A i j ID1 ID2 jj g c).2 = V3 0 0 0)
  /\ ((fn <=? fs) = false -> ds = [r g; rsq g; msum])
  /\ ((fn <=? fs) = true -> (shrmag =? 0) = false ->
      ds = [r g; rsq g; msum; fs; kt P])
  /\ ((0 <? fn) = true -> (fn <=? fs) = true -> is_zero fs = false)
  /\ (is_zero (r g) = false -> is_zero (rsq g) = false ->
      is_zero msum = false -> is_zero (kt P) = false ->
      (0 <? fn) = true ->
      Forall (fun d => is_zero d = false) ds).
Proof.
  intros k ci shrmag cr fsv fn fs msum ds.
  assert (Hds : ds = [r g; rsq g; msum]
                     ++ (if (fn <=? fs) && negb (shrmag =? 0)
                         then [fs; kt P] else [])) by reflexivity.
  split; [|split; [|split; [|split; [|split]]]].
  - rewrite Hds. intros [H|H].
    + by apply Exists_cons_hd.
    + by apply Exists_cons_tl, Exists_cons_hd.
  - intros Hge Hz. split.
    + rewrite Hds, Hge, Hz. done.
    + rewrite contact_law_rescale. cbv zeta. fold k ci shrmag cr fsv fs fn.
      unfold rescale. rewrite Hge, Hz.
      cbn [negb]. apply shear_failure_zero_force.
  - intros Hlt. by rewrite Hds, Hlt.
  - intros Hge Hz. by rewrite Hds, Hge, Hz.
  - intros Hpos Hge. unfold is_zero. by apply (float_pos_le_nonzero fn fs).
  - intros Hr Hrsq Hm Hkt Hpos. rewrite Hds.
    repeat (apply Forall_cons; split; [done|]).
    destruct (fn <=? fs) eqn:Hge; cbn [andb]; [|by apply Forall_nil].
    destruct (negb (shrmag =? 0)); [|by apply Forall_nil].
    repeat (apply Forall_cons; split); try done.
    unfold is_zero. by apply (float_pos_le_nonzero fn fs).
Qed.

(* The sliding pair of C4: the divisors are 1.75, 3.0625, 2, 250 and 250. *)
Lemma C3_division_guards_witness :
  Forall (fun d => is_zero d = false)
    (force_divisors cfm_style (two_atoms 1.75 1024) 0 1 1 2 0
       (geometry (two_atoms 1.75 1024) 0 1)
       (pair_gates cfm_style 1 1 2 0
          (geometry (two_atoms 1.75 1024) 0 1) fresh_contact).1).
Proof.
  pose proof (C3_division_guards cfm_style (two_atoms 1.75 1024)
     0 1 1 2 0 (geometry (two_atoms 1.75 1024) 0 1)
     (pair_gates cfm_style 1 1 2 0 (geometry (two_atoms 1.75 1024) 0 1)
                 fresh_contact).1) as H.
  cbv zeta in H. destruct H as (_ & _ & _ & _ & _ & H).
  apply H; vm_compute; reflexivity.
Defined.

(* Two atoms at the same place on the first step: the pair bonds, the
   gates let it through (_ignore stays 1), 1.0/r and 1.0/rsq divide by
   zero, and the force and the shear history come out as NaN. *)
Lemma C3_counterexample_coincident_centres :
  (pair_gates cfm_style 0 1 2 0 (geometry (two_atoms 0 0) 0 1)
              fresh_contact).2 = 1%Z
  /\ r (geometry (two_atoms 0 0) 0 1) = 0
  /\ rsq (geometry (two_atoms 0 0) 0 1) = 0
  /\ force_divisors cfm_style (two_atoms 0 0) 0 1 1 2 0
       (geometry (two_atoms 0 0) 0 1)
       (pair_gates cfm_style 0 1 2 0 (geometry (two_atoms 0 0) 0 1)
                   fresh_contact).1 = [0; 0; 2]
  /\ atom_f (pair_eval cfm_style (two_atoms 0 0) 0 0 1 0 fresh_contact)
       !!! 0%nat = V3 nan nan nan
  /\ history (pair_eval cfm_style (two_atoms 0 0) 0 0 1 0 fresh_contact)
             0 0 = nan.
Proof. vm_compute. repeat split; reflexivity. Qed.

(* The guard of fn/fs is shrmag != 0.0, not fs != 0.0: a just-touching
   pair at rest has fn = 0 and fs = 0, so fs >= fn holds, and with a
   shear history along the line of centres shrmag is 1: fn/fs is 0/0 and
   the shear history becomes NaN. *)
Lemma C3_rescale_divides_by_zero :
  (pair_gates cfm_style 1 1 2 0 (geometry (two_atoms 2 0) 0 1)
              normal_shear_contact).2 = 1%Z
  /\ force_divisors cfm_style (two_atoms 2 0) 0 1 1 2 0
       (geometry (two_atoms 2 0) 0 1)
       (pair_gates cfm_style 1 1 2 0 (geometry (two_atoms 2 0) 0 1)
                   normal_shear_contact).1 = [2; 4; 2; 0; 250]
  /\ history (pair_eval cfm_style (two_atoms 2 0) 1 0 1 0
                        normal_shear_contact) 0 0 = nan.
Proof. vm_compute. repeat split; reflexivity. Qed.

(* ===================================================================== *)
(* C4: the Coulomb limit on an unbonded contact                           *)
(* ===================================================================== *)

(* Zeros, numbers and NaN under division, multiplication and
   subtraction. *)
Lemma float_zero_spec (a : float) :
  (a =? 0) = true -> exists s : bool, Prim2SF a = S754_zero s.
Proof.
  rewrite FloatAxioms.eqb_spec. unfold SFeqb.
  change (Prim2SF 0) with (S754_zero false).
  destruct (Prim2SF a) as [s|s| |s m e]; simpl; try destruct s; try done;
    intros _; by eexists.
Qed.

Lemma float_zero_of_spec (a : float) (s : bool) :
  Prim2SF a = S754_zero s -> (a =? 0) = true.
Proof.
  intros H. rewrite FloatAxioms.eqb_spec, H. by destruct s.
Qed.

Lemma float_finite_spec (a : float) :
  finite a = true ->
  (exists s : bool, Prim2SF a = S754_zero s)
  \/ exists (s : bool) (m : positive) (e : Z), Prim2SF a = S754_finite s m e.
Proof.
  unfold finite, fabs. rewrite FloatAxioms.ltb_spec, FloatAxioms.abs_spec.
  unfold SFltb. change (Prim2SF infinity) with (S754_infinity false).
  destruct (Prim2SF a) as [s|s| |s m e]; simpl; try done; intros _.
  - left. by eexists.
  - right. by do 3 eexists.
Qed.

Lemma float_pos_spec (b : float) :
  (0 <? b) = true ->
  Prim2SF b = S754_infinity false
  \/ exists (m : positive) (e : Z), Prim2SF b = S754_finite false m e.
Proof.
  rewrite FloatAxioms.ltb_spec. unfold SFltb.
  change (Prim2SF 0) with (S754_zero false).
  destruct (Prim2SF b) as [s|s| |s m e]; simpl; try destruct s; try done;
    intros _; [by left|right; by do 2 eexists].
Qed.

(* 0/0 is a NaN *)
Lemma float_div_zero_zero (a b : float) :
  (a =? 0) = true -> (b =? 0) = true -> is_nan (a / b) = true.
Proof.
  intros [sa Ha]%float_zero_spec [sb Hb]%float_zero_spec.
  apply is_nan_spec. by rewrite FloatAxioms.div_spec, Ha, Hb.
Qed.

(* 0/b is a zero for b > 0 *)
Lemma float_div_zero_pos (a b : float) :
  (a =? 0) = true -> (0 <? b) = true -> (a / b =? 0) = true.
Proof.
  intros [sa Ha]%float_zero_spec Hb. apply float_pos_spec in Hb.
  apply (float_zero_of_spec _ (xorb sa false)).
  rewrite FloatAxioms.div_spec, Ha.
  destruct Hb as [-> | (m & e & ->)]; reflexivity.
Qed.

Lemma float_mul_zero_r (c q : float) :
  finite c = true -> (q =? 0) = true -> (c * q =? 0) = true.
Proof.
  intros Hc [sq Hq]%float_zero_spec. apply float_finite_spec in Hc.
  destruct Hc as [[s Hc] | (s & m & e & Hc)];
    apply (float_zero_of_spec _ (xorb s sq));
    by rewrite FloatAxioms.mul_spec, Hc, Hq.
Qed.

Lemma float_mul_nan_r (c q : float) : is_nan q = true -> is_nan (c * q) = true.
Proof.
  rewrite !is_nan_spec. intros Hq. rewrite FloatAxioms.mul_spec, Hq.
  by destruct (Prim2SF c).
Qed.

Lemma float_mul_nan_l (q x : float) : is_nan q = true -> is_nan (q * x) = true.
Proof.
  rewrite !is_nan_spec. intros Hq. by rewrite FloatAxioms.mul_spec, Hq.
Qed.

Lemma float_sub_nan_l (a b : float) : is_nan a = true -> is_nan (a - b) = true.
Proof.
  rewrite !is_nan_spec. intros Ha. by rewrite FloatAxioms.sub_spec, Ha.
Qed.

(** C4 (as the code has it). For an unbonded pair in the force evaluation
    whose tangential force magnitude fs reaches the Coulomb limit
    fn = xmu * fabs(ccel*r) (fs >= fn): if shrmag != 0 the three shear
    components become
    (fn/fs) * (shear + meff*gammat*vtr/kt) - meff*gammat*vtr/kt and the
    three force components are multiplied by fn/fs; if shrmag == 0 the
    force is set to zero and the shear left as rotated.  The factor fn/fs
    is the only thing that brings the force to the limit: with fn == 0 and
    fs > 0 it is zero and every finite force component becomes zero, the
    limit; with fn == 0 and fs == 0 it is 0/0, and the three shear
    components and the three force components become NaN.  In every case
    is_cohesive is unchanged (the flag stays false) and _history[5] and
    _history[6] keep their values through the whole force evaluation. *)
Theorem C4_coulomb_rescale_unbonded (P : PairCFM) (A : Atom) (i j : nat)
    (ID1 ID2 : Z) (jj : nat) (g : Geom) (c : Contact) :
  let k := kinematics P A i j g (_D c) in
  let ci := integrate_shear P jj k c in
  let shrmag := shear_magnitude jj ci in
  let cr := rotate_shear jj g k ci in
  let fsv := shear_force P jj k cr in
  let fn := xmu P * fabs (ccel k * r g) in
  let fs := norm3 fsv in
  let res := contact_law P A i j ID1 ID2 jj g c in
  let c' := force_eval P A i j ID1 ID2 jj g c in
  cohesive c ID1 ID2 = false ->
  (fn <=? fs) = true ->
  (hist_ix jj 2 < length (allshear c))%nat ->
  ((shrmag =? 0) = false ->
     history res.1 jj 0
     = (fn / fs) * (history cr jj 0 + meff k * gammat P * vtr1 k / kt P)
       - meff k * gammat P * vtr1 k / kt P
     /\ history res.1 jj 1
        = (fn / fs) * (history cr jj 1 + meff k * gammat P * vtr2 k / kt P)
          - meff k * gammat P * vtr2 k / kt P
     /\ history res.1 jj 2
        = (fn / fs) * (history cr jj 2 + meff k * gammat P * vtr3 k / kt P)
          - meff k * gammat P * vtr3 k / kt P
     /\ res.2 = V3 (c0 fsv * (fn / fs)) (c1 fsv * (fn / fs))
                   (c2 fsv * (fn / fs)))
  /\ ((shrmag =? 0) = true ->
      allshear res.1 = allshear cr /\ res.2 = V3 0 0 0)
  /\ ((shrmag =? 0) = false -> (fn =? 0) = true -> (0 <? fs) = true ->
      (fn / fs =? 0) = true
      /\ (finite (c0 fsv) = true -> (c0 res.2 =? 0) = true)
      /\ (finite (c1 fsv) = true -> (c1 res.2 =? 0) = true)
      /\ (finite (c2 fsv) = true -> (c2 res.2 =? 0) = true))
  /\ ((shrmag =? 0) = false -> (fn =? 0) = true -> (fs =? 0) = true ->
      is_nan (fn / fs) = true
      /\ is_nan (history res.1 jj 0) = true
      /\ is_nan (history res.1 jj 1) = true
      /\ is_nan (history res.1 jj 2) = true
      /\ is_nan (c0 res.2) = true /\ is_nan (c1 res.2) = true
      /\ is_nan (c2 res.2) = true)
  /\ is_cohesive c' = is_cohesive c
  /\ cohesive c' ID1 ID2 = false
  /\ history c' jj 5 = history c jj 5
  /\ history c' jj 6 = history c jj 6.
Proof.
  intros k ci shrmag cr fsv fn fs res c' Hco Hge Hlen.
  assert (Hres : res = if negb (shrmag =? 0)
                       then scale_shear P jj k fn fs cr fsv
                       else (cr, V3 0 0 0)).
  { subst res. rewrite (contact_law_unbonded P A i j ID1 ID2 jj g c Hco).
    cbv zeta. fold k ci shrmag cr fsv fn fs. by rewrite Hge. }
  assert (Hlen' : (hist_ix jj 2 < length (allshear cr))%nat).
  { subst cr ci. unfold rotate_shear, integrate_shear.
    by rewrite !allshear_set_history_length. }
  assert (Htab : is_cohesive res.1 = is_cohesive c).
  { rewrite Hres. by destruct (negb (shrmag =? 0)). }
  assert (Hc' : c' = apply_forces A i j g k res.2 res.1).
  { subst c' res. unfold force_eval. fold k.
    by destruct (contact_law P A i j ID1 ID2 jj g c). }
  assert (Hcnt : forall n, (3 <= n)%nat -> history c' jj n = history c jj n).
  { intros n Hn. rewrite Hc'. unfold history.
    destruct (apply_forces_history A i j g k res.2 res.1) as [-> _].
    by apply (contact_law_counters P A i j ID1 ID2 jj g c n). }
  assert (Htab' : is_cohesive c' = is_cohesive c)
    by (by rewrite Hc', apply_forces_tables).
  assert (Hscaled : (shrmag =? 0) = false ->
     history res.1 jj 0
     = (fn / fs) * (history cr jj 0 + meff k * gammat P * vtr1 k / kt P)
       - meff k * gammat P * vtr1 k / kt P
     /\ history res.1 jj 1
        = (fn / fs) * (history cr jj 1 + meff k * gammat P * vtr2 k / kt P)
          - meff k * gammat P * vtr2 k / kt P
     /\ history res.1 jj 2
        = (fn / fs) * (history cr jj 2 + meff k * gammat P * vtr3 k / kt P)
          - meff k * gammat P * vtr3 k / kt P
     /\ res.2 = V3 (c0 fsv * (fn / fs)) (c1 fsv * (fn / fs))
                   (c2 fsv * (fn / fs))).
  { intros Hz. rewrite Hres, Hz. cbn [negb].
    destruct (scale_shear_history P jj k fn fs cr fsv Hlen')
      as (H0 & H1 & H2).
    repeat split; done. }
  split; [exact Hscaled|].
  split; [intros Hz; rewrite Hres, Hz; done|].
  split; [|split; [|repeat split]].
  - intros Hz Hfn Hfs. destruct (Hscaled Hz) as (_ & _ & _ & ->).
    pose proof (float_div_zero_pos fn fs Hfn Hfs) as Hq.
    split; [done|]. cbn [c0 c1 c2].
    repeat split; intros Hc; by apply float_mul_zero_r.
  - intros Hz Hfn Hfs. destruct (Hscaled Hz) as (-> & -> & -> & ->).
    pose proof (float_div_zero_zero fn fs Hfn Hfs) as Hq.
    split; [done|]. cbn [c0 c1 c2].
    repeat split;
      first [ by apply float_sub_nan_l, float_mul_nan_l
            | by apply float_mul_nan_r ].
  - done.
  - unfold cohesive. rewrite Htab'. exact Hco.
  - apply Hcnt. lia.
  - apply Hcnt. lia.
Qed.

(* Two unbonded atoms 1.75 apart, atom 0 sliding at 1024: the trial force
   250 exceeds the limit 125; the shear 1 becomes 0.5 and the force -125,
   and the two counters stay 0. *)
Lemma C4_coulomb_rescale_unbonded_witness :
  history (contact_law cfm_style (two_atoms 1.75 1024) 0 1 1 2 0
             (geometry (two_atoms 1.75 1024) 0 1)
             (pair_gates cfm_style 1 1 2 0
                (geometry (two_atoms 1.75 1024) 0 1) fresh_contact).1).1
          0 1 = 0.5
  /\ (contact_law cfm_style (two_atoms 1.75 1024) 0 1 1 2 0
        (geometry (two_atoms 1.75 1024) 0 1)
        (pair_gates cfm_style 1 1 2 0
           (geometry (two_atoms 1.75 1024) 0 1) fresh_contact).1).2
     = V3 (-0) (-125) (-0)
  /\ history (force_eval cfm_style (two_atoms 1.75 1024) 0 1 1 2 0
                (geometry (two_atoms 1.75 1024) 0 1)
                (pair_gates cfm_style 1 1 2 0
                   (geometry (two_atoms 1.75 1024) 0 1) fresh_contact).1)
             0 6 = 0.
Proof.
  pose proof (C4_coulomb_rescale_unbonded cfm_style (two_atoms 1.75 1024)
     0 1 1 2 0 (geometry (two_atoms 1.75 1024) 0 1)
     (pair_gates cfm_style 1 1 2 0 (geometry (two_atoms 1.75 1024) 0 1)
                 fresh_contact).1) as H.
  cbv zeta in H.
  destruct H as (Hs & _ & _ & _ & _ & _ & _ & H6);
    [vm_compute; reflexivity | vm_compute; reflexivity | vm_compute; lia | ].
  destruct Hs as (_ & H1 & _ & Hf); [vm_compute; reflexivity|].
  split; [etransitivity; [exact H1|vm_compute; reflexivity]|].
  split; [etransitivity; [exact Hf|vm_compute; reflexivity]|].
  etransitivity; [exact H6|vm_compute; reflexivity].
Defined.

(* Two unbonded atoms of radius 1 at rest, 2 apart and hence just
   touching, with the shear (1, 0, 0) stored for the pair: the pair passes
   the gates, the limit fn and the trial force fs are both 0, so fs >= fn
   holds with shrmag = 1, and the branch leaves NaN in the shear and in
   the force instead of the limit 0. *)
Lemma C4_counterexample_zero_over_zero :
  zero_limit_gated.2 = 1%Z
  /\ cohesive zero_limit_gated.1 1 2 = false
  /\ touch zero_limit_gated.1 !!! 0%nat = 1%Z
  /\ shear_magnitude 0 zero_limit_integrated = 1
  /\ xmu cfm_style
     * fabs (ccel zero_limit_kin * r (geometry (two_atoms 2 0) 0 1)) = 0
  /\ norm3 (shear_force cfm_style 0 zero_limit_kin zero_limit_rotated) = 0
  /\ history (contact_law cfm_style (two_atoms 2 0) 0 1 1 2 0
                (geometry (two_atoms 2 0) 0 1) zero_limit_gated.1).1 0 0
     = nan
  /\ history (contact_law cfm_style (two_atoms 2 0) 0 1 1 2 0
                (geometry (two_atoms 2 0) 0 1) zero_limit_gated.1).1 0 1
     = nan
  /\ history (contact_law cfm_style (two_atoms 2 0) 0 1 1 2 0
                (geometry (two_atoms 2 0) 0 1) zero_limit_gated.1).1 0 2
     = nan
  /\ (contact_law cfm_style (two_atoms 2 0) 0 1 1 2 0
        (geometry (two_atoms 2 0) 0 1) zero_limit_gated.1).2
     = V3 nan nan nan
  /\ atom_f (pair_eval cfm_style (two_atoms 2 0) 1 0 1 0
                       normal_shear_contact) !!! 0%nat
     = V3 nan nan nan.
Proof. vm_compute. repeat split; reflexivity. Qed.

(* ===================================================================== *)
(* C5: the history slots overlap                                          *)
(* ===================================================================== *)

(** C5 (the code breaks it). compute addresses the history of slot jj at
    allshear[3*jj], so _history[5] of slot jj is _history[2] of slot jj+1
    and _history[6] of slot jj is _history[3] of slot jj+1 and
    _history[0] of slot jj+2.  On a two-slot store, all zero, the tensile
    failure of the pair in slot 0 counts in its _history[5] and the third
    shear component read through slot 1 changes from 0 to 1.  In a whole
    call of compute this breaks the neighbouring bond: with three atoms
    at rest in the plane z = 0, pulling atom 1 away fails the bond 1-2 and
    the evaluation of the untouched pair 1-3, reading that 1 as shear,
    finds fs >= fn, clears the bond 1-3, gives atom 0 a force along z and
    overwrites the count of slot 0. *)
Theorem C5_history_slots_overlap :
  (forall jj : nat,
      hist_ix jj 5 = hist_ix (S jj) 2
      /\ hist_ix jj 6 = hist_ix (S jj) 3
      /\ hist_ix jj 6 = hist_ix (S (S jj)) 0)
  /\ length (allshear two_slot_contact) = (7 * 2)%nat
  /\ history two_slot_contact 1 2 = 0
  /\ cohesive (pair_eval cfm_style (two_atoms 1.75 0) 1 0 1 0
                         two_slot_contact) 1 2 = false
  /\ history (pair_eval cfm_style (two_atoms 1.75 0) 1 0 1 0
                        two_slot_contact) 0 5 = 1
  /\ history (pair_eval cfm_style (two_atoms 1.75 0) 1 0 1 0
                        two_slot_contact) 1 2 = 1
  /\ cohesive star_step0.1 1 2 = true
  /\ cohesive star_step0.1 1 3 = true
  /\ firstshear star_step0.2 !!! 0%nat = replicate 14 0
  /\ cohesive star_step1.1 1 2 = false
  /\ cohesive star_step1.1 1 3 = false
  /\ (c2 (atom_f star_step1.1 !!! 0%nat) =? 0) = false
  /\ ((firstshear star_step1.2 !!! 0%nat) !!! 5%nat =? 1) = false.
Proof.
  split; [intros jj; unfold hist_ix; lia|].
  vm_compute. repeat split; reflexivity.
Qed.

(* ===================================================================== *)
(* C6: Newton's third law                                                 *)
(* ===================================================================== *)

(** C6. When the evaluation of a pair of two different atoms reaches the
    force evaluation (_ignore != -1) and owns the contribution to j
    (newton_pair || j < nlocal), the force (fx, fy, fz) added to f[i] is
    the one taken from f[j]: f[i] becomes f[i] + F and f[j] becomes
    f[j] + (-F), component by component. *)
Theorem C6_newton_third_law (P : PairCFM) (A : Atom) (ntimestep : Z)
    (i j jj : nat) (c : Contact) :
  let ID1 := atom_tag A !!! i in
  let ID2 := atom_tag A !!! j in
  let g := geometry A i j in
  let gated := pair_gates P ntimestep ID1 ID2 jj g c in
  let k := kinematics P A i j g (_D gated.1) in
  let fsv := (contact_law P A i j ID1 ID2 jj g gated.1).2 in
  let F := pair_force g k fsv in
  let c' := pair_eval P A ntimestep i j jj c in
  gated.2 <> (-1)%Z ->
  owns_j A j = true ->
  i <> j ->
  (i < length (atom_f c))%nat -> (j < length (atom_f c))%nat ->
  atom_f c' !!! i = vadd (atom_f c !!! i) (c0 F) (c1 F) (c2 F)
  /\ atom_f c' !!! j = vadd (atom_f c !!! j) (- c0 F) (- c1 F) (- c2 F).
Proof.
  intros ID1 ID2 g gated k fsv F c' Hig Hown Hij Hi Hj.
  assert (Hc' : c' = force_eval P A i j ID1 ID2 jj g gated.1).
  { subst c'. unfold pair_eval. fold ID1 ID2 g gated.
    destruct gated as [ca ig]. cbn [fst snd] in *.
    destruct (ig =? -1)%Z eqn:E; [apply Z.eqb_eq in E; done|done]. }
  destruct (pair_gates_forces P ntimestep ID1 ID2 jj g c) as [Hf1 _].
  fold gated in Hf1.
  destruct (contact_law_forces P A i j ID1 ID2 jj g gated.1) as [Hf2 _].
  rewrite Hc'. unfold force_eval. fold k.
  destruct (contact_law P A i j ID1 ID2 jj g gated.1) as [cb fsb] eqn:E.
  cbn [fst snd] in *. subst fsv. fold F.
  assert (Hfb : atom_f cb = atom_f c) by congruence.
  assert (Hi' : (i < length (atom_f cb))%nat) by (by rewrite Hfb).
  assert (Hj' : (j < length (atom_f cb))%nat) by (by rewrite Hfb).
  unfold apply_forces. fold F. rewrite Hown.
  cbn [atom_f atom_torque set_f set_torque]. list_simp.
  rewrite Hfb. unfold vadd, vsub. by rewrite !float_sub_add_opp.
Qed.

(* The same pair: f[0] gains (-500, -0.244140625, 0) and f[1] gains the
   opposite. *)
Lemma C6_newton_third_law_witness :
  atom_f (pair_eval cfm_style (two_atoms 1.5 1) 1 0 1 0 fresh_contact)
    !!! 0%nat = V3 (-500) (-0.244140625) 0
  /\ atom_f (pair_eval cfm_style (two_atoms 1.5 1) 1 0 1 0 fresh_contact)
       !!! 1%nat = V3 500 0.244140625 0.
Proof.
  pose proof (C6_newton_third_law cfm_style (two_atoms 1.5 1) 1 0 1 0
                fresh_contact) as H.
  cbv zeta in H.
  destruct H as [H1 H2];
    [vm_compute; discriminate | vm_compute; reflexivity | lia
    | vm_compute; lia | vm_compute; lia | ].
  split; (etransitivity; [eassumption|vm_compute; reflexivity]).
Defined.

(* ===================================================================== *)
(* C7: torques                                                            *)
(* ===================================================================== *)

(** C7 (as the code has it). When the evaluation of a pair of two
    different atoms reaches the force evaluation, with
    tor = rinv * (del x fs) (del the separation vector, fs the tangential
    force after rescaling, rinv = 1/r), torque[i] becomes
    torque[i] - radius[i] * tor, whether or not the evaluation owns the
    contribution to j.  When it does (newton_pair is set or j < nlocal)
    torque[j] becomes torque[j] - radius[j] * tor: both are subtracted,
    each scaled by the atom's own radius.  When it does not, torque[j] is
    left as it was. *)
Theorem C7_torque_same_sign (P : PairCFM) (A : Atom) (ntimestep : Z)
    (i j jj : nat) (c : Contact) :
  let ID1 := atom_tag A !!! i in
  let ID2 := atom_tag A !!! j in
  let g := geometry A i j in
  let gated := pair_gates P ntimestep ID1 ID2 jj g c in
  let k := kinematics P A i j g (_D gated.1) in
  let fsv := (contact_law P A i j ID1 ID2 jj g gated.1).2 in
  let tor1 := (1 / r g) * (dely g * c2 fsv - delz g * c1 fsv) in
  let tor2 := (1 / r g) * (delz g * c0 fsv - delx g * c2 fsv) in
  let tor3 := (1 / r g) * (delx g * c1 fsv - dely g * c0 fsv) in
  let c' := pair_eval P A ntimestep i j jj c in
  gated.2 <> (-1)%Z ->
  i <> j ->
  (i < length (atom_f c))%nat -> (j < length (atom_f c))%nat ->
  (i < length (atom_torque c))%nat -> (j < length (atom_torque c))%nat ->
  atom_torque c' !!! i
  = V3 (c0 (atom_torque c !!! i) - atom_radius A !!! i * tor1)
       (c1 (atom_torque c !!! i) - atom_radius A !!! i * tor2)
       (c2 (atom_torque c !!! i) - atom_radius A !!! i * tor3)
  /\ (owns_j A j = true ->
      atom_torque c' !!! j
      = V3 (c0 (atom_torque c !!! j) - atom_radius A !!! j * tor1)
           (c1 (atom_torque c !!! j) - atom_radius A !!! j * tor2)
           (c2 (atom_torque c !!! j) - atom_radius A !!! j * tor3))
  /\ (owns_j A j = false -> atom_torque c' !!! j = atom_torque c !!! j).
Proof.
  intros ID1 ID2 g gated k fsv tor1 tor2 tor3 c' Hig Hij Hi Hj Hti Htj.
  assert (Hc' : c' = force_eval P A i j ID1 ID2 jj g gated.1).
  { subst c'. unfold pair_eval. fold ID1 ID2 g gated.
    destruct gated as [ca ig]. cbn [fst snd] in *.
    destruct (ig =? -1)%Z eqn:E; [apply Z.eqb_eq in E; done|done]. }
  destruct (pair_gates_forces P ntimestep ID1 ID2 jj g c) as [Hf1 Ht1].
  fold gated in Hf1, Ht1.
  destruct (contact_law_forces P A i j ID1 ID2 jj g gated.1) as [Hf2 Ht2].
  rewrite Hc'. unfold force_eval. fold k.
  destruct (contact_law P A i j ID1 ID2 jj g gated.1) as [cb fsb] eqn:E.
  cbn [fst snd] in *. subst fsv.
  assert (Hfb : atom_f cb = atom_f c) by congruence.
  assert (Htb : atom_torque cb = atom_torque c) by congruence.
  destruct (apply_forces_lookup A i j g k fsb cb Hij)
    as (_ & Hti' & Hown & Hghost);
    rewrite ?Hfb, ?Htb; try done.
  rewrite Htb in Hti', Hown, Hghost.
  split; [by rewrite Hti'|]. split.
  - intros Ho. destruct (Hown Ho) as [_ ->]. done.
  - intros Ho. by destruct (Hghost Ho) as [_ ->].
Qed.

Lemma C7_torque_same_sign_witness :
  atom_torque (pair_eval cfm_style (two_atoms 1.5 1) 1 0 1 0 fresh_contact)
    !!! 0%nat = V3 0 0 (-0.244140625)
  /\ atom_torque (pair_eval cfm_style (two_atoms 1.5 1) 1 0 1 0 fresh_contact)
       !!! 1%nat = V3 0 0 (-0.244140625).
Proof.
  pose proof (C7_torque_same_sign cfm_style (two_atoms 1.5 1) 1 0 1 0
                fresh_contact) as H.
  cbv zeta in H.
  destruct H as (H1 & H2 & _);
    [vm_compute; discriminate | lia
    | vm_compute; lia | vm_compute; lia | vm_compute; lia | vm_compute; lia
    | ].
  split; [etransitivity; [exact H1|vm_compute; reflexivity]|].
  etransitivity; [apply H2; vm_compute; reflexivity|vm_compute; reflexivity].
Defined.

(* Two touching unbonded atoms of radius 1, atom 0 sliding past atom 1:
   both torques start at 0 and both end at (0, 0, -0.244140625), so the
   torque given to j is the one given to i, not its opposite. *)
Lemma C7_counterexample_equal_torques :
  atom_radius (two_atoms 1.5 1) !!! 0%nat = 1
  /\ atom_radius (two_atoms 1.5 1) !!! 1%nat = 1
  /\ atom_torque fresh_contact !!! 0%nat = V3 0 0 0
  /\ atom_torque fresh_contact !!! 1%nat = V3 0 0 0
  /\ atom_torque (pair_eval cfm_style (two_atoms 1.5 1) 1 0 1 0 fresh_contact)
       !!! 0%nat = V3 0 0 (-0.244140625)
  /\ atom_torque (pair_eval cfm_style (two_atoms 1.5 1) 1 0 1 0 fresh_contact)
       !!! 1%nat = V3 0 0 (-0.244140625).
Proof. vm_compute. repeat split; reflexivity. Qed.

(* ===================================================================== *)
(* C8: the bond flag is symmetric                                         *)
(* ===================================================================== *)

(** C8. The bond flag is symmetric and stays so: if is_cohesive[a][b]
    equals is_cohesive[b][a] for all a and b, the same holds after the
    formation block, after a tensile failure, after a shear failure,
    after the whole evaluation of a pair and after a whole call of
    compute; a call of compute at ntimestep 0, which creates the table,
    ends with a symmetric table whatever it started from. *)
Theorem C8_bond_flag_symmetric (P : PairCFM) (A : Atom) (ntimestep : Z)
    (NL : NeighList) (i j jj : nat) (ID1 ID2 : Z) (g : Geom) (fsv : vec3)
    (_ignore : Z) (c c0 : Contact) (h h0 : History) :
  symmetric (is_cohesive c) ->
  symmetric (is_cohesive (form_bond P ntimestep ID1 ID2 jj g c _ignore).1)
  /\ symmetric (is_cohesive (tensile_failure ID1 ID2 jj c))
  /\ symmetric (is_cohesive (shear_failure ID1 ID2 jj g c fsv).1)
  /\ symmetric (is_cohesive (pair_eval P A ntimestep i j jj c))
  /\ symmetric (is_cohesive (compute P A ntimestep NL (c, h)).1)
  /\ symmetric (is_cohesive (compute P A 0 NL (c0, h0)).1).
Proof.
  intros Hc. repeat split.
  - eapply bond_writes_symmetric; [apply form_bond_writes|done].
  - by apply (set_both_symmetric _ (ID1 - 1)%Z (ID2 - 1)%Z false).
  - eapply bond_writes_symmetric;
      [apply (shear_failure_writes ntimestep)|done].
  - eapply bond_writes_symmetric; [apply pair_eval_writes|done].
  - eapply bond_writes_symmetric; [apply compute_writes|].
    unfold create_tables. cbn [fst]. destruct (ntimestep =? 0)%Z; [|done].
    intros a b. simpl. by rewrite !fill_table_false_get.
  - eapply bond_writes_symmetric; [apply compute_writes|].
    apply create_tables_symmetric.
Qed.

Lemma C8_bond_flag_symmetric_witness :
  symmetric (is_cohesive
               (pair_eval cfm_style (two_atoms 1.5 0) 0 0 1 0 fresh_contact)).
Proof.
  pose proof (C8_bond_flag_symmetric cfm_style (two_atoms 1.5 0) 0
                (mkNeighList 0 [] [] []) 0 1 0 1 2
                (geometry (two_atoms 1.5 0) 0 1) (V3 0 0 0) 1
                fresh_contact fresh_contact (mkHistory [] []) (mkHistory [] [])
                symmetric_empty) as (_ & _ & _ & H & _).
  exact H.
Defined.

(* ===================================================================== *)
(* C9: below the limit nothing is rescaled                                *)
(* ===================================================================== *)

(** C9. With fs = sqrt(fs1^2 + fs2^2 + fs3^2) and fn the limit
    (xmu * fabs(ccel*r), plus M_PI * radmin * _c when the pair is bonded):
    if fs < fn the rescaling step returns its state and the tangential
    force as they are, so that after the contact law the shear
    displacement is the rotated one, the tangential force is
    -(kt * shear + meff * gammat * vtr) and is_cohesive is unchanged. *)
Theorem C9_no_rescale_below_limit (P : PairCFM) (A : Atom) (i j : nat)
    (ID1 ID2 : Z) (jj : nat) (g : Geom) (c : Contact) :
  let k := kinematics P A i j g (_D c) in
  let cr := rotate_shear jj g k (integrate_shear P jj k c) in
  let fsv := shear_force P jj k cr in
  let fn := if cohesive c ID1 ID2
            then xmu P * fabs (ccel k * r g) + M_PI * radmin g * _c P
            else xmu P * fabs (ccel k * r g) in
  let fs := norm3 fsv in
  let res := contact_law P A i j ID1 ID2 jj g c in
  (fs <? fn) = true ->
  (forall (shrmag : float) (ca : Contact) (v : vec3),
      rescale P ID1 ID2 jj g k shrmag fn fs ca v = (ca, v))
  /\ allshear res.1 = allshear cr
  /\ res.2 = fsv
  /\ is_cohesive res.1 = is_cohesive c.
Proof.
  intros k cr fsv fn fs res Hlt.
  assert (Hnot : (fn <=? fs) = false) by (by apply float_ltb_not_geb).
  assert (Hres : forall shrmag ca v,
            rescale P ID1 ID2 jj g k shrmag fn fs ca v = (ca, v)).
  { intros shrmag ca v. unfold rescale. by rewrite Hnot. }
  split; [exact Hres|].
  assert (Hfn : (force_limit P ID1 ID2 g k cr).2 = fn)
    by apply force_limit_value.
  destruct (force_limit_allshear P ID1 ID2 g k cr) as [Hsh _].
  pose proof (force_limit_tables P ID1 ID2 g k cr) as Htb.
  subst res. unfold contact_law. fold k cr fsv fs.
  destruct (force_limit P ID1 ID2 g k cr) as [ca fn'].
  cbn [fst snd] in *. subst fn'. rewrite Hres. cbn [fst snd].
  repeat split; done.
Qed.

(* The sliding pair of C7: fs = 0.244140625 is below fn = 250. *)
Lemma C9_no_rescale_below_limit_witness :
  (contact_law cfm_style (two_atoms 1.5 1) 0 1 1 2 0
     (geometry (two_atoms 1.5 1) 0 1)
     (pair_gates cfm_style 1 1 2 0 (geometry (two_atoms 1.5 1) 0 1)
                 fresh_contact).1).2
  = V3 (-0) (-0.244140625) (-0).
Proof.
  pose proof (C9_no_rescale_below_limit cfm_style (two_atoms 1.5 1) 0 1 1 2 0
     (geometry (two_atoms 1.5 1) 0 1)
     (pair_gates cfm_style 1 1 2 0 (geometry (two_atoms 1.5 1) 0 1)
                 fresh_contact).1) as H.
  cbv zeta in H. destruct H as (_ & _ & H & _); [vm_compute; reflexivity|].
  etransitivity; [exact H|vm_compute; reflexivity].
Defined.

(* ===================================================================== *)
(* C10: settings                                                          *)
(* ===================================================================== *)

(** C10 (as the code has it). settings accepts a command exactly when
    narg is 9, force->numeric gives a value for the words 0, 2, 4, 6, 7
    and 8 and for each of the words 1 and 3 that is not NULL (the word 3
    also when the damping flag is 0), force->inumeric gives a value for
    the word 5, and the members as assigned pass the test: kn, kt,
    gamman, gammat, xmu, _c, _t and _enlargeFactor are not below 0, xmu
    is not above 10000 and dampflag is 0 or 1.  The members are the
    values of their words, except kt = kn * 2.0/7.0 for NULL and
    gammat = 0.0 if dampflag is 0, else 0.5 * gamman for NULL: gammat is
    tested after dampflag == 0 has set it to 0.0, whatever was given for
    it.  A member that is not below 0 is 0 or more, or a NaN. *)
Theorem C10_settings_accepts (numeric : string -> option float)
    (inumeric : string -> option Z) (narg : Z) (arg : list string)
    (s : Style) :
  (settings numeric inumeric narg arg = Some s <->
   narg = 9%Z
   /\ (exists (kn kt gamman gammat xmu : float) (dampflag : Z)
              (t c enlargeFactor : float),
         numeric (arg !!! 0%nat) = Some kn
         /\ (arg !!! 1%nat = "NULL" /\ kt = kn * 2 / 7
             \/ arg !!! 1%nat <> "NULL"
                /\ numeric (arg !!! 1%nat) = Some kt)
         /\ numeric (arg !!! 2%nat) = Some gamman
         /\ (arg !!! 3%nat = "NULL" /\ gammat = 0.5 * gamman
             \/ arg !!! 3%nat <> "NULL"
                /\ numeric (arg !!! 3%nat) = Some gammat)
         /\ numeric (arg !!! 4%nat) = Some xmu
         /\ inumeric (arg !!! 5%nat) = Some dampflag
         /\ numeric (arg !!! 6%nat) = Some t
         /\ numeric (arg !!! 7%nat) = Some c
         /\ numeric (arg !!! 8%nat) = Some enlargeFactor
         /\ s = mkStyle kn kt gamman
                        (if (dampflag =? 0)%Z then 0 else gammat)
                        xmu dampflag t c enlargeFactor)
   /\ (s_kn s <? 0) = false /\ (s_kt s <? 0) = false
   /\ (s_gamman s <? 0) = false /\ (s_gammat s <? 0) = false
   /\ (s_xmu s <? 0) = false /\ (10000 <? s_xmu s) = false
   /\ (s_dampflag s = 0 \/ s_dampflag s = 1)%Z
   /\ (s_c s <? 0) = false /\ (s_t s <? 0) = false
   /\ (s_enlargeFactor s <? 0) = false)
  /\ (forall x : float,
        (x <? 0) = false <-> (0 <=? x) = true \/ is_nan x = true).
Proof.
  split.
  - rewrite <- assign_style_iff. unfold settings. split.
    + destruct (narg =? 9)%Z eqn:En; cbn [negb]; [|done].
      apply Z.eqb_eq in En.
      destruct (assign_style numeric inumeric arg) as [s0|]; [|done].
      cbn [mbind option_bind]. destruct (illegal s0) eqn:Ei; [done|].
      intros [= <-]. split; [done|]. split; [done|]. by apply illegal_false.
    + intros (-> & Ha & Hlegal). cbn [Z.eqb Pos.eqb negb]. rewrite Ha.
      cbn [mbind option_bind].
      apply illegal_false in Hlegal. by rewrite Hlegal.
  - intros x. rewrite float_not_ltb. split.
    + intros [H|[H|H]]; auto. discriminate.
    + intros [H|H]; auto.
Qed.

(* "1000 250 0 0 0.5 0 1 1 1.25" is accepted; with dt = 2^-10 and no
   freeze group or rigid bodies it makes the style used above.  With
   "abc" for the tangential damping the line is refused, though the
   damping flag 0 would discard the value. *)
Lemma C10_settings_accepts_witness :
  settings word_value word_int 9
     ["1000"; "250"; "0"; "0"; "0.5"; "0"; "1"; "1"; "1.25"]
  = Some (mkStyle 1000 250 0 0 0.5 0 1 1 1.25)
  /\ configure (mkStyle 1000 250 0 0 0.5 0 1 1 1.25) 0x1p-10 0 false []
     = cfm_style
  /\ settings word_value word_int 9
       ["1000"; "250"; "0"; "abc"; "0.5"; "0"; "1"; "1"; "1.25"]
     = None.
Proof.
  split; [|split; [reflexivity|]].
  - apply (C10_settings_accepts word_value word_int 9
             ["1000"; "250"; "0"; "0"; "0.5"; "0"; "1"; "1"; "1.25"]
             (mkStyle 1000 250 0 0 0.5 0 1 1 1.25)).
    split; [reflexivity|]. split.
    + exists 1000, 250, 0, 0, 0.5, 0%Z, 1, 1, 1.25.
      split; [reflexivity|].
      split; [right; split; [discriminate|reflexivity]|].
      split; [reflexivity|].
      split; [right; split; [discriminate|reflexivity]|].
      repeat (split; [reflexivity|]). reflexivity.
    + vm_compute. repeat split; auto.
  - destruct (settings word_value word_int 9
                ["1000"; "250"; "0"; "abc"; "0.5"; "0"; "1"; "1"; "1.25"])
      as [s|] eqn:E; [|reflexivity].
    apply (C10_settings_accepts word_value word_int 9
             ["1000"; "250"; "0"; "abc"; "0.5"; "0"; "1"; "1"; "1.25"] s)
      in E.
    destruct E as (_ & (kn0 & kt0 & gn0 & gt0 & xmu0 & df0 & t0 & c0' & ef0
                        & _ & _ & _ & H3 & _) & _).
    destruct H3 as [[N _]|[_ N]]; discriminate N.
Defined.

(* "1000 NULL 0 -1 0.5 0 1 1 1.25": the tangential damping given is -1,
   the damping flag 0 turns it into 0 before the test, and settings
   accepts the line. *)
Lemma C10_counterexample_negative_gammat :
  word_value "-1" = Some (-1)
  /\ (-1 <? 0) = true
  /\ settings word_value word_int 9
       ["1000"; "NULL"; "0"; "-1"; "0.5"; "0"; "1"; "1"; "1.25"]
     = Some (mkStyle 1000 (1000 * 2 / 7) 0 0 0.5 0 1 1 1.25).
Proof. vm_compute. repeat split; reflexivity. Qed.

Lemma unset_contact_touch c jj :
  touch (unset_contact c jj) = <[jj := 0%Z]> (touch c).
Proof. reflexivity. Qed.

(* lines 234-255 on a bonded pair *)
Lemma stretch_check_bonded ID1 ID2 jj g c ig :
  cohesive c ID1 ID2 = true ->
  stretch_check ID1 ID2 jj g c ig
  = if (stretch ID1 ID2 g c <? 0)
       && (Dtensile_at c ID1 ID2 <=? fabs (stretch ID1 ID2 g c))
    then (tensile_failure ID1 ID2 jj (set_D c (stretch ID1 ID2 g c)),
          (-1)%Z)
    else (set_D c (stretch ID1 ID2 g c), ig).
Proof.
  intros Hco. unfold stretch_check. cbn [_D set_D].
  destruct (stretch ID1 ID2 g c <? 0); [|done].
  change (cohesive (set_D c (stretch ID1 ID2 g c)) ID1 ID2)
    with (cohesive c ID1 ID2).
  rewrite Hco. cbn [negb andb]. unfold beyond_tensile. cbn [_D set_D].
  change (Dtensile_at (set_D c (stretch ID1 ID2 g c)) ID1 ID2)
    with (Dtensile_at c ID1 ID2).
  change (cohesive (set_D c (stretch ID1 ID2 g c)) ID1 ID2)
    with (cohesive c ID1 ID2).
  rewrite Hco, andb_true_r. done.
Qed.

(* Without the formation block the gates are lines 220-255. *)
Lemma pair_gates_later P nt ID1 ID2 jj g c :
  (1 <= nt)%Z ->
  pair_gates P nt ID1 ID2 jj g c
  = stretch_check ID1 ID2 jj g
      (unset_nontouching ID1 ID2 jj g c 1).1
      (unset_nontouching ID1 ID2 jj g c 1).2.
Proof.
  intros Hnt. unfold pair_gates, form_bond.
  assert (Hlt : (nt <? 1)%Z = false) by (apply Z.ltb_ge; lia).
  rewrite Hlt. by destruct (unset_nontouching ID1 ID2 jj g c 1).
Qed.

(** X1. Once the first step is over (1 <= ntimestep) the gates of
    compute skip a pair (_ignore = -1) exactly when it is unbonded and
    r > radsum, or its stretch _D = (radsum - r) - _Dinitial is negative
    and the pair is unbonded or fabs(_D) >= _Dtensile.  A bonded pair
    pulled apart by less than its tolerance is therefore evaluated though
    its surfaces are apart, and an unbonded pair whose overlap is less
    than the gap stored for it is skipped though it overlaps.  A pair
    that is let through reaches the force evaluation with nothing changed
    but the member _D; a skipped pair has touch[jj] = 0. *)
Theorem X1_evaluation_gate (P : PairCFM) (ntimestep : Z) (ID1 ID2 : Z)
    (jj : nat) (g : Geom) (c : Contact) :
  (1 <= ntimestep)%Z ->
  let D := (radsum g - r g) - Dinitial_at c ID1 ID2 in
  let skip :=
    (negb (cohesive c ID1 ID2) && (radsum g <? r g))
    || ((D <? 0)
        && (negb (cohesive c ID1 ID2)
            || (Dtensile_at c ID1 ID2 <=? fabs D))) in
  let gated := pair_gates P ntimestep ID1 ID2 jj g c in
  gated.2 = (if skip then (-1)%Z else 1%Z)
  /\ (skip = false -> gated.1 = set_D c D)
  /\ (skip = true -> touch gated.1 = <[jj := 0%Z]> (touch c))
  /\ (cohesive c ID1 ID2 = true -> (D <? 0) = true ->
      (Dtensile_at c ID1 ID2 <=? fabs D) = false ->
      gated = (set_D c D, 1%Z))
  /\ (cohesive c ID1 ID2 = false -> (D <? 0) = true -> gated.2 = (-1)%Z).
Proof.
  intros Hnt D skip gated.
  assert (Hmain :
    gated.2 = (if skip then (-1)%Z else 1%Z)
    /\ (skip = false -> gated.1 = set_D c D)
    /\ (skip = true -> touch gated.1 = <[jj := 0%Z]> (touch c))).
  { subst gated skip. rewrite pair_gates_later by done.
    unfold unset_nontouching.
    destruct (cohesive c ID1 ID2) eqn:Hco; cbn [negb andb orb fst snd].
    - rewrite (stretch_check_bonded ID1 ID2 jj g c 1 Hco).
      change (stretch ID1 ID2 g c) with D.
      destruct ((D <? 0) && (Dtensile_at c ID1 ID2 <=? fabs D));
        cbn [fst snd]; repeat split; try done.
    - destruct (radsum g <? r g); cbn [fst snd orb].
      + rewrite stretch_check_unbonded by done.
        change (stretch ID1 ID2 g (unset_contact c jj)) with D.
        destruct (D <? 0); cbn [fst snd]; repeat split; try done.
        intros _. rewrite unset_contact_touch. cbn [touch set_D].
        rewrite unset_contact_touch. apply list_insert_insert_eq.
      + rewrite stretch_check_unbonded by done.
        change (stretch ID1 ID2 g c) with D.
        destruct (D <? 0); cbn [fst snd andb]; repeat split; done. }
  destruct Hmain as (H1 & H2 & H3).
  split; [exact H1|]. split; [exact H2|]. split; [exact H3|]. split.
  - intros Hco HD Hb.
    assert (Hs : skip = false) by (subst skip; by rewrite Hco, HD, Hb).
    rewrite Hs in H1. specialize (H2 Hs).
    destruct gated as [ca ig]. cbn [fst snd] in *. by subst.
  - intros Hco HD.
    assert (Hs : skip = true).
    { subst skip. rewrite Hco, HD. cbn. by rewrite orb_true_r. }
    by rewrite Hs in H1.
Qed.

(* The bonded pair of bonded_contact with its centres 1.5 + 2^-10 apart:
   the stretch is -2^-10, within the tolerance of about 0.00314, and the
   pair is let through. *)
Lemma X1_evaluation_gate_witness :
  pair_gates cfm_style 1 1 2 0 (geometry (two_atoms 1.5009765625 0) 0 1)
             bonded_contact
  = (set_D bonded_contact (-0.0009765625), 1%Z).
Proof.
  pose proof (X1_evaluation_gate cfm_style 1 1 2 0
                (geometry (two_atoms 1.5009765625 0) 0 1) bonded_contact
                ltac:(lia)) as H.
  cbv zeta in H. destruct H as (_ & _ & _ & H & _).
  etransitivity;
    [apply H; vm_compute; reflexivity | vm_compute; reflexivity].
Defined.
(* ===================================================================== *)
(* What one pair evaluation may write                                     *)
(* ===================================================================== *)

Section Footprint.

Lemma agree_outside_refl {A : Type} (S : nat -> Prop) (l : list A) :
  agree_outside S l l.
Proof. by split. Qed.

Lemma agree_outside_trans {A : Type} (S : nat -> Prop) (l1 l2 l3 : list A) :
  agree_outside S l1 l2 -> agree_outside S l2 l3 -> agree_outside S l1 l3.
Proof.
  intros [Hl1 H1] [Hl2 H2]. split; [congruence|].
  intros n Hn. rewrite H2, H1; done.
Qed.

Lemma agree_outside_insert {A : Type} (S : nat -> Prop) (l : list A)
    (i : nat) (x : A) :
  S i -> agree_outside S l (<[i := x]> l).
Proof.
  intros Hi. split; [apply length_insert|].
  intros n Hn. apply list_lookup_insert_ne. by intros ->.
Qed.

Lemma agree_outside_mono {A : Type} (S S' : nat -> Prop) (l l' : list A) :
  (forall n, S n -> S' n) -> agree_outside S l l' -> agree_outside S' l l'.
Proof. intros HS [Hl H]. split; [done|]. intros n Hn. apply H. auto. Qed.

Context (Sf : nat -> Prop) (jj : nat).

Lemma footprint_refl c : footprint Sf jj c c.
Proof. repeat split. Qed.

Lemma footprint_trans c1 c2 c3 :
  footprint Sf jj c1 c2 -> footprint Sf jj c2 c3 -> footprint Sf jj c1 c3.
Proof.
  intros (A1 & B1 & C1 & D1) (A2 & B2 & C2 & D2).
  split; [by eapply agree_outside_trans|].
  split; [by eapply agree_outside_trans|].
  split; by eapply agree_outside_trans.
Qed.

Lemma footprint_set_history c x k v :
  (k = 0 \/ k = 1 \/ k = 2 \/ k = 5 \/ k = 6)%nat ->
  footprint Sf jj c x -> footprint Sf jj c (set_history x jj k v).
Proof.
  intros Hk (HA & HB & HC & HD). split; [|done].
  eapply agree_outside_trans; [exact HA|].
  apply agree_outside_insert. unfold slot_cells.
  destruct Hk as [->|[->|[->|[->| ->]]]]; auto 6.
Qed.

Lemma footprint_set_touch c x v :
  footprint Sf jj c x -> footprint Sf jj c (set_touch x jj v).
Proof.
  intros (HA & HB & HC & HD). split; [done|]. split; [|done].
  eapply agree_outside_trans; [exact HB|]. by apply agree_outside_insert.
Qed.

Lemma footprint_set_tables c x co di dte :
  footprint Sf jj c x -> footprint Sf jj c (set_tables x co di dte).
Proof. done. Qed.

Lemma footprint_set_D c x d :
  footprint Sf jj c x -> footprint Sf jj c (set_D x d).
Proof. done. Qed.

Lemma footprint_set_maxShearForce c x m :
  footprint Sf jj c x -> footprint Sf jj c (set_maxShearForce x m).
Proof. done. Qed.

Lemma footprint_set_f c x n v :
  Sf n -> footprint Sf jj c x ->
  footprint Sf jj c (set_f x (<[n := v]> (atom_f x))).
Proof.
  intros Hn (HA & HB & HC & HD). split; [done|]. split; [done|].
  split; [|done].
  eapply agree_outside_trans; [exact HC|]. by apply agree_outside_insert.
Qed.

Lemma footprint_set_torque c x n v :
  Sf n -> footprint Sf jj c x ->
  footprint Sf jj c (set_torque x (<[n := v]> (atom_torque x))).
Proof.
  intros Hn (HA & HB & HC & HD). split; [done|]. split; [done|].
  split; [done|].
  eapply agree_outside_trans; [exact HD|]. by apply agree_outside_insert.
Qed.

End Footprint.

(* Peels the setters off the state on the right. *)
Ltac footprint_setters :=
  repeat first
    [ assumption
    | apply footprint_refl
    | apply footprint_set_tables
    | apply footprint_set_D
    | apply footprint_set_maxShearForce
    | apply footprint_set_touch
    | apply footprint_set_history; [lia|] ].

Lemma footprint_unset_contact Sf jj c x :
  footprint Sf jj c x -> footprint Sf jj c (unset_contact x jj).
Proof. intros H. unfold unset_contact, zero_shear. footprint_setters. Qed.

Lemma footprint_set_bond Sf jj c x ID1 ID2 b :
  footprint Sf jj c x -> footprint Sf jj c (set_bond x ID1 ID2 b).
Proof. done. Qed.

Lemma footprint_form_bond Sf P nt ID1 ID2 jj g c ig :
  footprint Sf jj c (form_bond P nt ID1 ID2 jj g c ig).1.
Proof.
  unfold form_bond. destruct (nt <? 1)%Z; [|apply footprint_refl].
  destruct (in_bond_range P g); cbn [fst]; footprint_setters.
Qed.

Lemma footprint_unset_nontouching Sf ID1 ID2 jj g c ig :
  footprint Sf jj c (unset_nontouching ID1 ID2 jj g c ig).1.
Proof.
  unfold unset_nontouching. destruct (_ && _); cbn [fst];
    [apply footprint_unset_contact|]; apply footprint_refl.
Qed.

Lemma footprint_tensile_failure Sf ID1 ID2 jj c x :
  footprint Sf jj c x -> footprint Sf jj c (tensile_failure ID1 ID2 jj x).
Proof.
  intros H. unfold tensile_failure. apply footprint_set_bond.
  apply footprint_set_history; [lia|]. by apply footprint_unset_contact.
Qed.

Lemma footprint_stretch_check Sf ID1 ID2 jj g c ig :
  footprint Sf jj c (stretch_check ID1 ID2 jj g c ig).1.
Proof.
  unfold stretch_check. destruct (_D _ <? 0); [|cbn [fst]; footprint_setters].
  destruct (negb _); destruct (_ && _); cbn [fst];
    repeat first [ apply footprint_tensile_failure
                 | apply footprint_unset_contact
                 | apply footprint_set_D | apply footprint_refl ].
Qed.

Lemma footprint_pair_gates Sf P nt ID1 ID2 jj g c :
  footprint Sf jj c (pair_gates P nt ID1 ID2 jj g c).1.
Proof.
  unfold pair_gates.
  pose proof (footprint_form_bond Sf P nt ID1 ID2 jj g c 1) as H1.
  destruct (form_bond P nt ID1 ID2 jj g c 1) as [c1 ig1].
  pose proof (footprint_unset_nontouching Sf ID1 ID2 jj g c1 ig1) as H2.
  destruct (unset_nontouching ID1 ID2 jj g c1 ig1) as [c2 ig2].
  cbn [fst] in *.
  eapply footprint_trans; [exact H1|].
  eapply footprint_trans; [exact H2|]. apply footprint_stretch_check.
Qed.

Lemma footprint_shear_failure Sf ID1 ID2 jj g c x fsv :
  footprint Sf jj c x ->
  footprint Sf jj c (shear_failure ID1 ID2 jj g x fsv).1.
Proof.
  intros H. unfold shear_failure. destruct (cohesive x ID1 ID2); [|done].
  destruct (_ <? _); cbn [fst];
    repeat first [ apply footprint_unset_contact | apply footprint_set_bond
                 | apply footprint_set_history; [lia|] | assumption ].
Qed.

Lemma footprint_contact_law Sf P A i j ID1 ID2 jj g c :
  footprint Sf jj c (contact_law P A i j ID1 ID2 jj g c).1.
Proof.
  rewrite contact_law_rescale. cbv zeta.
  set (k := kinematics P A i j g (_D c)).
  set (cr := rotate_shear jj g k (integrate_shear P jj k c)).
  assert (Hcr : footprint Sf jj c cr).
  { subst cr. unfold rotate_shear, integrate_shear. footprint_setters. }
  assert (Hl : footprint Sf jj c (force_limit P ID1 ID2 g k cr).1).
  { unfold force_limit. destruct (cohesive cr ID1 ID2); cbn [fst];
      footprint_setters. }
  unfold rescale. destruct (_ <=? _); [|done].
  destruct (negb _).
  - assert (Hs : footprint Sf jj c
                   (scale_shear P jj k (force_limit P ID1 ID2 g k cr).2
                      (norm3 (shear_force P jj k cr))
                      (force_limit P ID1 ID2 g k cr).1
                      (shear_force P jj k cr)).1).
    { unfold scale_shear. cbn [fst]. footprint_setters. }
    destruct (scale_shear _ _ _ _ _ _ _) as [ca fsa]. cbn [fst] in Hs.
    by apply footprint_shear_failure.
  - by apply footprint_shear_failure.
Qed.

Lemma footprint_apply_forces A i j jj g k fsv c x :
  let Sf := fun n => n = i \/ (owns_j A j = true /\ n = j) in
  footprint Sf jj c x ->
  footprint Sf jj c (apply_forces A i j g k fsv x).
Proof.
  intros Sf H. unfold apply_forces. cbv zeta.
  destruct (owns_j A j) eqn:Hown.
  - apply footprint_set_torque; [subst Sf; cbn; auto|].
    apply footprint_set_f; [subst Sf; cbn; auto|].
    apply footprint_set_torque; [subst Sf; cbn; auto|].
    apply footprint_set_f; [subst Sf; cbn; auto|]. done.
  - apply footprint_set_torque; [subst Sf; cbn; auto|].
    apply footprint_set_f; [subst Sf; cbn; auto|]. done.
Qed.

Lemma footprint_pair_eval P A nt i j jj c :
  footprint (fun n => n = i \/ (owns_j A j = true /\ n = j)) jj c
            (pair_eval P A nt i j jj c).
Proof.
  unfold pair_eval.
  pose proof (footprint_pair_gates
    (fun n => n = i \/ (owns_j A j = true /\ n = j)) P nt
    (atom_tag A !!! i) (atom_tag A !!! j) jj (geometry A i j) c) as Hg.
  destruct (pair_gates _ _ _ _ _ _ _) as [ca ig]. cbn [fst] in Hg.
  destruct (negb _); [|done].
  unfold force_eval.
  pose proof (footprint_contact_law
    (fun n => n = i \/ (owns_j A j = true /\ n = j)) P A i j
    (atom_tag A !!! i) (atom_tag A !!! j) jj (geometry A i j) ca) as Hc.
  destruct (contact_law _ _ _ _ _ _ _ _ _) as [cb fsv]. cbn [fst] in Hc.
  apply footprint_apply_forces.
  eapply footprint_trans; [exact Hg|exact Hc].
Qed.
(** X2. The evaluation of the pair (i, j) in slot jj writes at most the
    cells 3*jj, 3*jj+1, 3*jj+2, 3*jj+5 and 3*jj+6 of allshear, the entry
    touch[jj], and the rows i and j of f and torque; every other cell,
    entry and row is as before and no array changes its length.  When the
    evaluation does not own the contribution to j (newton_pair is 0 and
    j >= nlocal) the rows of j are as before too. *)
Theorem X2_pair_footprint (P : PairCFM) (A : Atom) (ntimestep : Z)
    (i j jj : nat) (c : Contact) :
  let c' := pair_eval P A ntimestep i j jj c in
  length (allshear c') = length (allshear c)
  /\ length (touch c') = length (touch c)
  /\ length (atom_f c') = length (atom_f c)
  /\ length (atom_torque c') = length (atom_torque c)
  /\ (forall n : nat,
        n <> (3 * jj)%nat -> n <> (3 * jj + 1)%nat -> n <> (3 * jj + 2)%nat ->
        n <> (3 * jj + 5)%nat -> n <> (3 * jj + 6)%nat ->
        allshear c' !! n = allshear c !! n)
  /\ (forall n : nat, n <> jj -> touch c' !! n = touch c !! n)
  /\ (forall n : nat, n <> i -> n <> j ->
        atom_f c' !! n = atom_f c !! n
        /\ atom_torque c' !! n = atom_torque c !! n)
  /\ (owns_j A j = false -> j <> i ->
      atom_f c' !! j = atom_f c !! j
      /\ atom_torque c' !! j = atom_torque c !! j).
Proof.
  intros c'.
  destruct (footprint_pair_eval P A ntimestep i j jj c)
    as ([La Ha] & [Lt Ht] & [Lf Hf] & [Lq Hq]).
  fold c' in La, Ha, Lt, Ht, Lf, Hf, Lq, Hq.
  do 4 (split; [done|]). split; [|split; [|split]].
  - intros n H0 H1 H2 H5 H6. apply Ha. unfold slot_cells, hist_ix. lia.
  - intros n Hn. by apply Ht.
  - intros n Hi Hj. split; [apply Hf|apply Hq]; intros [?|[_ ?]]; done.
  - intros Hown Hji.
    split; [apply Hf|apply Hq]; intros [?|[? _]]; congruence.
Qed.

(* A loop whose steps each write inside S writes inside S. *)
Lemma fold_left_agree_outside {A B : Type} (S : nat -> Prop)
    (proj : A -> list B) (step : A -> nat -> A) (xs : list nat) (a : A) :
  (forall (x : nat) (a' : A), x ∈ xs ->
      agree_outside S (proj a') (proj (step a' x))) ->
  agree_outside S (proj a) (proj (fold_left step xs a)).
Proof.
  revert a. induction xs as [|x xs IH]; intros a Hstep; simpl.
  - apply agree_outside_refl.
  - eapply agree_outside_trans.
    + apply Hstep. by left.
    + apply IH. intros y a' Hy. apply Hstep. by right.
Qed.

(* The loop over the neighbours of atom i, array by array. *)
Lemma neighbor_loop_agree (P : PairCFM) (A : Atom) (ntimestep : Z)
    (NL : NeighList) (i : nat) (c : Contact) :
  let jnum := numneigh NL !!! i in
  let jlist := firstneigh NL !!! i in
  let c' := neighbor_loop P A ntimestep NL i c in
  agree_outside (fun n : nat => (n < 3 * jnum + 4)%nat)
                (allshear c) (allshear c')
  /\ agree_outside (fun n : nat => (n < jnum)%nat) (touch c) (touch c')
  /\ agree_outside
       (fun n : nat =>
          n = i \/ exists jj : nat,
                     (jj < jnum)%nat /\ n = neighbor_index A jlist jj)
       (atom_f c) (atom_f c')
  /\ agree_outside
       (fun n : nat =>
          n = i \/ exists jj : nat,
                     (jj < jnum)%nat /\ n = neighbor_index A jlist jj)
       (atom_torque c) (atom_torque c').
Proof.
  intros jnum jlist c'.
  set (Sf := fun n : nat =>
               n = i \/ exists jj : nat,
                          (jj < jnum)%nat /\ n = neighbor_index A jlist jj).
  set (Sa := fun n : nat => (n < 3 * jnum + 4)%nat).
  set (St := fun n : nat => (n < jnum)%nat).
  assert (Hstep : forall (jj : nat) (a : Contact), jj ∈ seq 0 jnum ->
            agree_outside Sa (allshear a)
              (allshear (pair_body P A ntimestep i jlist a jj))
            /\ agree_outside St (touch a)
                 (touch (pair_body P A ntimestep i jlist a jj))
            /\ agree_outside Sf (atom_f a)
                 (atom_f (pair_body P A ntimestep i jlist a jj))
            /\ agree_outside Sf (atom_torque a)
                 (atom_torque (pair_body P A ntimestep i jlist a jj))).
  { intros jj a Hjj. apply elem_of_seq in Hjj.
    destruct (footprint_pair_eval P A ntimestep i
                (neighbor_index A jlist jj) jj a) as (Ha & Ht & Hf & Hq).
    unfold pair_body. repeat split.
    - apply Ha.
    - intros n Hn. apply Ha. subst Sa. cbn in Hn.
      unfold slot_cells, hist_ix. lia.
    - apply Ht.
    - intros n Hn. apply Ht. subst St. cbn in Hn. lia.
    - apply Hf.
    - intros n Hn. apply Hf. subst Sf. cbn in Hn.
      intros [->|[_ ->]]; apply Hn; [by left|right]. exists jj. split; [lia|done].
    - apply Hq.
    - intros n Hn. apply Hq. subst Sf. cbn in Hn.
      intros [->|[_ ->]]; apply Hn; [by left|right]. exists jj. split; [lia|done]. }
  split; [|split; [|split]].
  - apply (fold_left_agree_outside Sa allshear). intros. by apply Hstep.
  - apply (fold_left_agree_outside St touch). intros. by apply Hstep.
  - apply (fold_left_agree_outside Sf atom_f). intros. by apply Hstep.
  - apply (fold_left_agree_outside Sf atom_torque). intros. by apply Hstep.
Qed.

(** X3. The loop of compute over the jnum neighbours of atom i writes, in
    f and torque, at most the row of i and the rows of the neighbours
    j = jlist[jj] & NEIGHMASK, jj < jnum; in touch at most the first jnum
    entries; and in allshear at most the first 3*jnum+4 cells, so that
    the cells from 3*jnum+4 on (of the 7*jnum the history fix holds) are
    never written.  No array changes its length. *)
Theorem X3_neighbor_loop_footprint (P : PairCFM) (A : Atom) (ntimestep : Z)
    (NL : NeighList) (i : nat) (c : Contact) :
  let jnum := numneigh NL !!! i in
  let jlist := firstneigh NL !!! i in
  let c' := neighbor_loop P A ntimestep NL i c in
  length (allshear c') = length (allshear c)
  /\ length (touch c') = length (touch c)
  /\ length (atom_f c') = length (atom_f c)
  /\ length (atom_torque c') = length (atom_torque c)
  /\ (forall n : nat, (3 * jnum + 4 <= n)%nat ->
        allshear c' !! n = allshear c !! n)
  /\ (forall n : nat, (jnum <= n)%nat -> touch c' !! n = touch c !! n)
  /\ (forall n : nat, n <> i ->
        (forall jj : nat, (jj < jnum)%nat -> n <> neighbor_index A jlist jj) ->
        atom_f c' !! n = atom_f c !! n
        /\ atom_torque c' !! n = atom_torque c !! n).
Proof.
  intros jnum jlist c'.
  destruct (neighbor_loop_agree P A ntimestep NL i c)
    as ([La Ha] & [Lt Ht] & [Lf Hf] & [Lq Hq]).
  fold jnum jlist c' in La, Ha, Lt, Ht, Lf, Hf, Lq, Hq.
  do 4 (split; [done|]). split; [|split].
  - intros n Hn. apply Ha. lia.
  - intros n Hn. apply Ht. lia.
  - intros n Hi Hnb.
    split; [apply Hf|apply Hq];
      (intros [?|(jj & Hjj & ->)]; [done|]); by apply (Hnb jj).
Qed.

Lemma compute_footprint_refl A NL s : compute_footprint A NL s s.
Proof. repeat split. Qed.

Lemma compute_footprint_trans A NL s1 s2 s3 :
  compute_footprint A NL s1 s2 -> compute_footprint A NL s2 s3 ->
  compute_footprint A NL s1 s3.
Proof.
  intros (A1 & B1 & C1 & D1 & E1) (A2 & B2 & C2 & D2 & E2).
  split; [by eapply agree_outside_trans|].
  split; [by eapply agree_outside_trans|].
  split; [|split; by eapply agree_outside_trans].
  intros k. destruct (C1 k) as [? ?], (C2 k) as [? ?]. split; congruence.
Qed.

Lemma fold_left_compute_footprint A NL (step : Contact * History -> nat ->
    Contact * History) (xs : list nat) (s : Contact * History) :
  (forall (x : nat) (s' : Contact * History), x ∈ xs ->
      compute_footprint A NL s' (step s' x)) ->
  compute_footprint A NL s (fold_left step xs s).
Proof.
  revert s. induction xs as [|x xs IH]; intros s Hstep; simpl.
  - apply compute_footprint_refl.
  - eapply compute_footprint_trans.
    + apply Hstep. by left.
    + apply IH. intros y s' Hy. apply Hstep. by right.
Qed.

(* Storing a row back keeps the rows of the other atoms and, when the row
   has the length of the one loaded, every row length. *)
Lemma store_row_agree {B : Type} (rows : list (list B)) (i : nat)
    (row : list B) (S : nat -> Prop) :
  S i -> length row = length (rows !!! i) ->
  agree_outside S rows (<[i := row]> rows)
  /\ forall k : nat, length (<[i := row]> rows !!! k) = length (rows !!! k).
Proof.
  intros Hi Hlen. split; [by apply agree_outside_insert|].
  intros k. destruct (decide (i = k)) as [<-|Hne].
  - destruct (decide (i < length rows)%nat) as [Hlt|Hge].
    + by rewrite list_lookup_total_insert_eq.
    + by rewrite list_insert_ge by lia.
  - by rewrite list_lookup_total_insert_ne.
Qed.

Lemma atom_body_footprint P A nt NL s ii :
  (ii < inum NL)%nat ->
  compute_footprint A NL s (atom_body P A nt NL s ii).
Proof.
  intros Hii. unfold atom_body. set (i := ilist NL !!! ii).
  destruct (neighbor_loop_agree P A nt NL i (load_history s.2 i s.1))
    as ([La _] & [Lt _] & [Lf Hf] & [Lq Hq]).
  cbv zeta in La, Lt, Lf, Lq, Hf, Hq.
  set (c' := neighbor_loop P A nt NL i (load_history s.2 i s.1)) in *.
  cbn [allshear touch atom_f atom_torque load_history]
    in La, Lt, Lf, Lq, Hf, Hq.
  assert (Hl : listed NL i) by (exists ii; done).
  destruct (store_row_agree (firsttouch s.2) i (touch c') (listed NL) Hl Lt)
    as [Ht1 Ht2].
  destruct (store_row_agree (firstshear s.2) i (allshear c') (listed NL) Hl La)
    as [Ha1 Ha2].
  unfold compute_footprint. cbn [fst snd store_history firsttouch firstshear].
  split; [done|]. split; [done|]. split; [by intros k|].
  split; (split; [done|]); intros n Hn; [apply Hf|apply Hq];
    (intros [->|(jj & Hjj & ->)]; apply Hn; exists ii;
     (split; [done|]); [by left|right; by exists jj]).
Qed.

(** X4. A call of compute changes the history store only in the rows
    firsttouch[i] and firstshear[i] of the atoms i = ilist[ii], ii < inum,
    and keeps the length of every row; it changes f and torque only in the
    rows of those atoms and of their neighbours jlist[jj] & NEIGHMASK.
    The rows of every other atom are as before, and no array changes its
    length. *)
Theorem X4_compute_footprint (P : PairCFM) (A : Atom) (ntimestep : Z)
    (NL : NeighList) (s : Contact * History) :
  let s' := compute P A ntimestep NL s in
  length (firsttouch s'.2) = length (firsttouch s.2)
  /\ length (firstshear s'.2) = length (firstshear s.2)
  /\ length (atom_f s'.1) = length (atom_f s.1)
  /\ length (atom_torque s'.1) = length (atom_torque s.1)
  /\ (forall k : nat,
        length (firsttouch s'.2 !!! k) = length (firsttouch s.2 !!! k)
        /\ length (firstshear s'.2 !!! k) = length (firstshear s.2 !!! k))
  /\ (forall k : nat,
        (forall ii : nat, (ii < inum NL)%nat -> k <> ilist NL !!! ii) ->
        firsttouch s'.2 !! k = firsttouch s.2 !! k
        /\ firstshear s'.2 !! k = firstshear s.2 !! k)
  /\ (forall n : nat,
        (forall ii : nat, (ii < inum NL)%nat ->
           n <> ilist NL !!! ii
           /\ forall jj : nat,
                (jj < numneigh NL !!! (ilist NL !!! ii))%nat ->
                n <> neighbor_index A (firstneigh NL !!! (ilist NL !!! ii))
                                    jj) ->
        atom_f s'.1 !! n = atom_f s.1 !! n
        /\ atom_torque s'.1 !! n = atom_torque s.1 !! n).
Proof.
  intros s'.
  assert (H : compute_footprint A NL (create_tables ntimestep NL s.1, s.2) s').
  { subst s'. unfold compute. apply fold_left_compute_footprint.
    intros ii s0 Hii. apply elem_of_seq in Hii.
    apply atom_body_footprint. lia. }
  assert (Hc : atom_f (create_tables ntimestep NL s.1) = atom_f s.1
               /\ atom_torque (create_tables ntimestep NL s.1)
                  = atom_torque s.1).
  { unfold create_tables. by destruct (ntimestep =? 0)%Z. }
  destruct Hc as [Hcf Hcq].
  destruct H as ([Lt Ht] & [La Ha] & Hrows & [Lf Hf] & [Lq Hq]).
  cbn [fst snd] in *. rewrite Hcf in Lf, Hf. rewrite Hcq in Lq, Hq.
  do 4 (split; [done|]). split; [exact Hrows|]. split.
  - intros k Hk. split; [apply Ht|apply Ha];
      intros (ii & Hii & ->); by apply (Hk ii).
  - intros n Hn. split; [apply Hf|apply Hq];
      (intros (ii & Hii & [->|(jj & Hjj & ->)]);
       destruct (Hn ii Hii) as [H1 H2]; [done|by apply (H2 jj)]).
Qed.
(* ===================================================================== *)
(* The bond geometry after the first step                                 *)
(* ===================================================================== *)

Lemma same_geometry_trans c1 c2 c3 :
  same_geometry c1 c2 -> same_geometry c2 c3 -> same_geometry c1 c3.
Proof. intros [? ?] [? ?]. split; congruence. Qed.

Lemma stretch_check_geometry ID1 ID2 jj g c ig :
  same_geometry c (stretch_check ID1 ID2 jj g c ig).1.
Proof.
  unfold stretch_check. destruct (_D _ <? 0); [|done].
  destruct (negb _); destruct (_ && _); done.
Qed.

Lemma unset_nontouching_geometry ID1 ID2 jj g c ig :
  same_geometry c (unset_nontouching ID1 ID2 jj g c ig).1.
Proof. unfold unset_nontouching. by destruct (_ && _). Qed.

Lemma shear_failure_geometry ID1 ID2 jj g c fsv :
  same_geometry c (shear_failure ID1 ID2 jj g c fsv).1.
Proof.
  unfold shear_failure. destruct (cohesive c ID1 ID2); [|done].
  by destruct (_ <? _).
Qed.

Lemma contact_law_geometry P A i j ID1 ID2 jj g c :
  same_geometry c (contact_law P A i j ID1 ID2 jj g c).1.
Proof.
  rewrite contact_law_rescale. cbv zeta.
  set (k := kinematics P A i j g (_D c)).
  set (cr := rotate_shear jj g k (integrate_shear P jj k c)).
  assert (Hl : same_geometry c (force_limit P ID1 ID2 g k cr).1).
  { unfold force_limit. by destruct (cohesive cr ID1 ID2). }
  unfold rescale. destruct (_ <=? _); [|done].
  destruct (negb _).
  - assert (Hs : same_geometry c
                   (scale_shear P jj k (force_limit P ID1 ID2 g k cr).2
                      (norm3 (shear_force P jj k cr))
                      (force_limit P ID1 ID2 g k cr).1
                      (shear_force P jj k cr)).1) by exact Hl.
    destruct (scale_shear _ _ _ _ _ _ _) as [ca fsa]. cbn [fst] in Hs.
    eapply same_geometry_trans; [exact Hs|apply shear_failure_geometry].
  - eapply same_geometry_trans; [exact Hl|apply shear_failure_geometry].
Qed.

Lemma pair_eval_geometry P A nt i j jj c :
  (1 <= nt)%Z -> same_geometry c (pair_eval P A nt i j jj c).
Proof.
  intros Hnt. unfold pair_eval. rewrite pair_gates_later by done.
  set (ID1 := atom_tag A !!! i). set (ID2 := atom_tag A !!! j).
  set (g := geometry A i j).
  pose proof (unset_nontouching_geometry ID1 ID2 jj g c 1) as H1.
  destruct (unset_nontouching ID1 ID2 jj g c 1) as [c1 ig1].
  pose proof (stretch_check_geometry ID1 ID2 jj g c1 ig1) as H2.
  cbn [fst snd] in *.
  destruct (stretch_check ID1 ID2 jj g c1 ig1) as [c2 ig2].
  cbn [fst] in H2.
  assert (H12 : same_geometry c c2) by (by eapply same_geometry_trans).
  destruct (negb _); [|done].
  unfold force_eval.
  pose proof (contact_law_geometry P A i j ID1 ID2 jj g c2) as H3.
  destruct (contact_law P A i j ID1 ID2 jj g c2) as [c3 fsv].
  cbn [fst] in H3.
  eapply same_geometry_trans; [by eapply same_geometry_trans|].
  unfold apply_forces. by destruct (owns_j A j).
Qed.

Lemma compute_geometry P A nt NL s :
  (1 <= nt)%Z -> same_geometry s.1 (compute P A nt NL s).1.
Proof.
  intros Hnt. unfold compute, create_tables.
  assert (E : (nt =? 0)%Z = false) by (apply Z.eqb_neq; lia).
  rewrite E. generalize (seq 0 (inum NL)) as iis. intros iis.
  assert (Hgen : forall s0 : Contact * History,
            same_geometry s0.1 (fold_left (atom_body P A nt NL) iis s0).1).
  { induction iis as [|ii iis IH]; intros s0; simpl; [done|].
    eapply same_geometry_trans; [|apply IH].
    unfold atom_body. cbn [fst]. unfold neighbor_loop.
    generalize (seq 0 (numneigh NL !!! (ilist NL !!! ii))) as js.
    intros js.
    assert (Hjs : forall c0 : Contact,
              same_geometry c0
                (fold_left (pair_body P A nt (ilist NL !!! ii)
                              (firstneigh NL !!! (ilist NL !!! ii))) js c0)).
    { induction js as [|jj js IHj]; intros c0; simpl; [done|].
      eapply same_geometry_trans; [|apply IHj].
      unfold pair_body. by apply pair_eval_geometry. }
    apply (Hjs (load_history s0.2 (ilist NL !!! ii) s0.1)). }
  apply (Hgen (s.1, s.2)).
Qed.

(** X5. Once the first step is over (1 <= ntimestep) a call of compute
    writes neither _Dinitial nor _Dtensile, and every pair that is bonded
    after the call was bonded before it.  In particular the initial gap
    and the tensile tolerance of a bond that breaks stay as they were
    stored when it formed (they are not set to zero). *)
Theorem X5_geometry_kept_after_first_step (P : PairCFM) (A : Atom)
    (ntimestep : Z) (NL : NeighList) (s : Contact * History) :
  (1 <= ntimestep)%Z ->
  let s' := compute P A ntimestep NL s in
  _Dinitial s'.1 = _Dinitial s.1
  /\ _Dtensile s'.1 = _Dtensile s.1
  /\ (forall ID1 ID2 : Z,
        Dinitial_at s'.1 ID1 ID2 = Dinitial_at s.1 ID1 ID2
        /\ Dtensile_at s'.1 ID1 ID2 = Dtensile_at s.1 ID1 ID2
        /\ (cohesive s'.1 ID1 ID2 = true -> cohesive s.1 ID1 ID2 = true)).
Proof.
  intros Hnt s'. destruct (compute_geometry P A ntimestep NL s Hnt) as [Hi Ht].
  fold s' in Hi, Ht. split; [exact Hi|]. split; [exact Ht|].
  intros ID1 ID2. unfold Dinitial_at, Dtensile_at. rewrite Hi, Ht.
  split; [done|]. split; [done|].
  intros Hco. destruct (cohesive s.1 ID1 ID2) eqn:E; [done|].
  assert (Hw : bond_writes ntimestep (is_cohesive s.1) (is_cohesive s'.1)).
  { pose proof (compute_writes ntimestep P A NL s) as Hw.
    unfold create_tables in Hw.
    assert (E0 : (ntimestep =? 0)%Z = false) by (apply Z.eqb_neq; lia).
    by rewrite E0 in Hw. }
  pose proof (bond_writes_cleared ntimestep _ _ (ID1 - 1)%Z (ID2 - 1)%Z
                Hnt Hw E) as Hf.
  unfold cohesive in Hco. congruence.
Qed.

(* The three atoms of star_step1: the bond 1-2 has failed in tension and
   its initial gap is still 0.5. *)
Lemma X5_geometry_kept_after_first_step_witness :
  Dinitial_at star_step1.1 1 2 = 0.5 /\ cohesive star_step1.1 1 2 = false.
Proof.
  pose proof (X5_geometry_kept_after_first_step cfm_style (three_atoms 1.75)
                1 star_list star_step0 ltac:(lia)) as H.
  cbv zeta in H. destruct H as (_ & _ & H). destruct (H 1%Z 2%Z) as (H1 & _).
  split; [|vm_compute; reflexivity].
  etransitivity; [exact H1|vm_compute; reflexivity].
Defined.
(* ===================================================================== *)
(* Shear failure                                                          *)
(* ===================================================================== *)

Lemma force_limit_bonded P ID1 ID2 g k c :
  cohesive c ID1 ID2 = true ->
  force_limit P ID1 ID2 g k c
  = (set_maxShearForce c (M_PI * radmin g * _c P),
     xmu P * fabs (ccel k * r g) + M_PI * radmin g * _c P).
Proof. intros H. unfold force_limit. by rewrite H. Qed.

(* lines 366-379 on a bonded pair *)
Lemma shear_failure_bonded ID1 ID2 jj g c fsv :
  cohesive c ID1 ID2 = true ->
  shear_failure ID1 ID2 jj g c fsv
  = let ca := set_bond (set_history c jj 6 (history c jj 6 + 1))
                       ID1 ID2 false in
    if radsum g * radsum g <? rsq g
    then (unset_contact ca jj, V3 0 0 0) else (ca, fsv).
Proof. intros H. unfold shear_failure. by rewrite H. Qed.

(* The state and force that reach line 366 when fs >= fn. *)
Lemma contact_law_bonded_over P A i j ID1 ID2 jj g c :
  let k := kinematics P A i j g (_D c) in
  let ci := integrate_shear P jj k c in
  let shrmag := shear_magnitude jj ci in
  let cr := rotate_shear jj g k ci in
  let fsv := shear_force P jj k cr in
  let fn := xmu P * fabs (ccel k * r g) + M_PI * radmin g * _c P in
  let fs := norm3 fsv in
  let cm := set_maxShearForce cr (M_PI * radmin g * _c P) in
  cohesive c ID1 ID2 = true ->
  (fn <=? fs) = true ->
  contact_law P A i j ID1 ID2 jj g c
  = shear_failure ID1 ID2 jj g
      (if negb (shrmag =? 0) then (scale_shear P jj k fn fs cm fsv).1 else cm)
      (if negb (shrmag =? 0)
       then V3 (c0 fsv * (fn / fs)) (c1 fsv * (fn / fs)) (c2 fsv * (fn / fs))
       else V3 0 0 0).
Proof.
  intros k ci shrmag cr fsv fn fs cm Hco Hge.
  rewrite contact_law_rescale. cbv zeta. fold k ci shrmag cr fsv fs.
  rewrite (force_limit_bonded P ID1 ID2 g k cr Hco). cbn [fst snd].
  fold fn cm. unfold rescale. rewrite Hge.
  by destruct (negb (shrmag =? 0)).
Qed.

(** X6. When a bonded pair reaches the force evaluation with a tangential
    force fs at or above the limit fn = xmu * fabs(ccel*r)
    + M_PI * radmin * _c, the bond fails in shear: is_cohesive becomes
    false in both directions, _history[6] is one more than before and
    _history[5] is as before.  If moreover rsq > radsum * radsum the
    contact is unset (touch[jj] = 0, _history[0..2] = 0) and the
    tangential force is zero; otherwise touch[jj] = 1 and the tangential
    force is the trial force times fn/fs (zero when shrmag == 0).  The
    pair stays unbonded through every later pair evaluation and call of
    compute with 1 <= ntimestep, and through whatever leaves is_cohesive
    alone.  It does not through a pass with ntimestep < 1 (the rest of the
    formation pass, or a setup repeated at step 0): there the formation
    block sets the flag again for a pair in range, whatever the state. *)
Theorem X6_shear_failure (P : PairCFM) (A : Atom) (i j : nat)
    (ID1 ID2 : Z) (jj : nat) (g : Geom) (c : Contact) :
  let k := kinematics P A i j g (_D c) in
  let ci := integrate_shear P jj k c in
  let shrmag := shear_magnitude jj ci in
  let cr := rotate_shear jj g k ci in
  let fsv := shear_force P jj k cr in
  let fn := xmu P * fabs (ccel k * r g) + M_PI * radmin g * _c P in
  let fs := norm3 fsv in
  let res := contact_law P A i j ID1 ID2 jj g c in
  cohesive c ID1 ID2 = true ->
  (fn <=? fs) = true ->
  (hist_ix jj 6 < length (allshear c))%nat ->
  (jj < length (touch c))%nat ->
  cohesive res.1 ID1 ID2 = false /\ cohesive res.1 ID2 ID1 = false
  /\ history res.1 jj 6 = history c jj 6 + 1
  /\ history res.1 jj 5 = history c jj 5
  /\ ((radsum g * radsum g <? rsq g) = true ->
      touch res.1 !!! jj = 0%Z
      /\ history res.1 jj 0 = 0 /\ history res.1 jj 1 = 0
      /\ history res.1 jj 2 = 0
      /\ res.2 = V3 0 0 0)
  /\ ((radsum g * radsum g <? rsq g) = false ->
      touch res.1 !!! jj = 1%Z
      /\ res.2 = if negb (shrmag =? 0)
                 then V3 (c0 fsv * (fn / fs)) (c1 fsv * (fn / fs))
                         (c2 fsv * (fn / fs))
                 else V3 0 0 0)
  /\ (forall c'' : Contact,
        later (force_eval P A i j ID1 ID2 jj g c) c'' ->
        cohesive c'' ID1 ID2 = false /\ cohesive c'' ID2 ID1 = false)
  /\ (forall (P' : PairCFM) (nt : Z) (jj' : nat) (g' : Geom)
             (c'' : Contact),
        (nt < 1)%Z -> in_bond_range P' g' = true ->
        cohesive (pair_gates P' nt ID1 ID2 jj' g' c'').1 ID1 ID2 = true
        /\ cohesive (pair_gates P' nt ID1 ID2 jj' g' c'').1 ID2 ID1 = true).
Proof.
  intros k ci shrmag cr fsv fn fs res Hco Hge Hlen Htouch.
  set (cm := set_maxShearForce cr (M_PI * radmin g * _c P)).
  set (ca := if negb (shrmag =? 0)
             then (scale_shear P jj k fn fs cm fsv).1 else cm).
  set (fsa := if negb (shrmag =? 0)
              then V3 (c0 fsv * (fn / fs)) (c1 fsv * (fn / fs))
                      (c2 fsv * (fn / fs))
              else V3 0 0 0).
  assert (Hres : res = shear_failure ID1 ID2 jj g ca fsa)
    by (by apply contact_law_bonded_over).
  assert (Hca_tab : is_cohesive ca = is_cohesive c)
    by (subst ca; by destruct (negb (shrmag =? 0))).
  assert (Hca_co : cohesive ca ID1 ID2 = true)
    by (unfold cohesive; by rewrite Hca_tab).
  assert (Hca_touch : touch ca = <[jj := 1%Z]> (touch c))
    by (subst ca; by destruct (negb (shrmag =? 0))).
  assert (Hca_len : length (allshear ca) = length (allshear c)).
  { subst ca cm cr ci.
    destruct (negb (shrmag =? 0));
      unfold scale_shear, rotate_shear, integrate_shear; simpl;
      by rewrite !length_insert. }
  assert (Hca_hist : forall n, (3 <= n)%nat ->
            history ca jj n = history c jj n).
  { intros n Hn. subst ca cm cr ci.
    destruct (negb (shrmag =? 0));
      unfold scale_shear, rotate_shear, integrate_shear; cbn [fst];
      change (history (set_maxShearForce ?x _) jj n) with (history x jj n);
      rewrite !history_set_ne by (unfold hist_ix; lia); try done.
    change (history (set_maxShearForce ?x _) jj n) with (history x jj n).
    rewrite !history_set_ne by (unfold hist_ix; lia). done. }
  rewrite (shear_failure_bonded ID1 ID2 jj g ca fsa Hca_co) in Hres.
  cbv zeta in Hres.
  set (cb := set_bond (set_history ca jj 6 (history ca jj 6 + 1))
                      ID1 ID2 false) in Hres.
  assert (Hcb_co : cohesive cb ID1 ID2 = false /\ cohesive cb ID2 ID1 = false).
  { subst cb. unfold cohesive, set_bond, set_cohesive, set_tables.
    cbn [is_cohesive]. by rewrite tbl_get_set2_l, tbl_get_set2_r. }
  assert (Hcb6 : history cb jj 6 = history c jj 6 + 1).
  { subst cb. unfold set_bond, set_cohesive.
    change (history (set_tables ?x _ _ _) jj 6) with (history x jj 6).
    rewrite history_set_eq by (by rewrite Hca_len).
    rewrite Hca_hist by lia. done. }
  assert (Hcb5 : history cb jj 5 = history c jj 5).
  { subst cb. unfold set_bond, set_cohesive.
    change (history (set_tables ?x _ _ _) jj 5) with (history x jj 5).
    rewrite history_set_ne by (unfold hist_ix; lia).
    apply Hca_hist. lia. }
  assert (Hcb_len : length (allshear cb) = length (allshear c)).
  { subst cb. unfold set_bond, set_cohesive.
    cbn [allshear set_tables]. by rewrite allshear_set_history_length. }
  assert (Hcb_touch : touch cb = <[jj := 1%Z]> (touch c)) by exact Hca_touch.
  assert (Hres_co : cohesive res.1 ID1 ID2 = false
                    /\ cohesive res.1 ID2 ID1 = false).
  { rewrite Hres. destruct (_ <? _); cbn [fst]; [|exact Hcb_co].
    exact Hcb_co. }
  split; [apply Hres_co|]. split; [apply Hres_co|].
  split; [|split; [|split; [|split; [|split]]]].
  - rewrite Hres. destruct (_ <? _); cbn [fst]; [|exact Hcb6].
    unfold unset_contact.
    rewrite zero_shear_other by (intros n Hn; unfold hist_ix; lia).
    by rewrite history_set_touch.
  - rewrite Hres. destruct (_ <? _); cbn [fst]; [|exact Hcb5].
    unfold unset_contact.
    rewrite zero_shear_other by (intros n Hn; unfold hist_ix; lia).
    by rewrite history_set_touch.
  - intros Hsep. rewrite Hres, Hsep. cbn [fst snd].
    assert (Hz : forall n, (n < 3)%nat ->
              history (unset_contact cb jj) jj n = 0).
    { intros n Hn. unfold unset_contact. apply zero_shear_zero; [done|].
      cbn [allshear set_touch]. rewrite Hcb_len. unfold hist_ix in *. lia. }
    split; [|repeat split; try (apply Hz; lia)].
    unfold unset_contact. cbn [touch zero_shear set_history set_touch].
    apply list_lookup_total_insert_eq. rewrite Hcb_touch, length_insert. done.
  - intros Hsep. rewrite Hres, Hsep. cbn [fst snd]. split; [|done].
    rewrite Hcb_touch. by apply list_lookup_total_insert_eq.
  - intros c'' Hlater.
    assert (Hfe : is_cohesive (force_eval P A i j ID1 ID2 jj g c)
                  = is_cohesive res.1).
    { unfold force_eval. subst res.
      destruct (contact_law P A i j ID1 ID2 jj g c) as [cx fx].
      apply apply_forces_tables. }
    destruct Hres_co as [H1 H2]. unfold cohesive in H1, H2.
    rewrite <- Hfe in H1, H2.
    unfold cohesive.
    split; by apply (later_cleared (force_eval P A i j ID1 ID2 jj g c) c'').
  - intros P' nt jj' g' c'' Hnt Hrange.
    destruct (pair_gates_first_step P' nt ID1 ID2 jj' g' c'' Hnt) as [Hg _].
    unfold cohesive. rewrite Hg. unfold form_bond.
    apply Z.ltb_lt in Hnt. rewrite Hnt, Hrange.
    cbn [fst is_cohesive set_tables].
    split; [apply tbl_get_set2_l|apply tbl_get_set2_r].
Qed.

(* The bonded pair of bonded_contact with atom 0 sliding at 1024: the
   trial force 250 exceeds the limit M_PI and the bond fails in shear. *)
Lemma X6_shear_failure_witness :
  cohesive (contact_law cfm_style (two_atoms 1.5 1024) 0 1 1 2 0
              (geometry (two_atoms 1.5 1024) 0 1)
              (pair_gates cfm_style 1 1 2 0
                 (geometry (two_atoms 1.5 1024) 0 1) bonded_contact).1).1
           1 2 = false
  /\ history (contact_law cfm_style (two_atoms 1.5 1024) 0 1 1 2 0
                (geometry (two_atoms 1.5 1024) 0 1)
                (pair_gates cfm_style 1 1 2 0
                   (geometry (two_atoms 1.5 1024) 0 1) bonded_contact).1).1
             0 6 = 1.
Proof.
  pose proof (X6_shear_failure cfm_style (two_atoms 1.5 1024) 0 1 1 2 0
     (geometry (two_atoms 1.5 1024) 0 1)
     (pair_gates cfm_style 1 1 2 0 (geometry (two_atoms 1.5 1024) 0 1)
                 bonded_contact).1) as H.
  cbv zeta in H.
  destruct H as (H1 & _ & H6 & _);
    [vm_compute; reflexivity | vm_compute; reflexivity
    | vm_compute; lia | vm_compute; lia | ].
  split; [exact H1|]. etransitivity; [exact H6|vm_compute; reflexivity].
Defined.

(* ===================================================================== *)
(* A skipped unbonded pair                                                *)
(* ===================================================================== *)

(** X7. Once the first step is over, an unbonded pair with r > radsum, or
    with a negative stretch _D = (radsum - r) - _Dinitial, is
    deactivated: its evaluation sets touch[jj] = 0 and
    _history[0..2] = 0 and nothing else but the member _D; f, torque, the
    three bond tables and the other cells of the history are as before. *)
Theorem X7_unbonded_pair_deactivated (P : PairCFM) (A : Atom)
    (ntimestep : Z) (i j jj : nat) (c : Contact) :
  let ID1 := atom_tag A !!! i in
  let ID2 := atom_tag A !!! j in
  let g := geometry A i j in
  let D := (radsum g - r g) - Dinitial_at c ID1 ID2 in
  let c' := pair_eval P A ntimestep i j jj c in
  (1 <= ntimestep)%Z ->
  cohesive c ID1 ID2 = false ->
  (radsum g <? r g) = true \/ (D <? 0) = true ->
  (hist_ix jj 2 < length (allshear c))%nat ->
  touch c' = <[jj := 0%Z]> (touch c)
  /\ history c' jj 0 = 0 /\ history c' jj 1 = 0 /\ history c' jj 2 = 0
  /\ (forall n : nat,
        n <> hist_ix jj 0 -> n <> hist_ix jj 1 -> n <> hist_ix jj 2 ->
        allshear c' !! n = allshear c !! n)
  /\ atom_f c' = atom_f c /\ atom_torque c' = atom_torque c
  /\ is_cohesive c' = is_cohesive c
  /\ _Dinitial c' = _Dinitial c /\ _Dtensile c' = _Dtensile c
  /\ _D c' = D.
Proof.
  intros ID1 ID2 g D c' Hnt Hco Hsep Hlen.
  assert (Hc' : c' = unset_contact (set_D c D) jj
                \/ c' = unset_contact (set_D (unset_contact c jj) D) jj
                \/ c' = set_D (unset_contact c jj) D).
  { subst c'. unfold pair_eval. fold ID1 ID2 g.
    rewrite pair_gates_later by done. unfold unset_nontouching.
    rewrite Hco. cbn [negb andb].
    destruct (radsum g <? r g) eqn:Hr; cbn [fst snd].
    - rewrite stretch_check_unbonded by done.
      change (stretch ID1 ID2 g (unset_contact c jj)) with D.
      destruct (D <? 0); cbn [fst snd negb Z.eqb]; auto.
    - rewrite stretch_check_unbonded by done.
      change (stretch ID1 ID2 g c) with D.
      destruct Hsep as [?|HD]; [done|]. rewrite HD. cbn. auto. }
  assert (Hz : forall x n, (n < 3)%nat ->
            length (allshear x) = length (allshear c) ->
            history (unset_contact x jj) jj n = 0).
  { intros x n Hn Hx. unfold unset_contact. apply zero_shear_zero; [done|].
    cbn [allshear set_touch]. by rewrite Hx. }
  assert (Hlen1 : length (allshear (unset_contact c jj))
                  = length (allshear c)).
  { unfold unset_contact. by rewrite zero_shear_length. }
  assert (Hout : forall x n,
            n <> hist_ix jj 0 -> n <> hist_ix jj 1 -> n <> hist_ix jj 2 ->
            allshear (unset_contact x jj) !! n = allshear x !! n).
  { intros x n H0 H1 H2. unfold unset_contact, zero_shear. simpl.
    by rewrite !list_lookup_insert_ne. }
  destruct Hc' as [->|[->| ->]].
  - split; [done|]. do 3 (split; [by apply Hz; [lia|]|]).
    split; [intros n H0 H1 H2; by rewrite Hout|]. done.
  - split; [unfold unset_contact; simpl; apply list_insert_insert_eq|].
    do 3 (split; [by apply Hz; [lia|]|]).
    split; [|done]. intros n H0 H1 H2. rewrite Hout by done.
    cbn [allshear set_D]. by rewrite Hout.
  - split; [done|].
    do 3 (split; [by apply (Hz c); [lia|]|]).
    split; [intros n H0 H1 H2; by apply (Hout c)|]. done.
Qed.

(* Two unbonded atoms 2.5 apart at ntimestep 1. *)
Lemma X7_unbonded_pair_deactivated_witness :
  touch (pair_eval cfm_style (two_atoms 2.5 0) 1 0 1 0 normal_shear_contact)
  = [0%Z]
  /\ history (pair_eval cfm_style (two_atoms 2.5 0) 1 0 1 0
                        normal_shear_contact) 0 0 = 0.
Proof.
  pose proof (X7_unbonded_pair_deactivated cfm_style (two_atoms 2.5 0) 1
                0 1 0 normal_shear_contact) as H.
  cbv zeta in H.
  destruct H as (H1 & H2 & _);
    [lia | vm_compute; reflexivity | left; vm_compute; reflexivity
    | vm_compute; lia | ].
  split; [etransitivity; [exact H1|vm_compute; reflexivity]|exact H2].
Defined.
(* ===================================================================== *)
(* The effective mass                                                     *)
(* ===================================================================== *)

(* binary64 addition and multiplication commute, bit for bit *)
Lemma float_add_comm (a b : float) : a + b = b + a.
Proof.
  apply Prim2SF_inj. rewrite !FloatAxioms.add_spec. unfold SF64add.
  destruct (Prim2SF a) as [sa|sa| |sa ma ea], (Prim2SF b) as [sb|sb| |sb mb eb];
    try destruct sa; try destruct sb; try reflexivity;
    cbn [SFadd]; rewrite (Z.min_comm eb ea), Z.add_comm; reflexivity.
Qed.

Lemma float_mul_comm (a b : float) : a * b = b * a.
Proof.
  apply Prim2SF_inj. rewrite !FloatAxioms.mul_spec. unfold SF64mul.
  destruct (Prim2SF a) as [sa|sa| |sa ma ea], (Prim2SF b) as [sb|sb| |sb mb eb];
    try destruct sa; try destruct sb; try reflexivity;
    cbn [SFmul]; rewrite (Pos.mul_comm mb ma), (Z.add_comm eb ea);
    reflexivity.
Qed.

(** X8. The effective mass of a pair is mi*mj/(mi+mj) when neither atom
    is in the freeze group, the mass of the other atom when exactly one
    is, and mi, the mass of the atom the evaluation takes as i, when both
    are (the test on j comes last).  Hence it does not depend on which of
    the two atoms is taken as i unless both are frozen. *)
Theorem X8_effective_mass (P : PairCFM) (A : Atom) (i j : nat) :
  let mi := pair_mi P A i in
  let mj := pair_mi P A j in
  (frozen P A i = false -> frozen P A j = false ->
   effective_mass P A i j = mi * mj / (mi + mj))
  /\ (frozen P A i = true -> frozen P A j = false ->
      effective_mass P A i j = mj)
  /\ (frozen P A j = true -> effective_mass P A i j = mi)
  /\ (frozen P A i && frozen P A j = false ->
      effective_mass P A j i = effective_mass P A i j).
Proof.
  intros mi mj. unfold effective_mass. fold mi mj.
  split; [by intros -> ->|]. split; [by intros -> ->|].
  split; [by intros ->|].
  destruct (frozen P A i), (frozen P A j); try done.
  intros _. by rewrite (float_mul_comm mj mi), (float_add_comm mj mi).
Qed.
(* ===================================================================== *)
(* The masses of rigid bodies                                             *)
(* ===================================================================== *)

(* A loop that stores f i at every index i of seq s n. *)
Lemma fold_left_insert_seq {B : Type} (f : nat -> B) (n s : nat)
    (l : list B) (k : nat) :
  fold_left (fun l i => <[i := f i]> l) (seq s n) l !! k
  = if decide (s <= k < s + n /\ k < length l)%nat then Some (f k)
    else l !! k.
Proof.
  revert s l. induction n as [|n IH]; intros s l; simpl.
  - case_decide; [lia|done].
  - rewrite IH, length_insert.
    destruct (decide (k = s)) as [->|Hne].
    + destruct (decide (s < length l)%nat) as [Hlt|Hge].
      * rewrite list_lookup_insert_eq by done.
        repeat case_decide; try done; lia.
      * rewrite list_insert_ge by lia.
        repeat case_decide; try done; lia.
    + rewrite list_lookup_insert_ne by done.
      repeat case_decide; try done; lia.
Qed.

Lemma fold_left_insert_seq_length {B : Type} (f : nat -> B) (n s : nat)
    (l : list B) :
  length (fold_left (fun l i => <[i := f i]> l) (seq s n) l) = length l.
Proof.
  revert s l. induction n as [|n IH]; intros s l; simpl; [done|].
  by rewrite IH, length_insert.
Qed.

(** X9. When a rigid fix is present and the neighbour list was just
    rebuilt (neighbor->ago == 0), compute sets mass_rigid[i], for each
    local atom i, to the total mass of the body of i, or to 0.0 when the
    atom is in no body (body[i] < 0), and leaves the entries of the other
    atoms to the forward communication.  An atom in no body then enters
    the effective mass with its own mass rmass[i], and an atom of a body
    of positive total mass with that total mass.  Without a rigid fix, or
    with ago != 0, mass_rigid and nmax are left as they are. *)
Theorem X9_rigid_body_masses (P : PairCFM) (A : Atom) (ago : Z)
    (body : list Z) (mass_body : list float) (atom_nmax nmax : Z)
    (fresh : list float) (nlocal : Z) (i : nat) :
  let res := update_mass_rigid P ago body mass_body atom_nmax nmax fresh
                               nlocal in
  let old := if (nmax <? atom_nmax)%Z then fresh else mass_rigid P in
  (fix_rigid P && (ago =? 0)%Z = false -> res = (nmax, P))
  /\ (fix_rigid P && (ago =? 0)%Z = true ->
      res.1 = Z.max nmax atom_nmax
      /\ fix_rigid res.2 = true
      /\ length (mass_rigid res.2) = length old
      /\ ((Z.of_nat i < nlocal)%Z -> (i < length old)%nat ->
          mass_rigid res.2 !!! i
          = (if (0 <=? body !!! i)%Z
             then mass_body !!! Z.to_nat (body !!! i) else 0)
          /\ ((body !!! i < 0)%Z -> pair_mi res.2 A i = atom_rmass A !!! i)
          /\ ((0 <= body !!! i)%Z ->
              (0 <? mass_body !!! Z.to_nat (body !!! i)) = true ->
              pair_mi res.2 A i = mass_body !!! Z.to_nat (body !!! i)))
      /\ ((nlocal <= Z.of_nat i)%Z ->
          mass_rigid res.2 !! i = old !! i)).
Proof.
  intros res old. split.
  - intros Hoff. subst res. unfold update_mass_rigid. by rewrite Hoff.
  - intros Hon.
    assert (Hres : res = (Z.max nmax atom_nmax,
              set_mass_rigid P (refresh_mass_rigid body mass_body nlocal old))).
    { subst res old. unfold update_mass_rigid. rewrite Hon.
      destruct (nmax <? atom_nmax)%Z eqn:E; f_equal.
      - apply Z.ltb_lt in E. lia.
      - apply Z.ltb_ge in E. lia. }
    apply andb_true_iff in Hon as [Hrigid _].
    rewrite Hres. cbn [fst snd mass_rigid fix_rigid set_mass_rigid].
    split; [done|]. split; [done|].
    split; [apply fold_left_insert_seq_length|]. split.
    + intros Hloc Hlen.
      assert (Hmr : refresh_mass_rigid body mass_body nlocal old !!! i
                    = body_mass body mass_body i).
      { rewrite list_lookup_total_alt. unfold refresh_mass_rigid.
        rewrite fold_left_insert_seq. case_decide; [done|lia]. }
      split; [exact Hmr|].
      unfold pair_mi. cbn [fix_rigid mass_rigid set_mass_rigid].
      rewrite Hrigid, Hmr. unfold body_mass. cbn [andb]. split.
      * intros Hneg. assert (E : (0 <=? body !!! i)%Z = false)
          by (apply Z.leb_gt; lia).
        by rewrite E.
      * intros Hpos Hm. assert (E : (0 <=? body !!! i)%Z = true)
          by (apply Z.leb_le; lia).
        by rewrite E, Hm.
    + intros Hghost. unfold refresh_mass_rigid.
      rewrite fold_left_insert_seq. case_decide; [lia|done].
Qed.
(* ===================================================================== *)
(* The forward communication of mass_rigid                                *)
(* ===================================================================== *)

Lemma pack_loop (mr : list float) (sendlist : list nat) (n s m : nat)
    (buf : list float) :
  let res := fold_left (fun '(m, buf) i =>
                          let j := sendlist !!! i in
                          (S m, <[m := mr !!! j]> buf))
                       (seq s n) (m, buf) in
  res.1 = (m + n)%nat
  /\ length res.2 = length buf
  /\ forall k : nat,
       res.2 !! k
       = if decide (m <= k < m + n /\ k < length buf)%nat
         then Some (mr !!! (sendlist !!! (s + (k - m))%nat))
         else buf !! k.
Proof.
  revert s m buf. induction n as [|n IH]; intros s m buf; simpl.
  - split; [lia|]. split; [done|]. intros k. case_decide; [lia|done].
  - destruct (IH (S s) (S m) (<[m := mr !!! (sendlist !!! s)]> buf))
      as (H1 & H2 & H3).
    cbv zeta in H1, H2, H3. rewrite length_insert in H2, H3.
    split; [rewrite H1; lia|]. split; [done|].
    intros k. rewrite H3.
    destruct (decide (k = m)) as [->|Hne].
    + destruct (decide (m < length buf)%nat) as [Hlt|Hge].
      * rewrite list_lookup_insert_eq by done.
        replace (s + (m - m))%nat with s by lia.
        repeat case_decide; try done; lia.
      * rewrite list_insert_ge by lia.
        repeat case_decide; try done; lia.
    + rewrite list_lookup_insert_ne by done.
      repeat case_decide; try lia; try done.
      do 3 f_equal. lia.
Qed.

Lemma unpack_loop (buf : list float) (n s m : nat) (mr : list float) :
  let res := fold_left (fun '(m, mr) i => (S m, <[i := buf !!! m]> mr))
                       (seq s n) (m, mr) in
  length res.2 = length mr
  /\ forall k : nat,
       res.2 !! k
       = if decide (s <= k < s + n /\ k < length mr)%nat
         then Some (buf !!! (m + (k - s))%nat)
         else mr !! k.
Proof.
  revert s m mr. induction n as [|n IH]; intros s m mr; simpl.
  - split; [done|]. intros k. case_decide; [lia|done].
  - destruct (IH (S s) (S m) (<[s := buf !!! m]> mr)) as (H2 & H3).
    cbv zeta in H2, H3. rewrite length_insert in H2, H3.
    split; [done|]. intros k. rewrite H3.
    destruct (decide (k = s)) as [->|Hne].
    + destruct (decide (s < length mr)%nat) as [Hlt|Hge].
      * rewrite list_lookup_insert_eq by done.
        replace (m + (s - s))%nat with m by lia.
        repeat case_decide; try done; lia.
      * rewrite list_insert_ge by lia.
        repeat case_decide; try done; lia.
    + rewrite list_lookup_insert_ne by done.
      repeat case_decide; try lia; try done.
      do 2 f_equal. lia.
Qed.

(** X10. pack_forward_comm writes mass_rigid[list[0]], ...,
    mass_rigid[list[n-1]] to the first n cells of the buffer and returns
    n; unpack_forward_comm stores the first n cells of the buffer in
    mass_rigid[first], ..., mass_rigid[first+n-1].  Unpacking what was
    packed therefore gives the receiver's atom first+k the rigid mass the
    sender holds for its atom list[k], for every k < n, and changes no
    other entry of the receiver's mass_rigid. *)
Theorem X10_forward_comm_round_trip (sender receiver : list float)
    (n first : nat) (sendlist : list nat) (buf : list float) :
  (n <= length buf)%nat ->
  (first + n <= length receiver)%nat ->
  let packed := pack_forward_comm sender n sendlist buf in
  let got := unpack_forward_comm receiver n first packed.2 in
  packed.1 = n
  /\ length packed.2 = length buf
  /\ length got = length receiver
  /\ (forall k : nat, (k < n)%nat ->
        packed.2 !!! k = sender !!! (sendlist !!! k)
        /\ got !!! (first + k)%nat = sender !!! (sendlist !!! k))
  /\ (forall k : nat, (n <= k)%nat -> packed.2 !! k = buf !! k)
  /\ (forall a : nat, (a < first \/ first + n <= a)%nat ->
        got !! a = receiver !! a).
Proof.
  intros Hbuf Hrecv packed got.
  destruct (pack_loop sender sendlist n 0 0 buf) as (P1 & P2 & P3).
  destruct (unpack_loop packed.2 n first 0 receiver) as (U2 & U3).
  cbv zeta in P1, P2, P3, U2, U3.
  fold (pack_forward_comm sender n sendlist buf) in P1, P2, P3.
  fold packed in P1, P2, P3.
  change (length got = length receiver) in U2.
  change (forall k : nat,
            got !! k
            = if decide (first <= k < first + n /\ k < length receiver)%nat
              then Some (packed.2 !!! (0 + (k - first))%nat)
              else receiver !! k) in U3.
  assert (Hp : forall k, (k < n)%nat ->
            packed.2 !!! k = sender !!! (sendlist !!! k)).
  { intros k Hk. rewrite list_lookup_total_alt, P3.
    case_decide; [|lia]. cbn. do 2 f_equal. lia. }
  split; [by rewrite P1|]. split; [done|]. split; [done|].
  split; [|split].
  - intros k Hk. split; [by apply Hp|].
    rewrite list_lookup_total_alt, U3. case_decide; [|lia]. cbn.
    replace (first + k - first)%nat with k by lia. by apply Hp.
  - intros k Hk. rewrite P3. case_decide; [lia|done].
  - intros a Ha. rewrite U3. case_decide; [lia|done].
Qed.

(* A sender holding the masses 5, 6, 7 sends those of its atoms 2 and 0;
   the receiver stores them for its atoms 1 and 2. *)
Lemma X10_forward_comm_round_trip_witness :
  unpack_forward_comm [0; 0; 0] 2 1
    (pack_forward_comm [5; 6; 7] 2 [2; 0]%nat [0; 0]).2
  !!! 2%nat = 5.
Proof.
  pose proof (X10_forward_comm_round_trip [5; 6; 7] [0; 0; 0] 2 1 [2; 0]%nat
                [0; 0] ltac:(simpl; lia) ltac:(simpl; lia)) as H.
  cbv zeta in H. destruct H as (_ & _ & _ & H & _).
  destruct (H 1%nat ltac:(lia)) as [_ H1]. exact H1.
Defined.

(* ===================================================================== *)
(* The type-pair flags                                                    *)
(* ===================================================================== *)

Lemma flag_row_spec (v lo hi i : Z) (c : Z) (t : gmap (Z * Z) Z) :
  (flag_row v lo hi i (c, t)).1 = (c + Z.max 0 (hi - lo + 1))%Z
  /\ forall a b : Z,
       (flag_row v lo hi i (c, t)).2 !! (a, b)
       = if decide (a = i /\ lo <= b <= hi)%Z then Some v else t !! (a, b).
Proof.
  unfold flag_row.
  remember (Z.to_nat (hi - lo + 1)) as n eqn:Hn.
  revert lo c t Hn. induction n as [|n IH]; intros lo c t Hn.
  - rewrite seqZ_nil by lia. simpl. split; [lia|].
    intros a b. case_decide; [lia|done].
  - rewrite seqZ_cons by lia. cbn [fold_left].
    replace (Z.pred (hi - lo + 1)) with (hi - Z.succ lo + 1)%Z by lia.
    destruct (IH (Z.succ lo) (c + 1)%Z (tbl_set t i lo v) ltac:(lia))
      as [H1 H2].
    split; [rewrite H1; lia|].
    intros a b. rewrite H2. unfold tbl_set.
    destruct (decide ((i, lo) = (a, b))) as [E|N].
    + injection E as <- <-. rewrite lookup_insert_eq.
      repeat case_decide; try done; lia.
    + rewrite lookup_insert_ne by done.
      repeat case_decide; try done; try lia.
      destruct N. f_equal; lia.
Qed.

Lemma coeff_loop_from (jlo jhi : Z) (n : nat) (ilo : Z) (c : Z)
    (t : gmap (Z * Z) Z) :
  let res := fold_left (fun s i => flag_row 1 (Z.max jlo i) jhi i s)
                       (seqZ ilo (Z.of_nat n)) (c, t) in
  (c <= res.1)%Z
  /\ (forall N : Z, (1 <= ilo)%Z -> (jhi <= N)%Z ->
        (res.1 <= c + N * Z.max 0 (jhi - ilo + 1))%Z)
  /\ (res.1 = c <->
      ~ exists i j : Z, (ilo <= i < ilo + Z.of_nat n /\ jlo <= j <= jhi
                         /\ i <= j)%Z)
  /\ forall a b : Z,
       res.2 !! (a, b)
       = if decide (ilo <= a < ilo + Z.of_nat n /\ jlo <= b <= jhi
                    /\ a <= b)%Z
         then Some 1%Z else t !! (a, b).
Proof.
  revert ilo c t. induction n as [|n IH]; intros ilo c t.
  - rewrite seqZ_nil by lia. simpl. split; [lia|]. split; [intros; nia|].
    split; [|intros a b; case_decide; [lia|done]].
    split; [|done]. intros _ (i & j & H). lia.
  - rewrite seqZ_cons by lia. cbn [fold_left].
    replace (Z.pred (Z.of_nat (S n))) with (Z.of_nat n) by lia.
    destruct (flag_row_spec 1 (Z.max jlo ilo) jhi ilo c t) as [R1 R2].
    destruct (flag_row 1 (Z.max jlo ilo) jhi ilo (c, t)) as [c1 t1] eqn:E.
    cbn [fst snd] in R1, R2.
    destruct (IH (Z.succ ilo) c1 t1) as (H1 & H2 & H3 & H4).
    cbv zeta in H1, H2, H3, H4. cbv zeta.
    split; [lia|]. split; [|split].
    + intros N Hlo Hhi. specialize (H2 N ltac:(lia) Hhi). nia.
    + split.
      * intros Hc (i & j & Hij).
        assert (c1 = c) by lia.
        destruct (decide (i = ilo)) as [->|Hne]; [lia|].
        apply H3; [lia|]. exists i, j. lia.
      * intros Hno.
        assert (Hc1 : c1 = c).
        { rewrite R1.
          destruct (decide (jhi - Z.max jlo ilo + 1 <= 0)%Z); [lia|].
          destruct Hno. exists ilo, (Z.max jlo ilo). lia. }
        clear R1. subst c1. apply H3.
        intros (i & j & Hij). apply Hno. exists i, j. lia.
    + intros a b. rewrite H4, R2.
      repeat case_decide; try done; lia.
Qed.

Lemma coeff_loop_spec (ilo ihi jlo jhi : Z) (t : gmap (Z * Z) Z) :
  let res := coeff_loop ilo ihi jlo jhi t in
  (0 <= res.1)%Z
  /\ (forall N : Z, (1 <= ilo)%Z -> (jhi <= N)%Z -> (res.1 <= N * N)%Z)
  /\ (res.1 = 0%Z <->
      ~ exists i j : Z, (ilo <= i <= ihi /\ jlo <= j <= jhi /\ i <= j)%Z)
  /\ forall a b : Z,
       res.2 !! (a, b)
       = if decide (ilo <= a <= ihi /\ jlo <= b <= jhi /\ a <= b)%Z
         then Some 1%Z else t !! (a, b).
Proof.
  unfold coeff_loop.
  destruct (decide (ihi - ilo + 1 <= 0)%Z) as [Hle|Hgt].
  - rewrite seqZ_nil by lia. simpl. split; [lia|]. split; [intros; nia|].
    split; [|intros a b; case_decide; [lia|done]].
    split; [|done]. intros _ (i & j & H). lia.
  - destruct (coeff_loop_from jlo jhi (Z.to_nat (ihi - ilo + 1)) ilo 0 t)
      as (H1 & H2 & H3 & H4).
    cbv zeta in H1, H2, H3, H4.
    rewrite Z2Nat.id in H1, H2, H3, H4 by lia. cbv zeta.
    split; [done|]. split; [|split].
    + intros N Hlo Hhi. specialize (H2 N Hlo Hhi).
      destruct (decide (jhi - ilo + 1 <= 0)%Z); nia.
    + rewrite H3. split; intros Hno (i & j & Hij); apply Hno;
        exists i, j; lia.
    + intros a b. rewrite H4. repeat case_decide; try done; lia.
Qed.

Lemma allocate_from (N : Z) (n : nat) (lo : Z) (t : gmap (Z * Z) Z) :
  forall a b : Z,
    fold_left (fun t i => (flag_row 0 i N i (0%Z, t)).2)
              (seqZ lo (Z.of_nat n)) t !! (a, b)
    = if decide (lo <= a < lo + Z.of_nat n /\ a <= b <= N)%Z
      then Some 0%Z else t !! (a, b).
Proof.
  revert lo t. induction n as [|n IH]; intros lo t a b.
  - rewrite seqZ_nil by lia. simpl. case_decide; [lia|done].
  - rewrite seqZ_cons by lia. cbn [fold_left].
    replace (Z.pred (Z.of_nat (S n))) with (Z.of_nat n) by lia.
    rewrite IH.
    destruct (flag_row_spec 0 lo N lo 0 t) as [_ R2]. rewrite R2.
    repeat case_decide; try done; lia.
Qed.

Lemma allocate_spec (ntypes : Z) (a b : Z) :
  setflag (allocate ntypes) !! (a, b)
  = if decide (1 <= a <= b /\ b <= ntypes)%Z then Some 0%Z else None.
Proof.
  unfold allocate. cbn [setflag].
  destruct (decide (ntypes <= 0)%Z) as [Hle|Hgt].
  - rewrite seqZ_nil by lia. simpl. rewrite lookup_empty.
    case_decide; [lia|done].
  - pose proof (allocate_from ntypes (Z.to_nat ntypes) 1 ∅ a b) as H.
    rewrite Z2Nat.id in H by lia. rewrite H, lookup_empty.
    repeat case_decide; try done; lia.
Qed.

Lemma coeff_unfold (bounds : string -> Z -> option (Z * Z))
    (ntypes narg : Z) (arg : list string) (s : TypeFlags)
    (ilo ihi jlo jhi : Z) :
  (narg <= 2)%Z ->
  bounds (arg !!! 0%nat) ntypes = Some (ilo, ihi) ->
  bounds (arg !!! 1%nat) ntypes = Some (jlo, jhi) ->
  let s0 := if allocated s then s else allocate ntypes in
  let res := coeff_loop ilo ihi jlo jhi (setflag s0) in
  coeff bounds ntypes narg arg s
  = if (res.1 =? 0)%Z then None
    else Some (mkTypeFlags (allocated s0) res.2).
Proof.
  intros Hn Hi Hj s0 res. unfold coeff.
  destruct (Z.ltb_spec 2 narg) as [|_]; [lia|].
  fold s0. rewrite Hi. cbn. rewrite Hj. cbn. fold res.
  by destruct res.
Qed.

(** X11. PairCFM::coeff with at most two words whose ranges force->bounds
    gives as ilo..ihi and jlo..jhi stops with an error exactly when no
    pair (i,j) has ilo <= i <= ihi, jlo <= j <= jhi and i <= j.  Otherwise
    it leaves allocated set, stores 1 in setflag[i][j] for exactly those
    pairs, and keeps every other cell as it was before the call (as
    allocate left it, when the call was the one to allocate): a second
    coeff command adds to the flags of the first. *)
Theorem X11_coeff_sets_region (bounds : string -> Z -> option (Z * Z))
    (ntypes narg : Z) (arg : list string) (s : TypeFlags)
    (ilo ihi jlo jhi : Z) :
  (narg <= 2)%Z ->
  bounds (arg !!! 0%nat) ntypes = Some (ilo, ihi) ->
  bounds (arg !!! 1%nat) ntypes = Some (jlo, jhi) ->
  let before := setflag (if allocated s then s else allocate ntypes) in
  (coeff bounds ntypes narg arg s = None
   <-> ~ exists i j : Z, (ilo <= i <= ihi /\ jlo <= j <= jhi /\ i <= j)%Z)
  /\ forall s' : TypeFlags,
       coeff bounds ntypes narg arg s = Some s' ->
       allocated s' = true
       /\ forall i j : Z,
            setflag s' !! (i, j)
            = if decide (ilo <= i <= ihi /\ jlo <= j <= jhi /\ i <= j)%Z
              then Some 1%Z else before !! (i, j).
Proof.
  intros Hn Hi Hj before.
  pose proof (coeff_unfold bounds ntypes narg arg s ilo ihi jlo jhi Hn Hi Hj)
    as Hc. cbv zeta in Hc. rewrite Hc. clear Hc. fold before.
  destruct (coeff_loop_spec ilo ihi jlo jhi before) as (_ & _ & H3 & H4).
  cbv zeta in H3, H4.
  destruct (Z.eqb_spec (coeff_loop ilo ihi jlo jhi before).1 0) as [E|N].
  - split; [|done]. split; [intros _; by apply H3|done].
  - split.
    + split; [done|]. intros Hno. destruct N. by apply H3.
    + intros s' [= <-]. cbn [allocated setflag]. split; [|exact H4].
      by destruct (allocated s) eqn:Ea.
Qed.

(* On three types, after "pair_coeff * *" flagged every pair, the command
   "pair_coeff 2 3*" succeeds and flags the pair (2,3). *)
Lemma X11_coeff_sets_region_witness :
  exists s' : TypeFlags,
    coeff word_bounds 3 2 ["2"; "3*"] (allocate 3) = Some s'
    /\ setflag s' !! (2%Z, 3%Z) = Some 1%Z
    /\ setflag s' !! (1%Z, 1%Z) = Some 0%Z.
Proof.
  pose proof (X11_coeff_sets_region word_bounds 3 2 ["2"; "3*"] (allocate 3)
                2 2 3 3 ltac:(lia) ltac:(reflexivity) ltac:(reflexivity))
    as H.
  cbv zeta in H. destruct H as [_ H].
  eexists. split; [vm_compute; reflexivity|].
  destruct (H _ ltac:(vm_compute; reflexivity)) as [_ H2].
  split.
  - etransitivity; [apply H2|]. reflexivity.
  - etransitivity; [apply H2|]. vm_compute. reflexivity.
Defined.

(** X12. When coeff is the call that allocates (allocated is unset), and
    the ranges satisfy 1 <= ilo and jhi <= ntypes with ntypes*ntypes below
    2^31, the counter of its loops stays within an int, and after a
    successful call the cells of setflag that hold a value are exactly
    those with 1 <= i <= j <= ntypes: each holds 1 if the command named the
    pair and 0 otherwise, and no cell below the diagonal, in row 0 or in
    column 0 has been written. *)
Theorem X12_coeff_upper_triangle (bounds : string -> Z -> option (Z * Z))
    (ntypes narg : Z) (arg : list string) (s : TypeFlags)
    (ilo ihi jlo jhi : Z) :
  (narg <= 2)%Z ->
  bounds (arg !!! 0%nat) ntypes = Some (ilo, ihi) ->
  bounds (arg !!! 1%nat) ntypes = Some (jlo, jhi) ->
  allocated s = false ->
  (1 <= ilo)%Z -> (jhi <= ntypes)%Z -> (ntypes * ntypes < 2 ^ 31)%Z ->
  (0 <= (coeff_loop ilo ihi jlo jhi (setflag (allocate ntypes))).1
      < 2 ^ 31)%Z
  /\ forall s' : TypeFlags,
       coeff bounds ntypes narg arg s = Some s' ->
       forall i j : Z,
         setflag s' !! (i, j)
         = if decide (1 <= i <= j /\ j <= ntypes)%Z
           then Some (if decide (ilo <= i <= ihi /\ jlo <= j <= jhi)%Z
                      then 1%Z else 0%Z)
           else None.
Proof.
  intros Hn Hi Hj Ha Hlo Hhi Hnt.
  pose proof (coeff_unfold bounds ntypes narg arg s ilo ihi jlo jhi Hn Hi Hj)
    as Hc. cbv zeta in Hc. rewrite Ha in Hc. rewrite Hc. clear Hc.
  destruct (coeff_loop_spec ilo ihi jlo jhi (setflag (allocate ntypes)))
    as (H1 & H2 & _ & H4).
  cbv zeta in H1, H2, H4. specialize (H2 ntypes Hlo Hhi).
  split; [lia|].
  intros s' Hs' i j.
  destruct (_ =? 0)%Z; [done|]. injection Hs' as <-. cbn [setflag].
  rewrite H4, allocate_spec.
  repeat case_decide; try done; lia.
Qed.

(* The first command "pair_coeff 2 3*" on three types flags the pair (2,3)
   and leaves (3,2) unwritten. *)
Lemma X12_coeff_upper_triangle_witness :
  exists s' : TypeFlags,
    coeff word_bounds 3 2 ["2"; "3*"] (mkTypeFlags false ∅) = Some s'
    /\ setflag s' !! (2%Z, 3%Z) = Some 1%Z
    /\ setflag s' !! (3%Z, 2%Z) = None.
Proof.
  pose proof (X12_coeff_upper_triangle word_bounds 3 2 ["2"; "3*"]
                (mkTypeFlags false ∅) 2 2 3 3 ltac:(lia)
                ltac:(reflexivity) ltac:(reflexivity) ltac:(reflexivity)
                ltac:(lia) ltac:(lia) ltac:(lia)) as [_ H].
  eexists. split; [vm_compute; reflexivity|].
  pose proof (H _ ltac:(vm_compute; reflexivity)) as H2.
  split.
  - etransitivity; [apply H2|]. reflexivity.
  - etransitivity; [apply H2|]. reflexivity.
Defined.

(* ===================================================================== *)
(* Restart files                                                          *)
(* ===================================================================== *)

Lemma read_write_settings (old s : Style) (rest : list Item) :
  read_restart_settings old (write_restart_settings s [] ++ rest)
  = Some (s, rest).
Proof. by destruct s. Qed.

Lemma write_restart_settings_app (s : Style) (fp : list Item) :
  write_restart_settings s fp = fp ++ write_restart_settings s [].
Proof. done. Qed.

Lemma write_row_app (t : gmap (Z * Z) Z) (i : Z) (n : nat) (lo : Z)
    (fp : list Item) :
  fold_left (fun fp j => fp ++ [IInt (tbl_get 0%Z t i j)])
            (seqZ lo (Z.of_nat n)) fp
  = fp ++ row_items t i lo n.
Proof.
  unfold row_items. revert lo fp. induction n as [|n IH]; intros lo fp.
  - rewrite seqZ_nil by lia. simpl. by rewrite app_nil_r.
  - rewrite seqZ_cons by lia. cbn [fold_left fmap list_fmap].
    replace (Z.pred (Z.of_nat (S n))) with (Z.of_nat n) by lia.
    rewrite IH. by rewrite <- app_assoc.
Qed.

Lemma read_row_items (t : gmap (Z * Z) Z) (i : Z) (n : nat) (lo : Z)
    (t0 : gmap (Z * Z) Z) (rest : list Item) :
  exists t1 : gmap (Z * Z) Z,
    fold_left (fun acc j =>
                 '(t, fp) ← acc;
                 '(v, fp) ← fread_int fp (tbl_get 0%Z t i j);
                 Some (tbl_set t i j v, fp))
              (seqZ lo (Z.of_nat n)) (Some (t0, row_items t i lo n ++ rest))
    = Some (t1, rest)
    /\ forall a b : Z,
         t1 !! (a, b)
         = if decide (a = i /\ lo <= b < lo + Z.of_nat n)%Z
           then Some (tbl_get 0%Z t i b) else t0 !! (a, b).
Proof.
  unfold row_items. revert lo t0. induction n as [|n IH]; intros lo t0.
  - rewrite seqZ_nil by lia. simpl. exists t0. split; [done|].
    intros a b. case_decide; [lia|done].
  - rewrite seqZ_cons by lia. cbn [fold_left fmap list_fmap].
    replace (Z.pred (Z.of_nat (S n))) with (Z.of_nat n) by lia.
    cbn.
    destruct (IH (Z.succ lo) (tbl_set t0 i lo (tbl_get 0%Z t i lo)))
      as (t1 & H1 & H2).
    exists t1. split; [exact H1|].
    intros a b. rewrite H2. unfold tbl_set.
    destruct (decide ((i, lo) = (a, b))) as [E|N].
    + injection E as <- <-. rewrite lookup_insert_eq.
      repeat case_decide; try done; lia.
    + rewrite lookup_insert_ne by done.
      repeat case_decide; try done; try lia.
      destruct N. f_equal; lia.
Qed.

Lemma restart_flags_from (t : gmap (Z * Z) Z) (N : Z) (n : nat) (lo : Z)
    (fp : list Item) (t0 : gmap (Z * Z) Z) (rest : list Item) :
  exists (items : list Item) (t1 : gmap (Z * Z) Z),
    fold_left (fun fp i =>
                 fold_left (fun fp j => fp ++ [IInt (tbl_get 0%Z t i j)])
                           (seqZ i (N - i + 1)) fp)
              (seqZ lo (Z.of_nat n)) fp
    = fp ++ items
    /\ fold_left (fun acc i => read_flag_row N i acc)
                 (seqZ lo (Z.of_nat n)) (Some (t0, items ++ rest))
       = Some (t1, rest)
    /\ forall a b : Z,
         t1 !! (a, b)
         = if decide (lo <= a < lo + Z.of_nat n /\ a <= b <= N)%Z
           then Some (tbl_get 0%Z t a b) else t0 !! (a, b).
Proof.
  revert lo fp t0. induction n as [|n IH]; intros lo fp t0.
  - rewrite seqZ_nil by lia. simpl. exists [], t0.
    split; [by rewrite app_nil_r|]. split; [done|].
    intros a b. case_decide; [lia|done].
  - rewrite seqZ_cons by lia. cbn [fold_left].
    replace (Z.pred (Z.of_nat (S n))) with (Z.of_nat n) by lia.
    set (m := Z.to_nat (N - lo + 1)).
    assert (Hseq : seqZ lo (N - lo + 1) = seqZ lo (Z.of_nat m)).
    { unfold seqZ. by rewrite Nat2Z.id. }
    rewrite Hseq, write_row_app.
    assert (Hrow : forall rest', exists t1,
               read_flag_row N lo (Some (t0, row_items t lo lo m ++ rest'))
               = Some (t1, rest')
               /\ forall a b : Z,
                    t1 !! (a, b)
                    = if decide (a = lo /\ lo <= b < lo + Z.of_nat m)%Z
                      then Some (tbl_get 0%Z t lo b) else t0 !! (a, b)).
    { intros rest'. unfold read_flag_row. rewrite Hseq.
      apply read_row_items. }
    destruct (Hrow []) as (t1 & _ & Ht1).
    destruct (IH (Z.succ lo) (fp ++ row_items t lo lo m) t1)
      as (items & t2 & Hw & Hr & Ht2).
    exists (row_items t lo lo m ++ items), t2.
    split; [by rewrite Hw, app_assoc|].
    split.
    + destruct (Hrow (items ++ rest)) as (t1' & Hr1 & Ht1').
      rewrite <- app_assoc, Hr1.
      assert (t1' = t1) as ->.
      { apply map_eq. intros [a b]. by rewrite Ht1, Ht1'. }
      exact Hr.
    + intros a b. rewrite Ht2, Ht1.
      repeat case_decide; try done; try lia.
      f_equal. f_equal. lia.
Qed.

(** X13. write_restart appends to the file the nine settings in the order
    and with the types read_restart_settings reads them, followed by
    setflag[i][j] for 1 <= i <= j <= ntypes in the order read_restart
    reads them.  When the flags are allocated and hold a value in exactly
    those cells, reading back what was written gives every process the
    settings and the flags that were written, and leaves the reader at
    the end of what was written. *)
Theorem X13_restart_round_trip (ntypes : Z) (old s : Style)
    (T : TypeFlags) (fp rest : list Item) :
  allocated T = true ->
  (forall i j : Z,
     is_Some (setflag T !! (i, j)) <-> (1 <= i <= j /\ j <= ntypes)%Z) ->
  exists items : list Item,
    write_restart ntypes s (setflag T) fp = fp ++ items
    /\ read_restart ntypes old (items ++ rest) = Some (s, T, rest).
Proof.
  intros Ha Hdom. unfold write_restart, read_restart.
  assert (Hseq : seqZ 1 ntypes = seqZ 1 (Z.of_nat (Z.to_nat ntypes))).
  { unfold seqZ. by rewrite Nat2Z.id. }
  rewrite Hseq.
  destruct (restart_flags_from (setflag T) ntypes (Z.to_nat ntypes) 1
              (write_restart_settings s fp)
              (setflag (allocate ntypes)) rest)
    as (items & t1 & Hw & Hr & Ht1).
  exists (write_restart_settings s [] ++ items).
  split.
  - rewrite Hw, (write_restart_settings_app s fp). by rewrite app_assoc.
  - rewrite <- app_assoc, read_write_settings.
    cbn [mbind option_bind]. rewrite Hr. cbn [mbind option_bind].
    destruct T as [al t]. cbn [allocated setflag] in *. subst al.
    change (allocated (allocate ntypes)) with true.
    assert (t1 = t) as ->; [|done].
    apply map_eq. intros [i j]. rewrite Ht1, allocate_spec.
    pose proof (Hdom i j) as Hd. unfold tbl_get.
    destruct (t !! (i, j)) as [v|] eqn:E.
    + case_decide as Hc; [done|]. destruct Hc.
      assert (1 <= i <= j /\ j <= ntypes)%Z by (by apply Hd). lia.
    + case_decide as Hc.
      * assert (is_Some (@None Z)) as [? ?]; [|done].
        apply Hd. lia.
      * case_decide; [lia|done].
Qed.

(* The flags as allocate leaves them for two types, and the settings
   1000, 250, 0, 0, 0.5, 0, 1, 1, 1.25. *)
Lemma X13_restart_round_trip_witness :
  exists items : list Item,
    write_restart 2 (mkStyle 1000 250 0 0 0.5 0 1 1 1.25)
                  (setflag (allocate 2)) [] = [] ++ items
    /\ read_restart 2 (mkStyle 0 0 0 0 0 0 0 0 0) (items ++ [])
       = Some (mkStyle 1000 250 0 0 0.5 0 1 1 1.25, allocate 2, []).
Proof.
  apply (X13_restart_round_trip 2 (mkStyle 0 0 0 0 0 0 0 0 0)
           (mkStyle 1000 250 0 0 0.5 0 1 1 1.25) (allocate 2) [] []).
  - reflexivity.
  - intros i j. rewrite allocate_spec.
    case_decide as H; split; intros H'; try done; try lia.
    all: by destruct H'.
Defined.
Lemma SFleb_trans (a b c : spec_float) :
  SFleb a b = true -> SFleb b c = true -> SFleb a c = true.
Proof.
  unfold SFleb.
  destruct a as [sa|sa| |sa ma ea], b as [sb|sb| |sb mb eb],
           c as [sc|sc| |sc mc ec]; simpl;
    try destruct sa; try destruct sb; try destruct sc; simpl;
    try done.
  all: destruct (Z.compare_spec ea eb), (Z.compare_spec eb ec),
         (Z.compare_spec ea ec); try done; try lia.
  all: change (Pos.compare_cont Eq ma mb) with (Pos.compare ma mb);
    change (Pos.compare_cont Eq mb mc) with (Pos.compare mb mc);
    change (Pos.compare_cont Eq ma mc) with (Pos.compare ma mc).
  all: destruct (Pos.compare_spec ma mb), (Pos.compare_spec mb mc),
         (Pos.compare_spec ma mc); simpl; try done; try lia.
Qed.

Lemma float_leb_trans (a b c : float) :
  (a <=? b) = true -> (b <=? c) = true -> (a <=? c) = true.
Proof. rewrite !FloatAxioms.leb_spec. apply SFleb_trans. Qed.

Lemma float_leb_refl (a : float) : is_nan a = false -> (a <=? a) = true.
Proof.
  intros H. rewrite FloatAxioms.leb_spec. unfold SFleb.
  rewrite SFcompare_refl; [done|].
  intros E. apply is_nan_spec in E. congruence.
Qed.

Lemma float_ltb_leb (a b : float) : (a <? b) = true -> (a <=? b) = true.
Proof.
  rewrite FloatAxioms.ltb_spec, FloatAxioms.leb_spec. unfold SFltb, SFleb.
  destruct (SFcompare _ _) as [[]|]; done.
Qed.

(* MAX returns one of its arguments, the second when either is a NaN;
   without NaN it is not below either. *)
Lemma MAX_cases (a b : float) : MAX a b = a \/ MAX a b = b.
Proof. unfold MAX. destruct (b <? a); auto. Qed.

Lemma MAX_no_nan (a b : float) :
  is_nan a = false -> is_nan b = false -> is_nan (MAX a b) = false.
Proof. intros Ha Hb. by destruct (MAX_cases a b) as [-> | ->]. Qed.

Lemma MAX_ge (a b : float) :
  is_nan a = false -> is_nan b = false ->
  (a <=? MAX a b) = true /\ (b <=? MAX a b) = true.
Proof.
  intros Ha Hb. unfold MAX. destruct (b <? a) eqn:E.
  - split; [by apply float_leb_refl|by apply float_ltb_leb].
  - split; [|by apply float_leb_refl].
    apply float_not_ltb in E as [E|[E|E]]; [done|congruence..].
Qed.

(* ===================================================================== *)
(* The radii of init_style and the cutoff of init_one                     *)
(* ===================================================================== *)

(** X14. init_one returns one of the three sums
    maxrad_dynamic[i]+maxrad_dynamic[j], maxrad_frozen[i]+maxrad_dynamic[j]
    and maxrad_dynamic[i]+maxrad_frozen[j], and when none of them is a NaN
    the one it returns is not below any of the three: the cutoff is their
    maximum, and the sum of the two frozen radii does not enter it. *)
Theorem X14_init_one_cutoff (R : Radii) (i j : nat) :
  let dd := maxrad_dynamic R !!! i + maxrad_dynamic R !!! j in
  let fd := maxrad_frozen R !!! i + maxrad_dynamic R !!! j in
  let df := maxrad_dynamic R !!! i + maxrad_frozen R !!! j in
  is_nan dd = false -> is_nan fd = false -> is_nan df = false ->
  (init_one R i j = dd \/ init_one R i j = fd \/ init_one R i j = df)
  /\ (dd <=? init_one R i j) = true
  /\ (fd <=? init_one R i j) = true
  /\ (df <=? init_one R i j) = true.
Proof.
  intros dd fd df Hdd Hfd Hdf. unfold init_one. fold dd fd df.
  pose proof (MAX_no_nan dd fd Hdd Hfd) as Hm.
  destruct (MAX_ge dd fd Hdd Hfd) as [H1 H2].
  destruct (MAX_ge (MAX dd fd) df Hm Hdf) as [H3 H4].
  split.
  - destruct (MAX_cases (MAX dd fd) df) as [-> | ->]; [|auto].
    destruct (MAX_cases dd fd) as [-> | ->]; auto.
  - split; [by eapply float_leb_trans|].
    split; [by eapply float_leb_trans|done].
Qed.

(* Types 1 and 2 with dynamic radii 1 and 2 and frozen radii 3 and 0.5:
   the cutoff of the pair is 3 + 2. *)
Lemma X14_init_one_cutoff_witness :
  (3 + 2 <=? init_one (mkRadii [] [] [0; 1; 2] [0; 3; 0.5]) 1 2) = true.
Proof.
  pose proof (X14_init_one_cutoff (mkRadii [] [] [0; 1; 2] [0; 3; 0.5]) 1 2
                ltac:(reflexivity) ltac:(reflexivity) ltac:(reflexivity))
    as (_ & _ & H & _).
  exact H.
Defined.

Lemma no_nan_insert (l : list float) (k : nat) (x : float) :
  no_nan l -> is_nan x = false -> no_nan (<[k := x]> l).
Proof.
  intros Hl Hx n Hn. rewrite length_insert in Hn.
  destruct (decide (n = k)) as [->|Hne].
  - by rewrite list_lookup_total_insert_eq by lia.
  - rewrite list_lookup_total_insert_ne by done. by apply Hl.
Qed.

Lemma raised_refl (l : list float) : no_nan l -> raised l l.
Proof.
  intros Hl. split; [done|]. intros k Hk. apply float_leb_refl. by apply Hl.
Qed.

Lemma raised_trans (l1 l2 l3 : list float) :
  raised l1 l2 -> raised l2 l3 -> raised l1 l3.
Proof.
  intros [L1 H1] [L2 H2]. split; [congruence|].
  intros k Hk. eapply float_leb_trans; [by apply H1|].
  apply H2. lia.
Qed.

(* onerad[ty] = MAX(onerad[ty],r) *)
Lemma raise_spec (l : list float) (ty : nat) (r : float) :
  no_nan l -> is_nan r = false -> (1 <= ty < length l)%nat ->
  let l' := <[ty := MAX (l !!! ty) r]> l in
  no_nan l' /\ raised l l' /\ (r <=? l' !!! ty) = true.
Proof.
  intros Hl Hr Hty l'.
  destruct (MAX_ge (l !!! ty) r (Hl ty Hty) Hr) as [H1 H2].
  split; [|split].
  - apply no_nan_insert; [done|]. apply MAX_no_nan; [by apply Hl|done].
  - split; [apply length_insert|]. intros k Hk. unfold l'.
    destruct (decide (k = ty)) as [->|Hne].
    + by rewrite list_lookup_total_insert_eq by lia.
    + rewrite list_lookup_total_insert_ne by done.
      apply float_leb_refl. by apply Hl.
  - unfold l'. by rewrite list_lookup_total_insert_eq by lia.
Qed.

(* The loop over the local atoms, up to atom n. *)
Lemma atom_radii_upto (P : PairCFM) (A : Atom) (type : list Z)
    (dyn frz : list float) (n : nat) :
  no_nan dyn -> no_nan frz ->
  (forall i : nat, (i < n)%nat ->
     (1 <= Z.to_nat (type !!! i) < length dyn)%nat
     /\ (Z.to_nat (type !!! i) < length frz)%nat
     /\ is_nan (atom_radius A !!! i) = false) ->
  let res := fold_left
               (fun '(dyn, frz) i =>
                  let ty := Z.to_nat (type !!! i) in
                  if frozen P A i
                  then (dyn, <[ty := MAX (frz !!! ty) (atom_radius A !!! i)]> frz)
                  else (<[ty := MAX (dyn !!! ty) (atom_radius A !!! i)]> dyn, frz))
               (seq 0 n) (dyn, frz) in
  no_nan res.1 /\ no_nan res.2 /\ raised dyn res.1 /\ raised frz res.2
  /\ forall i : nat, (i < n)%nat ->
       (atom_radius A !!! i
        <=? (if frozen P A i then res.2 else res.1)
            !!! Z.to_nat (type !!! i)) = true.
Proof.
  intros Hd Hf. induction n as [|n IH]; intros Hat.
  - simpl. split; [done|]. split; [done|].
    split; [by apply raised_refl|]. split; [by apply raised_refl|].
    intros i Hi. lia.
  - rewrite seq_S, fold_left_app. cbn [fold_left plus].
    destruct (IH ltac:(intros i Hi; apply Hat; lia))
      as (N1 & N2 & R1 & R2 & B).
    cbv zeta in N1, N2, R1, R2, B.
    destruct (fold_left _ (seq 0 n) (dyn, frz)) as [d f].
    cbn [fst snd] in N1, N2, R1, R2, B.
    destruct (Hat n ltac:(lia)) as (T1 & T2 & Hr).
    destruct R1 as [L1 R1'], R2 as [L2 R2'].
    destruct (frozen P A n) eqn:Efr; cbn [fst snd].
    + destruct (raise_spec f (Z.to_nat (type !!! n)) (atom_radius A !!! n)
                  N2 Hr ltac:(lia)) as (N2' & R2n & Bn).
      cbv zeta in N2', R2n, Bn.
      split; [done|]. split; [done|]. split; [done|].
      split; [by eapply raised_trans|].
      intros i Hi. destruct (decide (i = n)) as [->|Hne].
      * by rewrite Efr.
      * specialize (B i ltac:(lia)).
        destruct (Hat i ltac:(lia)) as (Ti1 & Ti2 & _).
        destruct (frozen P A i); [|done].
        eapply float_leb_trans; [exact B|]. apply R2n. lia.
    + destruct (raise_spec d (Z.to_nat (type !!! n)) (atom_radius A !!! n)
                  N1 Hr ltac:(lia)) as (N1' & R1n & Bn).
      cbv zeta in N1', R1n, Bn.
      split; [done|]. split; [done|].
      split; [by eapply raised_trans|]. split; [done|].
      intros i Hi. destruct (decide (i = n)) as [->|Hne].
      * by rewrite Efr.
      * specialize (B i ltac:(lia)).
        destruct (Hat i ltac:(lia)) as (Ti1 & Ti2 & _).
        destruct (frozen P A i); [done|].
        eapply float_leb_trans; [exact B|]. apply R1n. lia.
Qed.

(* One pass of the loop over the types stores type_radius and 0.0. *)
Lemma type_radii_step (fixes : list Fix) (i : nat) (dyn : list float) :
  match find (has_style "deposit") fixes with
  | Some f => <[i := extract_radius f (Z.of_nat i)]>
                (match find (has_style "pour") fixes with
                 | Some f => <[i := extract_radius f (Z.of_nat i)]>
                               (<[i := 0]> dyn)
                 | None => <[i := 0]> dyn
                 end)
  | None => match find (has_style "pour") fixes with
            | Some f => <[i := extract_radius f (Z.of_nat i)]>
                          (<[i := 0]> dyn)
            | None => <[i := 0]> dyn
            end
  end = <[i := type_radius fixes i]> dyn.
Proof.
  unfold type_radius.
  destruct (find (has_style "deposit") fixes),
           (find (has_style "pour") fixes);
    by rewrite ?list_insert_insert_eq.
Qed.

Lemma type_radii_from (fixes : list Fix) (n s : nat) (dyn frz : list float) :
  fold_left (fun '(dyn, frz) i =>
               let frz := <[i := 0]> frz in
               let dyn := <[i := 0]> dyn in
               let dyn := match find (has_style "pour") fixes with
                          | Some f => <[i := extract_radius f (Z.of_nat i)]> dyn
                          | None => dyn
                          end in
               let dyn := match find (has_style "deposit") fixes with
                          | Some f => <[i := extract_radius f (Z.of_nat i)]> dyn
                          | None => dyn
                          end in
               (dyn, frz))
            (seq s n) (dyn, frz)
  = (fold_left (fun l i => <[i := type_radius fixes i]> l) (seq s n) dyn,
     fold_left (fun l i => <[i := 0]> l) (seq s n) frz).
Proof.
  revert s dyn frz. induction n as [|n IH]; intros s dyn frz; [done|].
  cbn [seq fold_left]. rewrite <- IH. f_equal.
  cbv zeta. rewrite <- type_radii_step.
  by destruct (find (has_style "deposit") fixes),
              (find (has_style "pour") fixes).
Qed.

Lemma type_radii_spec (fixes : list Fix) (ntypes : Z) (dyn frz : list float) :
  (forall t : Z, is_nan (type_radius fixes (Z.to_nat t)) = false) ->
  length dyn = S (Z.to_nat ntypes) -> length frz = S (Z.to_nat ntypes) ->
  let res := type_radii fixes ntypes (dyn, frz) in
  length res.1 = length dyn /\ length res.2 = length frz
  /\ no_nan res.1 /\ no_nan res.2
  /\ forall k : nat, (1 <= k < length dyn)%nat ->
       res.1 !!! k = type_radius fixes k /\ res.2 !!! k = 0.
Proof.
  intros Hnan Ld Lf res. unfold res, type_radii.
  rewrite type_radii_from. cbn [fst snd].
  rewrite !fold_left_insert_seq_length.
  assert (Hk : forall k : nat, (1 <= k < length dyn)%nat ->
            fold_left (fun l i => <[i := type_radius fixes i]> l)
                      (seq 1 (Z.to_nat ntypes)) dyn !!! k
            = type_radius fixes k
            /\ fold_left (fun l i => <[i := 0]> l)
                         (seq 1 (Z.to_nat ntypes)) frz !!! k = 0).
  { intros k Hk. rewrite !list_lookup_total_alt.
    rewrite (fold_left_insert_seq (type_radius fixes)).
    rewrite (fold_left_insert_seq (fun _ => 0)).
    repeat case_decide; try done; lia. }
  split; [done|]. split; [done|]. split; [|split; [|exact Hk]].
  - intros k Hk'. rewrite fold_left_insert_seq_length in Hk'.
    destruct (Hk k Hk') as [-> _].
    specialize (Hnan (Z.of_nat k)). by rewrite Nat2Z.id in Hnan.
  - intros k Hk'. rewrite fold_left_insert_seq_length in Hk'.
    destruct (Hk k ltac:(lia)) as [_ ->]. reflexivity.
Qed.

Lemma allreduce_max_spec (ntypes : Z) (onerad maxrad : list float) (k : nat) :
  length onerad = S (Z.to_nat ntypes) -> length maxrad = S (Z.to_nat ntypes) ->
  (1 <= k < length onerad)%nat ->
  allreduce_max ntypes onerad maxrad !!! k = onerad !!! k.
Proof.
  intros Lo Lm Hk. unfold allreduce_max.
  rewrite list_lookup_total_alt.
  rewrite (fold_left_insert_seq (fun i => onerad !!! i)).
  case_decide; [done|lia].
Qed.

Lemma init_style_unfold (radius_flag rmass_flag ghost_velocity : Z)
    (update_dt : float) (fixes : list Fix) (ntypes : Z) (type : list Z)
    (A : Atom) (s : Style) (mr : list float) (R : Radii)
    (P : PairCFM) (R' : Radii) :
  init_style radius_flag rmass_flag ghost_velocity update_dt fixes ntypes
             type A s mr R = Some (P, R') ->
  radius_flag <> 0%Z /\ rmass_flag <> 0%Z /\ ghost_velocity <> 0%Z
  /\ P = configure s update_dt
           (match find (has_style "freeze") fixes with
            | Some f => groupbit f
            | None => 0%Z
            end)
           (match find is_rigid fixes with
            | Some _ => true
            | None => false
            end) mr
  /\ (onerad_dynamic R', onerad_frozen R')
     = atom_radii P A type
         (type_radii fixes ntypes (onerad_dynamic R, onerad_frozen R))
  /\ maxrad_dynamic R'
     = allreduce_max ntypes (onerad_dynamic R') (maxrad_dynamic R)
  /\ maxrad_frozen R'
     = allreduce_max ntypes (onerad_frozen R') (maxrad_frozen R).
Proof.
  unfold init_style.
  destruct (Z.eqb_spec radius_flag 0); [done|].
  destruct (Z.eqb_spec rmass_flag 0); [done|].
  destruct (Z.eqb_spec ghost_velocity 0); [done|].
  cbn [orb]. cbv zeta.
  destruct (atom_radii _ A type _) as [d f] eqn:E.
  intros [= <- <-]. cbn [onerad_dynamic onerad_frozen maxrad_dynamic
                          maxrad_frozen].
  by rewrite E.
Qed.

Lemma find_none_style (w : string) (fixes : list Fix) :
  (forall f : Fix, f ∈ fixes -> fix_style f <> w) ->
  find (has_style w) fixes = None.
Proof.
  intros H. destruct (find (has_style w) fixes) as [f|] eqn:E; [|done].
  apply find_some in E as [Hin Hs]. apply list_elem_of_In in Hin.
  unfold has_style in Hs. apply String.eqb_eq in Hs. by destruct (H f Hin).
Qed.

Lemma find_first (test : Fix -> bool) (pre post : list Fix) (f : Fix) :
  (forall g : Fix, g ∈ pre -> test g = false) -> test f = true ->
  find test (pre ++ f :: post) = Some f.
Proof.
  intros Hpre Hf. induction pre as [|g pre IH]; simpl.
  - by rewrite Hf.
  - rewrite (Hpre g) by (apply elem_of_cons; auto).
    apply IH. intros h Hh. apply Hpre. apply elem_of_cons. auto.
Qed.

(** X15. When init_style returns, the atom style has radius and rmass and
    ghost atoms store velocities; dt is the timestep of update;
    freeze_group_bit is the group bit of the first fix of style freeze,
    and fix_rigid is set exactly when some fix has a rigid flag.  Without
    a fix of style freeze the bit is 0, so compute treats no atom as
    frozen; with one, it treats exactly the atoms whose mask shares a bit
    with that fix's group as frozen. *)
Theorem X15_init_style_fixes (radius_flag rmass_flag ghost_velocity : Z)
    (update_dt : float) (fixes : list Fix) (ntypes : Z) (type : list Z)
    (A : Atom) (s : Style) (mr : list float) (R : Radii)
    (P : PairCFM) (R' : Radii) :
  init_style radius_flag rmass_flag ghost_velocity update_dt fixes ntypes
             type A s mr R = Some (P, R') ->
  radius_flag <> 0%Z /\ rmass_flag <> 0%Z /\ ghost_velocity <> 0%Z
  /\ dt P = update_dt
  /\ (fix_rigid P = true <-> exists f : Fix, f ∈ fixes /\ rigid_flag f <> 0%Z)
  /\ ((forall f : Fix, f ∈ fixes -> fix_style f <> "freeze") ->
      freeze_group_bit P = 0%Z /\ forall i : nat, frozen P A i = false)
  /\ (forall (pre post : list Fix) (f : Fix),
        fixes = pre ++ f :: post ->
        (forall g : Fix, g ∈ pre -> fix_style g <> "freeze") ->
        fix_style f = "freeze" ->
        freeze_group_bit P = groupbit f
        /\ forall i : nat,
             frozen P A i = true
             <-> Z.land (atom_mask A !!! i) (groupbit f) <> 0%Z).
Proof.
  intros H. apply init_style_unfold in H as (H1 & H2 & H3 & HP & _).
  do 3 (split; [done|]). subst P. cbn [dt fix_rigid freeze_group_bit configure].
  split; [done|]. split; [|split].
  - destruct (find is_rigid fixes) as [f|] eqn:E.
    + split; [|done]. intros _. apply find_some in E as [Hin Hr].
      exists f. split; [by apply list_elem_of_In|].
      unfold is_rigid in Hr. by destruct (Z.eqb_spec (rigid_flag f) 0).
    + split; [done|]. intros (f & Hin & Hr).
      apply list_elem_of_In in Hin.
      pose proof (find_none _ _ E f Hin) as Hn. unfold is_rigid in Hn.
      by destruct (Z.eqb_spec (rigid_flag f) 0).
  - intros Hno. rewrite (find_none_style "freeze" fixes Hno).
    split; [done|]. intros i. unfold frozen. cbn [freeze_group_bit configure].
    by rewrite Z.land_0_r.
  - intros pre post f -> Hpre Hf.
    rewrite (find_first (has_style "freeze") pre post f).
    + split; [done|]. intros i. unfold frozen.
      cbn [freeze_group_bit configure].
      destruct (Z.eqb_spec (Z.land (atom_mask A !!! i) (groupbit f)) 0);
        cbn [negb]; split; intros; done.
    + intros g Hg. unfold has_style. apply String.eqb_neq. by apply Hpre.
    + unfold has_style. by apply String.eqb_eq.
Qed.

(* The wall: the freeze fix comes second in the list, atom 0 has the mask
   3 and is frozen. *)
Lemma X15_init_style_fixes_witness :
  exists (P : PairCFM) (R' : Radii),
    wall_init = Some (P, R')
    /\ freeze_group_bit P = 2%Z /\ frozen P wall_atoms 0 = true.
Proof.
  destruct wall_init as [[P R']|] eqn:E; [|vm_compute in E; discriminate].
  exists P, R'. split; [done|].
  pose proof (X15_init_style_fixes _ _ _ _ _ _ _ _ _ _ _ _ _ E)
    as (_ & _ & _ & _ & _ & _ & H).
  destruct (H [mkFix "nve/sphere" 1 0 (fun _ => 0)]
              [mkFix "deposit" 1 0 (fun _ => 0.5)]
              (mkFix "freeze" 2 0 (fun _ => 0)) eq_refl) as [Hb Hf].
  - intros g Hg. apply list_elem_of_singleton in Hg as ->. done.
  - done.
  - split; [exact Hb|]. apply Hf. done.
Defined.

(** X16. After init_style on one process, with the four radius arrays
    holding ntypes+1 doubles, local atoms of types in 1..ntypes, and no NaN
    among the radii of the atoms and of the pour and deposit fixes:
    maxrad_frozen[type[i]] is not below the radius of a frozen local atom
    i and maxrad_dynamic[type[i]] not below that of any other local atom;
    for every type t, maxrad_frozen[t] is not below 0.0 and
    maxrad_dynamic[t] not below the radius of the deposit fix for t, or of
    the pour fix when there is no deposit fix, or 0.0 when there is
    neither. *)
Theorem X16_init_style_radii (radius_flag rmass_flag ghost_velocity : Z)
    (update_dt : float) (fixes : list Fix) (ntypes : Z) (type : list Z)
    (A : Atom) (s : Style) (mr : list float) (R : Radii)
    (P : PairCFM) (R' : Radii) :
  init_style radius_flag rmass_flag ghost_velocity update_dt fixes ntypes
             type A s mr R = Some (P, R') ->
  length (onerad_dynamic R) = S (Z.to_nat ntypes) ->
  length (onerad_frozen R) = S (Z.to_nat ntypes) ->
  length (maxrad_dynamic R) = S (Z.to_nat ntypes) ->
  length (maxrad_frozen R) = S (Z.to_nat ntypes) ->
  (forall (f : Fix) (t : Z),
     f ∈ fixes -> is_nan (extract_radius f t) = false) ->
  (forall i : nat, (i < Z.to_nat (nlocal A))%nat ->
     (1 <= type !!! i <= ntypes)%Z
     /\ is_nan (atom_radius A !!! i) = false) ->
  (forall i : nat, (i < Z.to_nat (nlocal A))%nat ->
     (atom_radius A !!! i
      <=? (if frozen P A i then maxrad_frozen R' else maxrad_dynamic R')
          !!! Z.to_nat (type !!! i)) = true)
  /\ forall t : nat, (1 <= t <= Z.to_nat ntypes)%nat ->
       (type_radius fixes t <=? maxrad_dynamic R' !!! t) = true
       /\ (0 <=? maxrad_frozen R' !!! t) = true.
Proof.
  intros H Ld Lf Lmd Lmf Hex Hat.
  apply init_style_unfold in H as (_ & _ & _ & _ & Hone & Hmd & Hmf).
  assert (Htr : forall t : Z, is_nan (type_radius fixes (Z.to_nat t)) = false).
  { intros t. unfold type_radius.
    destruct (find (has_style "deposit") fixes) as [f|] eqn:Ed.
    { apply Hex. apply list_elem_of_In. by apply find_some in Ed as [? _]. }
    destruct (find (has_style "pour") fixes) as [f|] eqn:Ep; [|done].
    apply Hex. apply list_elem_of_In. by apply find_some in Ep as [? _]. }
  destruct (type_radii_spec fixes ntypes (onerad_dynamic R) (onerad_frozen R)
              Htr Ld Lf) as (L1 & L2 & N1 & N2 & Hk).
  cbv zeta in L1, L2, N1, N2, Hk.
  destruct (type_radii fixes ntypes (onerad_dynamic R, onerad_frozen R))
    as [d0 f0] eqn:E0.
  cbn [fst snd] in L1, L2, N1, N2, Hk.
  destruct (atom_radii_upto P A type d0 f0 (Z.to_nat (nlocal A)) N1 N2)
    as (N1' & N2' & [L1' R1] & [L2' R2] & B).
  { intros i Hi. destruct (Hat i Hi) as [Hty Hr]. repeat split; [lia..|done]. }
  cbv zeta in N1', N2', L1', R1, L2', R2, B.
  fold (atom_radii P A type (d0, f0)) in N1', N2', L1', R1, L2', R2, B.
  rewrite <- Hone in N1', N2', L1', R1, L2', R2, B.
  cbn [fst snd] in N1', N2', L1', R1, L2', R2, B.
  assert (Emd : forall k : nat, (1 <= k <= Z.to_nat ntypes)%nat ->
            maxrad_dynamic R' !!! k = onerad_dynamic R' !!! k).
  { intros k Hk'. rewrite Hmd. apply allreduce_max_spec; [lia|done|lia]. }
  assert (Emf : forall k : nat, (1 <= k <= Z.to_nat ntypes)%nat ->
            maxrad_frozen R' !!! k = onerad_frozen R' !!! k).
  { intros k Hk'. rewrite Hmf. apply allreduce_max_spec; [lia|done|lia]. }
  split.
  - intros i Hi. destruct (Hat i Hi) as [Hty _]. specialize (B i Hi).
    destruct (frozen P A i).
    + rewrite Emf by lia. exact B.
    + rewrite Emd by lia. exact B.
  - intros t Ht. destruct (Hk t ltac:(lia)) as [Hd Hf].
    rewrite Emd, Emf by lia. split.
    + rewrite <- Hd. apply R1. lia.
    + rewrite <- Hf. apply R2. lia.
Qed.

(* The wall: the frozen atom of radius 2 and the free atom of radius 1,
   both of type 1. *)
Lemma X16_init_style_radii_witness :
  exists (P : PairCFM) (R' : Radii),
    wall_init = Some (P, R')
    /\ (2 <=? maxrad_frozen R' !!! 1%nat) = true
    /\ (1 <=? maxrad_dynamic R' !!! 1%nat) = true.
Proof.
  destruct wall_init as [[P R']|] eqn:E; [|vm_compute in E; discriminate].
  exists P, R'. split; [done|].
  pose proof (X16_init_style_radii _ _ _ _ _ _ _ _ _ _ _ _ _ E
                eq_refl eq_refl eq_refl eq_refl) as H.
  destruct H as [H _].
  - intros f t Hf. unfold wall_fixes in Hf. rewrite !elem_of_cons in Hf.
    destruct Hf as [->|[->|[->|Hf]]]; [done..|].
    by apply elem_of_nil in Hf.
  - intros [|[|i]] Hi; [split; [done|reflexivity]..|].
    change (Z.to_nat (nlocal wall_atoms)) with 2%nat in Hi. lia.
  - vm_compute in E. injection E as EP ER. subst P R'.
    split.
    + exact (H 0%nat ltac:(change (Z.to_nat (nlocal wall_atoms)) with 2%nat;
                            lia)).
    + exact (H 1%nat ltac:(change (Z.to_nat (nlocal wall_atoms)) with 2%nat;
                            lia)).
Defined.
(* ===================================================================== *)
(* The cells of the bond tables compute writes                            *)
(* ===================================================================== *)

Section TableWrites.

Context {V : Type}.
Implicit Types (t : gmap (Z * Z) V) (S : Z -> Prop).

Lemma table_writes_refl S t : table_writes S t t.
Proof. by split. Qed.

Lemma table_writes_trans S t1 t2 t3 :
  table_writes S t1 t2 -> table_writes S t2 t3 -> table_writes S t1 t3.
Proof.
  intros [F1 D1] [F2 D2]. split.
  - intros a b H. by rewrite F2, F1.
  - intros a b H. by apply D2, D1.
Qed.

Lemma table_writes_mono S S' t t' :
  (forall a : Z, S a -> S' a) -> table_writes S t t' -> table_writes S' t t'.
Proof.
  intros HS [F D]. split; [|done].
  intros a b H. apply F. intros [Ha Hb]. apply H. split; by apply HS.
Qed.

Lemma table_writes_set S t x a b (v : V) :
  S a -> S b -> table_writes S t x -> table_writes S t (tbl_set x a b v).
Proof.
  intros Ha Hb [F D]. unfold tbl_set. split.
  - intros a' b' H. rewrite lookup_insert_ne; [by apply F|].
    intros [= <- <-]. by apply H.
  - intros a' b' H. destruct (decide ((a, b) = (a', b'))) as [<-|N].
    + by rewrite lookup_insert_eq.
    + rewrite lookup_insert_ne by done. by apply D.
Qed.

End TableWrites.

Lemma tables_writes_refl S c : tables_writes S c c.
Proof. repeat split; done. Qed.

Lemma tables_writes_trans S c1 c2 c3 :
  tables_writes S c1 c2 -> tables_writes S c2 c3 -> tables_writes S c1 c3.
Proof.
  intros (A1 & B1 & C1) (A2 & B2 & C2).
  split; [|split]; by eapply table_writes_trans.
Qed.

Lemma tables_writes_mono (S S' : Z -> Prop) c c' :
  (forall a : Z, S a -> S' a) -> tables_writes S c c' -> tables_writes S' c c'.
Proof.
  intros HS (H1 & H2 & H3).
  split; [|split]; by eapply table_writes_mono.
Qed.

(* What leaves the three tables alone keeps the property. *)
Lemma tables_writes_same S c x y :
  is_cohesive y = is_cohesive x -> _Dinitial y = _Dinitial x ->
  _Dtensile y = _Dtensile x ->
  tables_writes S c x -> tables_writes S c y.
Proof. unfold tables_writes. by intros -> -> ->. Qed.

Lemma pair_rows_l ID1 ID2 : pair_rows ID1 ID2 (ID1 - 1).
Proof. by left. Qed.

Lemma pair_rows_r ID1 ID2 : pair_rows ID1 ID2 (ID2 - 1).
Proof. by right. Qed.

#[local] Hint Resolve pair_rows_l pair_rows_r : core.

Lemma tables_writes_set_bond c x ID1 ID2 b :
  tables_writes (pair_rows ID1 ID2) c x ->
  tables_writes (pair_rows ID1 ID2) c (set_bond x ID1 ID2 b).
Proof.
  intros (H1 & H2 & H3). split; [|by split].
  unfold set_bond. cbn [is_cohesive set_cohesive set_tables].
  do 2 (apply table_writes_set; [done..|]). done.
Qed.

Lemma tables_writes_unset_contact S c x jj :
  tables_writes S c x -> tables_writes S c (unset_contact x jj).
Proof. by apply tables_writes_same. Qed.

Lemma tables_writes_set_D S c x d :
  tables_writes S c x -> tables_writes S c (set_D x d).
Proof. by apply tables_writes_same. Qed.

Lemma tables_writes_form_bond P nt ID1 ID2 jj g c ig :
  tables_writes (pair_rows ID1 ID2) c (form_bond P nt ID1 ID2 jj g c ig).1.
Proof.
  unfold form_bond. destruct (nt <? 1)%Z; [|apply tables_writes_refl].
  destruct (in_bond_range P g); cbn [fst];
    (split; [|split]); cbn [is_cohesive _Dinitial _Dtensile set_tables
                              set_touch];
    do 2 (apply table_writes_set; [done..|]); apply table_writes_refl.
Qed.

Lemma tables_writes_unset_nontouching S ID1 ID2 jj g c ig :
  tables_writes S c (unset_nontouching ID1 ID2 jj g c ig).1.
Proof.
  unfold unset_nontouching. destruct (_ && _); cbn [fst];
    [apply tables_writes_unset_contact|]; apply tables_writes_refl.
Qed.

Lemma tables_writes_tensile_failure ID1 ID2 jj c x :
  tables_writes (pair_rows ID1 ID2) c x ->
  tables_writes (pair_rows ID1 ID2) c (tensile_failure ID1 ID2 jj x).
Proof.
  intros H. unfold tensile_failure. by apply tables_writes_set_bond.
Qed.

Lemma tables_writes_stretch_check ID1 ID2 jj g c ig :
  tables_writes (pair_rows ID1 ID2) c (stretch_check ID1 ID2 jj g c ig).1.
Proof.
  unfold stretch_check.
  destruct (_D _ <? 0); [|cbn [fst]; apply tables_writes_set_D,
                           tables_writes_refl].
  destruct (negb _); destruct (_ && _); cbn [fst];
    repeat first [ apply tables_writes_tensile_failure
                 | apply tables_writes_unset_contact
                 | apply tables_writes_set_D | apply tables_writes_refl ].
Qed.

Lemma tables_writes_pair_gates P nt ID1 ID2 jj g c :
  tables_writes (pair_rows ID1 ID2) c (pair_gates P nt ID1 ID2 jj g c).1.
Proof.
  unfold pair_gates.
  pose proof (tables_writes_form_bond P nt ID1 ID2 jj g c 1) as H1.
  destruct (form_bond P nt ID1 ID2 jj g c 1) as [c1 ig1].
  pose proof (tables_writes_unset_nontouching (pair_rows ID1 ID2)
                ID1 ID2 jj g c1 ig1) as H2.
  destruct (unset_nontouching ID1 ID2 jj g c1 ig1) as [c2 ig2].
  cbn [fst] in *.
  eapply tables_writes_trans; [exact H1|].
  eapply tables_writes_trans; [exact H2|]. apply tables_writes_stretch_check.
Qed.

Lemma tables_writes_shear_failure ID1 ID2 jj g c x fsv :
  tables_writes (pair_rows ID1 ID2) c x ->
  tables_writes (pair_rows ID1 ID2) c (shear_failure ID1 ID2 jj g x fsv).1.
Proof.
  intros H. unfold shear_failure. destruct (cohesive x ID1 ID2); [|done].
  destruct (_ <? _); cbn [fst]; try apply tables_writes_unset_contact;
    by apply tables_writes_set_bond.
Qed.

Lemma tables_writes_contact_law P A i j ID1 ID2 jj g c :
  tables_writes (pair_rows ID1 ID2) c (contact_law P A i j ID1 ID2 jj g c).1.
Proof.
  rewrite contact_law_rescale. cbv zeta.
  set (k := kinematics P A i j g (_D c)).
  set (cr := rotate_shear jj g k (integrate_shear P jj k c)).
  assert (Hl : tables_writes (pair_rows ID1 ID2) c
                 (force_limit P ID1 ID2 g k cr).1).
  { unfold force_limit. destruct (cohesive cr ID1 ID2); cbn [fst];
      (eapply tables_writes_same; [..|apply tables_writes_refl]); done. }
  unfold rescale. destruct (_ <=? _); [|done].
  destruct (negb _); by apply tables_writes_shear_failure.
Qed.

Lemma tables_writes_pair_eval P A nt i j jj c :
  tables_writes (pair_rows (atom_tag A !!! i) (atom_tag A !!! j)) c
                (pair_eval P A nt i j jj c).
Proof.
  unfold pair_eval.
  pose proof (tables_writes_pair_gates P nt
    (atom_tag A !!! i) (atom_tag A !!! j) jj (geometry A i j) c) as Hg.
  destruct (pair_gates _ _ _ _ _ _ _) as [ca ig]. cbn [fst] in Hg.
  destruct (negb _); [|done].
  unfold force_eval.
  pose proof (tables_writes_contact_law P A i j
    (atom_tag A !!! i) (atom_tag A !!! j) jj (geometry A i j) ca) as Hc.
  destruct (contact_law _ _ _ _ _ _ _ _ _) as [cb fsv]. cbn [fst] in Hc.
  eapply tables_writes_same; [..|eapply tables_writes_trans; [exact Hg|exact Hc]];
    unfold apply_forces; cbv zeta; by destruct (owns_j A j).
Qed.

Lemma fold_left_tables_writes {B : Type} (S : Z -> Prop)
    (step : Contact -> B -> Contact) (xs : list B) (c : Contact) :
  (forall (x : B) (a : Contact), x ∈ xs -> tables_writes S a (step a x)) ->
  tables_writes S c (fold_left step xs c).
Proof.
  revert c. induction xs as [|x xs IH]; intros c Hstep; simpl.
  - apply tables_writes_refl.
  - eapply tables_writes_trans.
    + apply Hstep. by left.
    + apply IH. intros y a Hy. apply Hstep. by right.
Qed.

Lemma tables_writes_neighbor_loop P A nt NL ii c :
  (ii < inum NL)%nat ->
  tables_writes (visited_rows A NL) c
                (neighbor_loop P A nt NL (ilist NL !!! ii) c).
Proof.
  intros Hii. unfold neighbor_loop. apply fold_left_tables_writes.
  intros jj a Hjj. apply elem_of_seq in Hjj. unfold pair_body.
  eapply tables_writes_mono; [|apply tables_writes_pair_eval].
  intros z [-> | ->].
  - exists (ilist NL !!! ii). split; [|done]. exists ii. split; [done|by left].
  - exists (neighbor_index A (firstneigh NL !!! (ilist NL !!! ii)) jj).
    split; [|done]. exists ii. split; [done|]. right. exists jj.
    split; [lia|done].
Qed.

Lemma tables_writes_atom_bodies P A nt NL (xs : list nat)
    (s : Contact * History) :
  (forall ii : nat, ii ∈ xs -> (ii < inum NL)%nat) ->
  tables_writes (visited_rows A NL) s.1
                (fold_left (atom_body P A nt NL) xs s).1.
Proof.
  revert s. induction xs as [|ii xs IH]; intros s Hxs; simpl.
  - apply tables_writes_refl.
  - eapply tables_writes_trans; [|apply IH].
    + unfold atom_body. cbn [fst].
      apply (tables_writes_neighbor_loop P A nt NL ii
               (load_history s.2 (ilist NL !!! ii) s.1)).
      apply Hxs. by left.
    + intros y Hy. apply Hxs. by right.
Qed.

(* memory->create(t,n,n) and t[i][j] = v for 0 <= i, j < n *)
Lemma fill_row_spec {V : Type} (n : nat) (v : V) (t : gmap (Z * Z) V)
    (i : nat) (a b : Z) :
  fill_row n v t i !! (a, b)
  = if decide (a = Z.of_nat i /\ 0 <= b < Z.of_nat n)%Z then Some v
    else t !! (a, b).
Proof.
  unfold fill_row.
  assert (H : forall (m s : nat) (t0 : gmap (Z * Z) V),
            fold_left (fun m0 j => tbl_set m0 (Z.of_nat i) (Z.of_nat j) v)
                      (seq s m) t0 !! (a, b)
            = if decide (a = Z.of_nat i
                         /\ Z.of_nat s <= b < Z.of_nat s + Z.of_nat m)%Z
              then Some v else t0 !! (a, b)).
  { induction m as [|m IH]; intros s t0; simpl.
    - case_decide; [lia|done].
    - rewrite IH. unfold tbl_set.
      destruct (decide ((Z.of_nat i, Z.of_nat s) = (a, b))) as [E|N].
      + injection E as <- <-. rewrite lookup_insert_eq.
        repeat case_decide; try done; lia.
      + rewrite lookup_insert_ne by done.
        repeat case_decide; try done; try lia.
        destruct N. f_equal; lia. }
  rewrite H. repeat case_decide; try done; lia.
Qed.

Lemma fill_table_spec {V : Type} (n : nat) (v : V) (a b : Z) :
  fill_table n v !! (a, b)
  = if decide (0 <= a < Z.of_nat n /\ 0 <= b < Z.of_nat n)%Z then Some v
    else None.
Proof.
  unfold fill_table.
  assert (H : forall (m s : nat) (t0 : gmap (Z * Z) V),
            fold_left (fill_row n v) (seq s m) t0 !! (a, b)
            = if decide (Z.of_nat s <= a < Z.of_nat s + Z.of_nat m
                         /\ 0 <= b < Z.of_nat n)%Z
              then Some v else t0 !! (a, b)).
  { induction m as [|m IH]; intros s t0; simpl.
    - case_decide; [lia|done].
    - rewrite IH, fill_row_spec.
      repeat case_decide; try done; lia. }
  rewrite H, lookup_empty. repeat case_decide; try done; lia.
Qed.

(** X17. A call of compute changes is_cohesive, _Dinitial and _Dtensile,
    as they stand after the creation of the tables at step 0, at most in
    cells [tag[a]-1][tag[b]-1] of atoms a, b it visits (the atoms of the
    list and their neighbours), and never takes a value away.  At step 0,
    when the tag of every visited atom lies in 1..inum, the cells that
    hold a value after the call are therefore exactly the inum x inum
    cells that were created. *)
Theorem X17_table_cells (P : PairCFM) (A : Atom) (ntimestep : Z)
    (NL : NeighList) (s : Contact * History) :
  let c0 := create_tables ntimestep NL s.1 in
  let c' := (compute P A ntimestep NL s).1 in
  (forall a b : Z,
     ~ (visited_rows A NL a /\ visited_rows A NL b) ->
     is_cohesive c' !! (a, b) = is_cohesive c0 !! (a, b)
     /\ _Dinitial c' !! (a, b) = _Dinitial c0 !! (a, b)
     /\ _Dtensile c' !! (a, b) = _Dtensile c0 !! (a, b))
  /\ (ntimestep = 0%Z ->
      (forall n : nat, visited A NL n ->
         (1 <= atom_tag A !!! n <= Z.of_nat (inum NL))%Z) ->
      forall a b : Z,
        let created := (0 <= a < Z.of_nat (inum NL)
                        /\ 0 <= b < Z.of_nat (inum NL))%Z in
        (is_Some (is_cohesive c' !! (a, b)) <-> created)
        /\ (is_Some (_Dinitial c' !! (a, b)) <-> created)
        /\ (is_Some (_Dtensile c' !! (a, b)) <-> created)).
Proof.
  intros c0 c'.
  assert (H : tables_writes (visited_rows A NL) c0 c').
  { unfold c', compute.
    apply (tables_writes_atom_bodies P A ntimestep NL (seq 0 (inum NL))
             (c0, s.2)).
    intros ii Hii. apply elem_of_seq in Hii. lia. }
  destruct H as ([F1 D1] & [F2 D2] & [F3 D3]).
  split.
  - intros a b Hab. by rewrite F1, F2, F3.
  - intros -> Htag a b created.
    assert (Hin : forall z : Z, visited_rows A NL z ->
              (0 <= z < Z.of_nat (inum NL))%Z).
    { intros z (n & Hn & ->). specialize (Htag n Hn). lia. }
    assert (Hc0 : is_cohesive c0 = fill_table (inum NL) false
                  /\ _Dinitial c0 = fill_table (inum NL) 0
                  /\ _Dtensile c0 = fill_table (inum NL) 0) by done.
    destruct Hc0 as (E1 & E2 & E3).
    assert (Hgen : forall (V : Type) (v : V) (t' : gmap (Z * Z) V),
              (forall a b : Z,
                 ~ (visited_rows A NL a /\ visited_rows A NL b) ->
                 t' !! (a, b) = fill_table (inum NL) v !! (a, b)) ->
              (forall a b : Z,
                 is_Some (fill_table (inum NL) v !! (a, b)) ->
                 is_Some (t' !! (a, b))) ->
              is_Some (t' !! (a, b)) <-> created).
    { intros V v t' F D. split.
      - intros Hs. destruct (decide created) as [Hcr|Hno]; [done|].
        assert (N : ~ (visited_rows A NL a /\ visited_rows A NL b)).
        { intros [Ha Hb]. apply Hno. split; by apply Hin. }
        rewrite (F a b N), fill_table_spec in Hs.
        case_decide; [done|]. by destruct Hs.
      - intros Hcr. apply D. rewrite fill_table_spec.
        by case_decide. }
    rewrite E1 in F1, D1. rewrite E2 in F2, D2. rewrite E3 in F3, D3.
    split; [by eapply Hgen|]. split; by eapply Hgen.
Qed.

(* A property that one pass of a loop establishes and every pass keeps
   holds after the loop. *)
Lemma fold_left_establish {S B : Type} (Q : S -> Prop) (step : S -> B -> S)
    (xs : list B) (x : B) (s : S) :
  x ∈ xs ->
  (forall a : S, Q (step a x)) ->
  (forall (y : B) (a : S), y ∈ xs -> Q a -> Q (step a y)) ->
  Q (fold_left step xs s).
Proof.
  intros Hx Hest Hkeep.
  assert (Hpres : forall (ys : list B) (a : S),
            (forall y : B, y ∈ ys -> y ∈ xs) -> Q a -> Q (fold_left step ys a)).
  { induction ys as [|y ys IH]; intros a Hsub Ha; simpl; [done|].
    apply IH.
    - intros z Hz. apply Hsub. by right.
    - apply Hkeep; [apply Hsub; by left|done]. }
  assert (Hgen : forall (ys : list B) (a : S),
            (forall y : B, y ∈ ys -> y ∈ xs) -> x ∈ ys ->
            Q (fold_left step ys a)).
  { induction ys as [|y ys IH]; intros a Hsub Hin.
    - by apply elem_of_nil in Hin.
    - simpl. apply elem_of_cons in Hin as [<-|Hin].
      + apply Hpres; [|apply Hest]. intros z Hz. apply Hsub. by right.
      + apply IH; [|done]. intros z Hz. apply Hsub. by right. }
  by apply Hgen.
Qed.

(* The cells [ID1-1][ID2-1] and [ID2-1][ID1-1] of the three tables hold a
   value. *)
Lemma form_bond_stores P nt ID1 ID2 jj g c ig :
  (nt < 1)%Z ->
  let c' := (form_bond P nt ID1 ID2 jj g c ig).1 in
  is_Some (is_cohesive c' !! ((ID1 - 1)%Z, (ID2 - 1)%Z))
  /\ is_Some (is_cohesive c' !! ((ID2 - 1)%Z, (ID1 - 1)%Z))
  /\ is_Some (_Dinitial c' !! ((ID1 - 1)%Z, (ID2 - 1)%Z))
  /\ is_Some (_Dinitial c' !! ((ID2 - 1)%Z, (ID1 - 1)%Z))
  /\ is_Some (_Dtensile c' !! ((ID1 - 1)%Z, (ID2 - 1)%Z))
  /\ is_Some (_Dtensile c' !! ((ID2 - 1)%Z, (ID1 - 1)%Z)).
Proof.
  intros Hnt. unfold form_bond.
  destruct (Z.ltb_spec nt 1) as [_|]; [|lia].
  assert (Hset : forall (V : Type) (t : gmap (Z * Z) V) (a b : Z) (v : V),
            is_Some (tbl_set (tbl_set t a b v) b a v !! (a, b))
            /\ is_Some (tbl_set (tbl_set t a b v) b a v !! (b, a))).
  { intros V t a b v. unfold tbl_set. split.
    - destruct (decide ((b, a) = (a, b))) as [E|N].
      + rewrite E. by rewrite lookup_insert_eq.
      + rewrite lookup_insert_ne by done. by rewrite lookup_insert_eq.
    - by rewrite lookup_insert_eq. }
  destruct (in_bond_range P g);
    cbn [fst is_cohesive _Dinitial _Dtensile set_tables set_touch];
    repeat split; apply Hset.
Qed.

Lemma stored_kept S a b c c' :
  tables_writes S c c' -> stored a b c -> stored a b c'.
Proof.
  intros ([_ D1] & [_ D2] & [_ D3]) (H1 & H2 & H3 & H4 & H5 & H6).
  repeat split; auto.
Qed.

Lemma pair_eval_stores P A nt i j jj c :
  (nt < 1)%Z ->
  stored (atom_tag A !!! i - 1) (atom_tag A !!! j - 1)
         (pair_eval P A nt i j jj c).
Proof.
  intros Hnt. unfold pair_eval, pair_gates.
  pose proof (form_bond_stores P nt (atom_tag A !!! i) (atom_tag A !!! j) jj
                (geometry A i j) c 1 Hnt) as H1. cbv zeta in H1.
  destruct (form_bond _ _ _ _ _ _ _ _) as [c1 ig1]. cbn [fst] in H1.
  pose proof (tables_writes_unset_nontouching
                (pair_rows (atom_tag A !!! i) (atom_tag A !!! j))
                (atom_tag A !!! i) (atom_tag A !!! j) jj (geometry A i j)
                c1 ig1) as H2.
  destruct (unset_nontouching _ _ _ _ _ _) as [c2 ig2]. cbn [fst] in H2.
  pose proof (tables_writes_stretch_check
                (atom_tag A !!! i) (atom_tag A !!! j) jj (geometry A i j)
                c2 ig2) as H3.
  destruct (stretch_check _ _ _ _ _ _) as [c3 ig3]. cbn [fst] in H3.
  assert (Hs3 : stored (atom_tag A !!! i - 1) (atom_tag A !!! j - 1) c3).
  { eapply stored_kept; [exact H3|]. eapply stored_kept; [exact H2|]. done. }
  destruct (negb _); [|done].
  unfold force_eval.
  pose proof (tables_writes_contact_law P A i j
    (atom_tag A !!! i) (atom_tag A !!! j) jj (geometry A i j) c3) as Hc.
  destruct (contact_law _ _ _ _ _ _ _ _ _) as [cb fsv]. cbn [fst] in Hc.
  apply (stored_kept (fun _ => True) _ _ cb);
    [|eapply stored_kept; [exact Hc|exact Hs3]].
  apply (tables_writes_same _ cb cb); [..|apply tables_writes_refl];
    unfold apply_forces; cbv zeta; by destruct (owns_j A j).
Qed.

(** X18. While ntimestep < 1, a call of compute stores a value in the
    cells [tag[i]-1][tag[j]-1] and [tag[j]-1][tag[i]-1] of is_cohesive,
    _Dinitial and _Dtensile for every atom i of the list and every
    neighbour j of i.  The tables created at step 0 have inum x inum
    cells: when tag[i] or tag[j] is outside 1..inum, the cells written
    for the pair are not among them. *)
Theorem X18_first_step_stores (P : PairCFM) (A : Atom) (ntimestep : Z)
    (NL : NeighList) (s : Contact * History) (ii jj : nat) :
  (ntimestep < 1)%Z ->
  (ii < inum NL)%nat ->
  (jj < numneigh NL !!! (ilist NL !!! ii))%nat ->
  let i := ilist NL !!! ii in
  let j := neighbor_index A (firstneigh NL !!! i) jj in
  let a := (atom_tag A !!! i - 1)%Z in
  let b := (atom_tag A !!! j - 1)%Z in
  let c0 := create_tables ntimestep NL s.1 in
  let c' := (compute P A ntimestep NL s).1 in
  is_Some (is_cohesive c' !! (a, b)) /\ is_Some (is_cohesive c' !! (b, a))
  /\ is_Some (_Dinitial c' !! (a, b)) /\ is_Some (_Dinitial c' !! (b, a))
  /\ is_Some (_Dtensile c' !! (a, b)) /\ is_Some (_Dtensile c' !! (b, a))
  /\ (ntimestep = 0%Z ->
      ~ (1 <= atom_tag A !!! i <= Z.of_nat (inum NL)
         /\ 1 <= atom_tag A !!! j <= Z.of_nat (inum NL))%Z ->
      is_cohesive c0 !! (a, b) = None /\ is_cohesive c0 !! (b, a) = None
      /\ _Dinitial c0 !! (a, b) = None /\ _Dinitial c0 !! (b, a) = None
      /\ _Dtensile c0 !! (a, b) = None /\ _Dtensile c0 !! (b, a) = None).
Proof.
  intros Hnt Hii Hjj i j a b c0 c'.
  assert (Hst : stored a b c').
  { unfold c', compute.
    apply (fold_left_establish (fun s' : Contact * History => stored a b s'.1)
             (atom_body P A ntimestep NL) (seq 0 (inum NL)) ii).
    - apply elem_of_seq. lia.
    - intros s1. unfold atom_body. cbn [fst]. fold i.
      unfold neighbor_loop.
      apply (fold_left_establish (stored a b)
               (pair_body P A ntimestep i (firstneigh NL !!! i))
               (seq 0 (numneigh NL !!! i)) jj).
      + apply elem_of_seq. unfold i. lia.
      + intros c1. unfold pair_body. by apply pair_eval_stores.
      + intros y c1 _. apply stored_kept with
          (S := pair_rows (atom_tag A !!! i)
                  (atom_tag A !!!
                     neighbor_index A (firstneigh NL !!! i) y)).
        apply tables_writes_pair_eval.
    - intros y s1 Hy Hs1. apply elem_of_seq in Hy.
      unfold atom_body. cbn [fst].
      eapply stored_kept; [|exact Hs1].
      apply (tables_writes_neighbor_loop P A ntimestep NL y
               (load_history s1.2 (ilist NL !!! y) s1.1)). lia. }
  destruct Hst as (H1 & H2 & H3 & H4 & H5 & H6).
  do 6 (split; [done|]).
  intros -> Hout. unfold c0, create_tables.
  cbn [Z.eqb set_tables is_cohesive _Dinitial _Dtensile].
  rewrite !fill_table_spec.
  repeat split; case_decide; try done; lia.
Qed.

(* The owned atom of tag 1 with its ghost neighbour of tag 2: the list
   holds one atom, and the first step stores a flag in is_cohesive[0][1]. *)
Lemma X18_first_step_stores_witness :
  is_Some (is_cohesive
             (compute cfm_style ghost_atoms 0 ghost_list ghost_start).1
           !! (0%Z, 1%Z))
  /\ is_cohesive (create_tables 0 ghost_list ghost_start.1) !! (0%Z, 1%Z)
     = None.
Proof.
  pose proof (X18_first_step_stores cfm_style ghost_atoms 0 ghost_list
                ghost_start 0 0 ltac:(lia) ltac:(simpl; lia)
                ltac:(simpl; lia)) as H.
  cbv zeta in H. destruct H as (H1 & _ & _ & _ & _ & _ & H7).
  split; [exact H1|].
  destruct (H7 eq_refl) as [H8 _]; [|exact H8].
  vm_compute. intros [_ [_ H]]. by apply H.
Defined.
